(** * Note-orious: the voice lifecycle of the web piano

    The repository holds the piano script in several builds:

    - the sustain-safe build ([src/unnamed/part_000], lines 1-335), with
      [heldKeys], [stopVoiceNow], [forceOff] and [forceAllOff];
    - [src/piano.js], which has neither a held set nor a forced release;
    - an older script ([src/unnamed/part_000], lines 336-611), which treats
      the table, the pedal and the pool as [src/piano.js] does and has no
      failsafe listeners; it is not embedded.

    The note helpers ([NAMES], [noteToMidi], [midiToNote], [midiToFreq]) are
    the same text in all of them; they are embedded once, in [Pitch].  The
    two lifecycles are embedded in [SustainSafe] and [Perfected], over one
    model of the audio graph and the timer queue, [Audio]; [PerfectedPage]
    adds the controls, the keyboard and the timers of [src/piano.js].

    JavaScript objects that are shared (a voice is referred to by the table
    and by the closure of its stop timer) live in a store and are named by
    their index.  [Map] and [Set] are finite maps and sets; a loop over
    their keys runs in the order of the finite map, not in insertion order:
    the loops below act on each key separately, what is proved about them
    speaks of membership only, and for the sustain-safe build the outcome
    is shown not to depend on the order ([forceAllOff_any_order]). *)

From Stdlib Require Import ZArith Floats Ascii.
From stdpp Require Import gmap strings list fin_maps pretty.

Local Open Scope Z_scope.
(* Decimal literals denote the nearest double, as they do in JavaScript. *)
Set Warnings "-inexact-float".

(** ** Values *)

(** What [midiToNote] can evaluate to: a string, or the number [NaN] that
    JavaScript computes for [undefined + n]. *)
Inductive JsValue :=
  | JsString (s : string)
  | JsNaN.

(** How a call of [noteToMidi] ends: it returns ([None] is [null]), or
    [note.match] is not a function and a [TypeError] is thrown. *)
Inductive Outcome :=
  | Returns (r : option Z)
  | ThrowsTypeError.

#[global] Instance Outcome_eq_dec : EqDecision Outcome.
Proof. solve_decision. Defined.

(** ** Note helpers *)

Module Pitch.

(** [const NAMES = ['C','C#','D','D#','E','F','F#','G','G#','A','A#','B']] *)
Definition NAMES : list string :=
  ["C"; "C#"; "D"; "D#"; "E"; "F"; "F#"; "G"; "G#"; "A"; "A#"; "B"]%string.

(** The character classes of the pattern: [[A-G]], [(#|b)] and [\d]. *)
Definition is_letter (c : ascii) : bool :=
  (Ascii.leb "A" c && Ascii.leb c "G")%char.
Definition is_accidental (c : ascii) : bool :=
  (Ascii.eqb c "#" || Ascii.eqb c "b")%char.
Definition is_digit (c : ascii) : bool :=
  (Ascii.leb "0" c && Ascii.leb c "9")%char.

(** [note.match(/^([A-G])(#|b)?(\d)$/)]: the three groups when the whole
    string is a letter, an optional accidental and exactly one digit. *)
Definition note_match (note : string)
  : option (ascii * option ascii * ascii) :=
  match note with
  | String L (String o EmptyString) =>
      if is_letter L && is_digit o then Some (L, None, o) else None
  | String L (String acc (String o EmptyString)) =>
      if is_letter L && is_accidental acc && is_digit o
      then Some (L, Some acc, o) else None
  | _ => None
  end.

(** [{C:0, D:2, E:4, F:5, G:7, A:9, B:11}[L]]; [None] is [undefined]. *)
Definition base_table (L : ascii) : option Z :=
  if Ascii.eqb L "C" then Some 0
  else if Ascii.eqb L "D" then Some 2
  else if Ascii.eqb L "E" then Some 4
  else if Ascii.eqb L "F" then Some 5
  else if Ascii.eqb L "G" then Some 7
  else if Ascii.eqb L "A" then Some 9
  else if Ascii.eqb L "B" then Some 11
  else None.

(** [+o] for a digit character. *)
Definition digit_value (o : ascii) : Z :=
  Z.of_N (N_of_ascii o) - 48.

(** [acc==='#'?1:acc==='b'?-1:0] *)
Definition accidental_shift (acc : option ascii) : Z :=
  match acc with
  | Some c => if Ascii.eqb c "#" then 1 else if Ascii.eqb c "b" then -1 else 0
  | None => 0
  end.

(** [noteToMidi(note)] on a string; [None] is [null].  The table has an
    entry for every letter the pattern captures ([base_table_letter]), so
    the bind never fails after a match. *)
Definition noteToMidi (note : string) : option Z :=
  match note_match note with
  | None => None
  | Some (L, acc, o) =>
      let octave := digit_value o in
      base ← base_table L;
      let v := base + accidental_shift acc in
      Some ((octave + 1) * 12 + v)
  end.

(** [noteToMidi] on whatever [midiToNote] produced. *)
Definition noteToMidi_of (note : JsValue) : Outcome :=
  match note with
  | JsString s => Returns (noteToMidi s)
  | JsNaN => ThrowsTypeError
  end.

(** [NAMES[i]] for an integer [i]: [undefined] below zero and past the
    end. *)
Definition NAMES_at (i : Z) : option string :=
  if decide (0 ≤ i) then NAMES !! Z.to_nat i else None.

(** [midiToNote(m)] for an integer [m]: [m%12] is the truncated remainder,
    [Math.floor(m/12)] the floored quotient; the number is appended in
    decimal.  When [NAMES[m%12]] is [undefined] the sum is [NaN]. *)
Definition midiToNote (m : Z) : JsValue :=
  match NAMES_at (m `rem` 12) with
  | Some name => JsString (name +:+ pretty (m `div` 12 - 1))
  | None => JsNaN
  end.

(** ['m'+midi], where [midi] is an integer or [null]. *)
Definition key_of (midi : option Z) : string :=
  match midi with
  | Some m => "m" +:+ pretty m
  | None => "mnull"
  end.

(** The number a [midi] value denotes in arithmetic: [null] counts as 0.
    Exact for integers of magnitude below 2^53. *)
Definition float_of_Z (z : Z) : float :=
  match z with
  | Z0 => 0%float
  | Zpos _ => PrimFloat.of_uint63 (Uint63.of_Z z)
  | Zneg p => (- PrimFloat.of_uint63 (Uint63.of_Z (Zpos p)))%float
  end.
Definition to_number (midi : option Z) : float :=
  match midi with
  | Some m => float_of_Z m
  | None => 0%float
  end.

Section Frequency.
(** [Math.pow] is implementation-approximated; only what ECMA-262 fixes
    is assumed: an exponent of zero gives exactly 1. *)
Variable Math_pow : float → float → float.
Hypothesis Math_pow_zero : ∀ x, Math_pow x 0%float = 1%float.

(** [function midiToFreq(m){ return 440 * Math.pow(2, (m - 69) / 12); }] *)
Definition midiToFreq (m : option Z) : float :=
  (440 * Math_pow 2 ((to_number m - 69) / 12))%float.
End Frequency.

(** One function that meets what is assumed of [Math.pow]; the examples
    run the handlers with it. *)
Definition pow_example (x y : float) : float :=
  if (y =? 0)%float then 1%float else x.

End Pitch.

(** ** Numbers *)

Module JsMath.
Import PrimFloat.

(** [Math.max(a, b)]: [NaN] if either is [NaN]; [+0] is larger than
    [-0]. *)
Definition Math_max (a b : float) : float :=
  if is_nan a || is_nan b then nan
  else if (a <? b)%float then b
  else if (b <? a)%float then a
  else if get_sign a then b else a.

(** [Math.min(a, b)]: [NaN] if either is [NaN]; [-0] is smaller than
    [+0]. *)
Definition Math_min (a b : float) : float :=
  if is_nan a || is_nan b then nan
  else if (a <? b)%float then a
  else if (b <? a)%float then b
  else if get_sign a then a else b.
End JsMath.

(** ** The audio graph and the timer queue *)

Module Audio.
Import JsMath.

(** The calls made on a gain's [AudioParam], in the order issued. *)
Inductive Automation :=
  | SetValueAtTime (value time : float)
  | LinearRampToValueAtTime (value endTime : float)
  | CancelScheduledValues (time : float)
  | SetTargetAtTime (target startTime timeConstant : float).

Record OscillatorNode := {
  osc_type : string;
  osc_frequency : float;
  osc_started : bool;
  osc_stopped : bool;
  osc_connected : bool
}.

Record GainNode := {
  gain_automation : list Automation;
  gain_connected : bool
}.

(** The object [{osc, gain:g}].  Voices live in a store and are referred to
    by their position in it: the table and the timer closures share them. *)
Record Voice := { osc : OscillatorNode; gain : GainNode }.

(** What a pending [setTimeout] will run. *)
Inductive Callback :=
  | StopVoice (v : nat)
  | Silence.

#[global] Instance Callback_eq_dec : EqDecision Callback.
Proof. solve_decision. Defined.

Record Timer := { callback : Callback; delay : float }.

Record Engine := {
  currentTime : float;
  master_gain : float;
  voices : list Voice;
  timers : list Timer
}.

Definition with_voices (f : list Voice → list Voice) (e : Engine) : Engine :=
  {| currentTime := currentTime e; master_gain := master_gain e;
     voices := f (voices e); timers := timers e |}.

Definition set_time (t : float) (e : Engine) : Engine :=
  {| currentTime := t; master_gain := master_gain e;
     voices := voices e; timers := timers e |}.

Definition set_master (g : float) (e : Engine) : Engine :=
  {| currentTime := currentTime e; master_gain := g;
     voices := voices e; timers := timers e |}.

Definition setTimeout (cb : Callback) (ms : float) (e : Engine) : Engine :=
  {| currentTime := currentTime e; master_gain := master_gain e;
     voices := voices e; timers := timers e ++ [{| callback := cb; delay := ms |}] |}.

Definition clearTimer (i : nat) (e : Engine) : Engine :=
  {| currentTime := currentTime e; master_gain := master_gain e;
     voices := voices e; timers := delete i (timers e) |}.

(** [try { v.osc.stop(); v.osc.disconnect(); v.gain.disconnect(); }
    catch(e){}]: whether or not a second [stop()] throws, the oscillator
    ends stopped and both nodes disconnected. *)
Definition stopped_voice (v : Voice) : Voice :=
  {| osc := {| osc_type := osc_type (osc v);
               osc_frequency := osc_frequency (osc v);
               osc_started := osc_started (osc v);
               osc_stopped := true;
               osc_connected := false |};
     gain := {| gain_automation := gain_automation (gain v);
                gain_connected := false |} |}.

Definition stopVoiceNow (v : nat) (e : Engine) : Engine :=
  with_voices (alter stopped_voice v) e.

Definition automate (a : list Automation) (v : Voice) : Voice :=
  {| osc := osc v;
     gain := {| gain_automation := gain_automation (gain v) ++ a;
                gain_connected := gain_connected (gain v) |} |}.

(** The body of [noteOn] between [const t = now()] and [osc.start()]:
    a new oscillator and gain, the attack ramp, the connections.  Returns
    the new voice object's place in the store. *)
Definition start_voice (wave : string) (volume attack freq vel : float)
    (e : Engine) : nat * Engine :=
  let t := currentTime e in
  let attack := Math_max 0 (attack / 1000) in
  let level := Math_max 0 (Math_min 1 (volume * vel)) in
  let v := {| osc := {| osc_type := wave; osc_frequency := freq;
                        osc_started := true; osc_stopped := false;
                        osc_connected := true |};
              gain := {| gain_automation :=
                           [SetValueAtTime 0 t;
                            LinearRampToValueAtTime level (t + attack)];
                         gain_connected := true |} |} in
  (length (voices e), with_voices (λ vs, vs ++ [v]) e).

(** The release shared by [noteOff] and [forceOff]:
    [cancelScheduledValues(t)], [setTargetAtTime(0, t, rel/3)] and the
    [setTimeout] that stops the voice after [rel*1000 + 50] ms. *)
Definition fade_out (release : float) (v : nat) (e : Engine) : Engine :=
  let t := currentTime e in
  let rel := Math_max 0.02 (release / 1000) in
  setTimeout (StopVoice v) (rel * 1000 + 50)
    (with_voices
       (alter (automate [CancelScheduledValues t;
                         SetTargetAtTime 0 t (rel / 3)]) v) e).

(** A voice is sounding when its oscillator was started and not stopped. *)
Definition sounding (e : Engine) (v : nat) : bool :=
  match voices e !! v with
  | Some x => osc_started (osc x) && negb (osc_stopped (osc x))
  | None => false
  end.

(** A voice is fading when a timer that will stop it is pending. *)
Definition fading (e : Engine) (v : nat) : bool :=
  bool_decide (StopVoice v ∈ callback <$> timers e).

(** A live voice sounds and has no stop pending. *)
Definition live (e : Engine) (v : nat) : Prop :=
  sounding e v = true ∧ fading e v = false.

(** A table [a] of voices agrees with the audio graph [e]: the voices in
    the table are live, no voice is in the table under two keys, every
    live voice is in the table, and pending stops refer to voices of the
    store. *)
Definition sound (a : gmap string nat) (e : Engine) : Prop :=
  (∀ k v, a !! k = Some v → live e v) ∧
  (∀ k1 k2 v, a !! k1 = Some v → a !! k2 = Some v → k1 = k2) ∧
  (∀ v, live e v → ∃ k, a !! k = Some v) ∧
  (∀ v, fading e v = true → (v < length (voices e))%nat).

(** Two audio graphs that differ at most in the order of the pending
    timers. *)
Definition engine_alike (e e' : Engine) : Prop :=
  currentTime e = currentTime e' ∧ master_gain e = master_gain e' ∧
  voices e = voices e' ∧ timers e ≡ₚ timers e'.
End Audio.

(** ** The page: parameters, key elements, input events *)

Module Page.
Import JsMath.

(** The [state] object.  [baseOct] and [octaves] come from the controls as
    numbers; they are taken to be integers. *)
Record Params := {
  wave : string;
  volume : float;
  attack : float;
  release : float;
  baseOct : Z;
  octaves : Z;
  velocityMode : string
}.

Definition defaults : Params :=
  {| wave := "triangle"; volume := 0.7; attack := 12; release := 320;
     baseOct := 4; octaves := 2; velocityMode := "ypos" |}.

Definition with_wave (w : string) (p : Params) : Params :=
  {| wave := w; volume := volume p; attack := attack p;
     release := release p; baseOct := baseOct p; octaves := octaves p;
     velocityMode := velocityMode p |}.
Definition with_volume (v : float) (p : Params) : Params :=
  {| wave := wave p; volume := v; attack := attack p;
     release := release p; baseOct := baseOct p; octaves := octaves p;
     velocityMode := velocityMode p |}.
Definition with_attack (a : float) (p : Params) : Params :=
  {| wave := wave p; volume := volume p; attack := a;
     release := release p; baseOct := baseOct p; octaves := octaves p;
     velocityMode := velocityMode p |}.
Definition with_release (r : float) (p : Params) : Params :=
  {| wave := wave p; volume := volume p; attack := attack p;
     release := r; baseOct := baseOct p; octaves := octaves p;
     velocityMode := velocityMode p |}.
Definition with_baseOct (b : Z) (p : Params) : Params :=
  {| wave := wave p; volume := volume p; attack := attack p;
     release := release p; baseOct := b; octaves := octaves p;
     velocityMode := velocityMode p |}.
Definition with_octaves (n : Z) (p : Params) : Params :=
  {| wave := wave p; volume := volume p; attack := attack p;
     release := release p; baseOct := baseOct p; octaves := n;
     velocityMode := velocityMode p |}.
Definition with_velocityMode (m : string) (p : Params) : Params :=
  {| wave := wave p; volume := volume p; attack := attack p;
     release := release p; baseOct := baseOct p; octaves := octaves p;
     velocityMode := m |}.

(** The twelve entries [buildPiano()] pushes for one octave: the name
    before the octave number, and whether the colour is ["white"]. *)
Definition octave_entries : list (string * bool) :=
  [("C", true); ("C#", false); ("D", true); ("D#", false); ("E", true);
   ("F", true); ("F#", false); ("G", true); ("G#", false); ("A", true);
   ("A#", false); ("B", true)]%string.

(** The [notes] array: [{n, c}] for each octave from [state.baseOct] on. *)
Definition notes (p : Params) : list (string * bool) :=
  o ← seqZ 0 (octaves p);
  (λ nc, (nc.1 +:+ pretty (baseOct p + o), nc.2)) <$> octave_entries.

(** [n.n.match(/\d+$/)[0]]: the digits the string ends with.  Every name
    of the array ends with a digit, so the match is never [null]. *)
Fixpoint trailing_digits (s : string) : string :=
  match s with
  | EmptyString => EmptyString
  | String c rest =>
      let t := trailing_digits rest in
      if Pitch.is_digit c && String.eqb t rest then String c rest else t
  end.

(** [n.n[0]] *)
Definition first_char (s : string) : string :=
  match s with
  | EmptyString => EmptyString
  | String c _ => String c EmptyString
  end.

(** [(localIdx === 0 || localIdx === 1 || localIdx === 3 ||
    localIdx === 4 || localIdx === 5)] *)
Definition hasBlack (localIdx : nat) : bool :=
  bool_decide (localIdx ∈ [0; 1; 3; 4; 5]%nat).

(** The loop [for(const n of notes)] of [buildPiano()], with [all] the
    names of the array and [wIdx] the count of white notes met so far.  A
    white note gets its element; when [hasBlack] holds and the name
    [sharpName], put together from its letter and its trailing digits, is
    in the array, a black element with that name follows.  The black
    entries of the array make no element of their own. *)
Fixpoint key_elements (all : list string) (wIdx : nat)
    (ns : list (string * bool)) : list string :=
  match ns with
  | [] => []
  | (n, white) :: rest =>
      if white then
        let sharpName := first_char n +:+ "#" +:+ trailing_digits n in
        n :: (if hasBlack (Nat.modulo wIdx 7)
                 && bool_decide (sharpName ∈ all)
              then [sharpName] else [])
          ++ key_elements all (S wIdx) rest
      else key_elements all wIdx rest
  end.

(** [buildPiano()]: the [data-note] values of the key elements it makes,
    each white one followed by the black one made after it.  (In the
    document all white elements come before the black ones; the handlers
    only ask whether an element with a given note exists.)  For an octave
    of 0 or more the trailing digits are the octave number and every sharp
    of the array gets its element; for a negative octave the digits lack
    the sign, and the sharp looked up is the one of the octave with the
    opposite sign.  Geometry and labels are not modelled. *)
Definition buildPiano (p : Params) : list string :=
  key_elements (notes p).*1 0 (notes p).

(** The fields of a pointer event that the handlers read; [pressure] is
    [None] when [typeof e.pressure] is not ['number']. *)
Record PointerEvent := {
  pressure : option float;
  clientY : option float;
  buttons : Z
}.

(** [el.getBoundingClientRect()] *)
Record Rect := { top : float; height : float }.

(** [getVelocity(el, e)] *)
Definition getVelocity (p : Params) (rect : Rect) (e : option PointerEvent)
  : float :=
  match e with
  | None => 1
  | Some e =>
      match (if String.eqb (velocityMode p) "pressure" then pressure e
             else None) with
      | Some pr => Math_max 0.05 (Math_min 1 pr)
      | None =>
          if String.eqb (velocityMode p) "ypos" then
            let y := (default (top rect) (clientY e) - top rect)%float in
            let r := Math_max 0 (Math_min 1 (1 - y / height rect)) in
            (0.3 + 0.7 * r)%float
          else 1
      end
  end%float.

(** The fields of a keyboard event that the handlers read; [key] holds
    [e.key.toUpperCase()]. *)
Record KeyboardEvent := {
  targetTag : string;
  repeat : bool;
  key : string;
  shiftKey : bool
}.

(** [KEY_MAP] *)
Definition KEY_MAP : gmap string Z :=
  list_to_map
    [("A", 0); ("W", 1); ("S", 2); ("E", 3); ("D", 4); ("F", 5);
     ("T", 6); ("G", 7); ("Y", 8); ("H", 9); ("U", 10); ("J", 11)]%string.

(** [`${note}`] inside the selector. *)
Definition template (v : JsValue) : string :=
  match v with
  | JsString s => s
  | JsNaN => "NaN"
  end.
End Page.

(** ** The sustain-safe build ([src/unnamed/part_000], lines 1-335) *)

Module SustainSafe.
Import Audio Page.

Record Piano := {
  engine : Engine;
  started : bool;
  active : gmap string nat;
  heldKeys : gset string;
  sustain : bool;
  sustainPool : gset string;
  state : Params;
  page : list string
}.

Definition set_engine (e : Engine) (s : Piano) : Piano :=
  {| engine := e; started := started s; active := active s;
     heldKeys := heldKeys s; sustain := sustain s;
     sustainPool := sustainPool s; state := state s; page := page s |}.
Definition set_started (b : bool) (s : Piano) : Piano :=
  {| engine := engine s; started := b; active := active s;
     heldKeys := heldKeys s; sustain := sustain s;
     sustainPool := sustainPool s; state := state s; page := page s |}.
Definition set_active (a : gmap string nat) (s : Piano) : Piano :=
  {| engine := engine s; started := started s; active := a;
     heldKeys := heldKeys s; sustain := sustain s;
     sustainPool := sustainPool s; state := state s; page := page s |}.
Definition set_heldKeys (h : gset string) (s : Piano) : Piano :=
  {| engine := engine s; started := started s; active := active s;
     heldKeys := h; sustain := sustain s;
     sustainPool := sustainPool s; state := state s; page := page s |}.
Definition set_sustain (b : bool) (s : Piano) : Piano :=
  {| engine := engine s; started := started s; active := active s;
     heldKeys := heldKeys s; sustain := b;
     sustainPool := sustainPool s; state := state s; page := page s |}.
Definition set_sustainPool (p : gset string) (s : Piano) : Piano :=
  {| engine := engine s; started := started s; active := active s;
     heldKeys := heldKeys s; sustain := sustain s;
     sustainPool := p; state := state s; page := page s |}.
(** A control changed a parameter; [rebuild] is the call of
    [buildPiano()]. *)
Definition set_state (p : Params) (rebuild : bool) (s : Piano) : Piano :=
  {| engine := engine s; started := started s; active := active s;
     heldKeys := heldKeys s; sustain := sustain s;
     sustainPool := sustainPool s; state := p;
     page := if rebuild then buildPiano p else page s |}.

Definition init : Piano :=
  {| engine := {| currentTime := 0; master_gain := 0.7;
                  voices := []; timers := [] |};
     started := false; active := ∅; heldKeys := ∅; sustain := false;
     sustainPool := ∅; state := defaults; page := buildPiano defaults |}.

(** [noteOn(key, freq, vel)] *)
Definition noteOn (key : string) (freq vel : float) (s : Piano) : Piano :=
  let e :=
    match active s !! key with
    | Some prev => stopVoiceNow prev (engine s)
    | None => engine s
    end in
  let '(v, e) :=
    start_voice (wave (state s)) (volume (state s)) (attack (state s))
      freq vel e in
  set_active (<[key := v]> (active s)) (set_engine e s).

(** [noteOff(key)]: the normal release, which honours sustain. *)
Definition noteOff (key : string) (s : Piano) : Piano :=
  match active s !! key with
  | None => s
  | Some v =>
      if sustain s then set_sustainPool ({[key]} ∪ sustainPool s) s
      else
        set_active (delete key (active s))
          (set_engine (fade_out (release (state s)) v (engine s)) s)
  end.

(** [forceOff(key)]: the forced release, which ignores sustain. *)
Definition forceOff (key : string) (s : Piano) : Piano :=
  match active s !! key with
  | None => s
  | Some v =>
      let s := set_engine (fade_out (release (state s)) v (engine s)) s in
      let s := set_active (delete key (active s)) s in
      let s := set_sustainPool (sustainPool s ∖ {[key]}) s in
      set_heldKeys (heldKeys s ∖ {[key]}) s
  end.

(** [Array.from(active.keys())].  JavaScript lists the keys in insertion
    order; the model lists them in the order of the finite map. *)
Definition keys_snapshot (s : Piano) : list string :=
  (map_to_list (active s)).*1.

(** [for(const k of keys) noteOff(k)] *)
Definition release_each (keys : list string) (s : Piano) : Piano :=
  foldl (λ s k, noteOff k s) s keys.

(** [for(const k of keys) forceOff(k)] *)
Definition force_each (keys : list string) (s : Piano) : Piano :=
  foldl (λ s k, forceOff k s) s keys.

(** [for(const key of keys){ if(!heldKeys.has(key)) forceOff(key); }] *)
Definition force_unheld (keys : list string) (s : Piano) : Piano :=
  foldl (λ s key, if decide (key ∈ heldKeys s) then s else forceOff key s)
        s keys.

(** [allNotesOff()] *)
Definition allNotesOff (s : Piano) : Piano :=
  set_sustainPool ∅ (release_each (keys_snapshot s) s).

(** [forceAllOff()] *)
Definition forceAllOff (s : Piano) : Piano :=
  set_sustainPool ∅ (force_each (keys_snapshot s) s).

(** [sustainCb.onchange], with [checked] the new state of the box. *)
Definition sustain_onchange (checked : bool) (s : Piano) : Piano :=
  let prev := sustain s in
  let s := set_sustain checked s in
  if prev && negb checked then
    set_sustainPool ∅ (force_unheld (keys_snapshot s) s)
  else s.

(** [const forceSilence = ()=> forceAllOff();] *)
Definition forceSilence (s : Piano) : Piano := forceAllOff s.

Section Handlers.
Variable Math_pow : float → float → float.

(** [activate(el, e)], with [note] the element's [data-note]. *)
Definition activate (note : string) (rect : Rect)
    (e : option PointerEvent) (s : Piano) : Piano :=
  let s := if started s then s else set_started true s in
  let midi := Pitch.noteToMidi note in
  let freq := Pitch.midiToFreq Math_pow midi in
  let key := Pitch.key_of midi in
  let s := set_heldKeys ({[key]} ∪ heldKeys s) s in
  noteOn key freq (getVelocity (state s) rect e) s.

(** [deactivate(el)] *)
Definition deactivate (note : string) (s : Piano) : Piano :=
  let midi := Pitch.noteToMidi note in
  let key := Pitch.key_of midi in
  let s := set_heldKeys (heldKeys s ∖ {[key]}) s in
  noteOff key s.

(** The [keydown] listener on [window]. *)
Definition keydown (e : KeyboardEvent) (s : Piano) : Piano :=
  if bool_decide (targetTag e ∈ ["INPUT"; "SELECT"; "TEXTAREA"]%string)
  then s
  else if repeat e then s
  else
    let k := key e in
    if String.eqb k "Z" then
      set_state (with_baseOct (Z.max 2 (baseOct (state s) - 1)) (state s))
        true s
    else if String.eqb k "X" then
      set_state (with_baseOct (Z.min 6 (baseOct (state s) + 1)) (state s))
        true s
    else
      match KEY_MAP !! k with
      | None => s
      | Some semis =>
          let base := baseOct (state s) + (if shiftKey e then 1 else 0) in
          let midi := (base + 1) * 12 + semis in
          let note := Pitch.midiToNote midi in
          if bool_decide (template note ∈ page s) then
            let s := if started s then s else set_started true s in
            let key := Pitch.key_of (Some midi) in
            let s := set_heldKeys ({[key]} ∪ heldKeys s) s in
            noteOn key (Pitch.midiToFreq Math_pow (Some midi)) 0.95 s
          else s
      end.

(** The [keyup] listener on [window]. *)
Definition keyup (e : KeyboardEvent) (s : Piano) : Piano :=
  let k := key e in
  match KEY_MAP !! k with
  | None => s
  | Some semis =>
      let base := baseOct (state s) + (if shiftKey e then 1 else 0) in
      let midi := (base + 1) * 12 + semis in
      let key := Pitch.key_of (Some midi) in
      let s := set_heldKeys (heldKeys s ∖ {[key]}) s in
      noteOff key s
  end.

(** A pending timer fires: it leaves the queue and its callback runs. *)
Definition fire (i : nat) (s : Piano) : Piano :=
  match timers (engine s) !! i with
  | None => s
  | Some t =>
      let s := set_engine (clearTimer i (engine s)) s in
      match callback t with
      | StopVoice v => set_engine (stopVoiceNow v (engine s)) s
      | Silence => forceSilence s
      end
  end.

(** Everything that can happen to the page, one listener at a time.  An
    event that reaches two listeners is two events here: a pointer up on a
    key element is [KeyPointerUp], then, as it bubbles, [WindowPointerUp]. *)
Inductive Event :=
  | KeyPointerDown (note : string) (rect : Rect) (e : PointerEvent)
  | KeyPointerEnter (note : string) (rect : Rect) (e : PointerEvent)
  | KeyPointerUp (note : string)
  | KeyPointerCancel (note : string)
  | KeyPointerLeave (note : string) (e : PointerEvent)
  | KeyDown (e : KeyboardEvent)
  | KeyUp (e : KeyboardEvent)
  | SustainChange (checked : bool)
  | WaveChange (value : string)
  | VolumeInput (value : float)
  | AttackInput (value : float)
  | ReleaseInput (value : float)
  | BaseOctInput (value : Z)
  | OctavesChange (value : Z)
  | VelocityChange (value : string)
  | WindowPointerUp
  | WindowTouchEnd
  | WindowTouchCancel
  | OrientationChange
  | VisibilityChange (hidden : bool)
  | Interval
  | BeforeUnload
  | TimerFires (i : nat)
  | ClockAdvances (t : float).

(** The listener each event runs. *)
Definition handle (ev : Event) (s : Piano) : Piano :=
  match ev with
  | KeyPointerDown note rect e => activate note rect (Some e) s
  | KeyPointerEnter note rect e =>
      if bool_decide (buttons e ≠ 0) then activate note rect (Some e) s
      else s
  | KeyPointerUp note | KeyPointerCancel note => deactivate note s
  | KeyPointerLeave note e =>
      if bool_decide (buttons e = 1) then deactivate note s else s
  | KeyDown e => keydown e s
  | KeyUp e => keyup e s
  | SustainChange checked => sustain_onchange checked s
  | WaveChange w => set_state (with_wave w (state s)) false s
  | VolumeInput v =>
      set_engine (set_master v (engine s))
        (set_state (with_volume v (state s)) false s)
  | AttackInput a => set_state (with_attack a (state s)) false s
  | ReleaseInput r => set_state (with_release r (state s)) false s
  | BaseOctInput b => set_state (with_baseOct b (state s)) true s
  | OctavesChange n => set_state (with_octaves n (state s)) true s
  | VelocityChange m => set_state (with_velocityMode m (state s)) false s
  | WindowPointerUp | WindowTouchEnd | WindowTouchCancel => forceSilence s
  | OrientationChange =>
      set_engine (setTimeout Silence 200 (engine s)) s
  | VisibilityChange hidden => if hidden then forceSilence s else s
  | Interval => forceSilence s
  | BeforeUnload => forceAllOff s
  | TimerFires i => fire i s
  | ClockAdvances t => set_engine (set_time t (engine s)) s
  end.

Definition run (evs : list Event) (s : Piano) : Piano :=
  foldl (λ s ev, handle ev s) s evs.

(** The states the page can be in. *)
Definition reachable (s : Piano) : Prop := ∃ evs, s = run evs init.
End Handlers.

(** The table, the held set and the pool as the handlers keep them:
    pooled keys have a voice, a voice that is not held is pooled, held keys
    have a voice, and the pool is empty while the pedal is up. *)
Definition consistent (s : Piano) : Prop :=
  sustainPool s ⊆ dom (active s) ∧
  dom (active s) ∖ heldKeys s ⊆ sustainPool s ∧
  heldKeys s ⊆ dom (active s) ∧
  (sustain s = false → sustainPool s = ∅).

(** The table and the audio graph as the handlers keep them: the voices in
    the table are live, no voice is in the table under two keys, every
    live voice is in the table, and pending stops refer to voices of the
    store. *)
Definition table_sound (s : Piano) : Prop :=
  sound (active s) (engine s).

(** Two states of the page that differ at most in the order of the pending
    timers. *)
Definition alike (s s' : Piano) : Prop :=
  engine_alike (engine s) (engine s') ∧ started s = started s' ∧
  active s = active s' ∧ heldKeys s = heldKeys s' ∧
  sustain s = sustain s' ∧ sustainPool s = sustainPool s' ∧
  state s = state s' ∧ page s = page s'.
End SustainSafe.

(** ** The two halves of a gesture, in the sustain-safe build *)

Module Gesture.
Import Audio Page SustainSafe.

(** [if(!started){ ctx.resume(); started = true; }] *)
Definition resume (s : Piano) : Piano :=
  if started s then s else set_started true s.

(** [heldKeys.add(key); noteOn(key, freq, vel)]: how [activate] and the
    key-down listener end. *)
Definition strike (key : string) (f vel : float) (s : Piano) : Piano :=
  noteOn key f vel (set_heldKeys ({[key]} ∪ heldKeys s) s).

(** [heldKeys.delete(key); noteOff(key)]: how [deactivate] and the key-up
    listener end. *)
Definition let_go (key : string) (s : Piano) : Piano :=
  noteOff key (set_heldKeys (heldKeys s ∖ {[key]}) s).
End Gesture.

(** ** The build in [src/piano.js] *)

Module Perfected.
Import Audio Page.

(** [pressed] holds the key elements under a pointer, named here by their
    [data-note]; it belongs to one call of [buildPiano()]. *)
Record Piano := {
  engine : Engine;
  started : bool;
  active : gmap string nat;
  sustain : bool;
  sustainPool : gset string;
  state : Params;
  page : list string;
  pressed : gset string
}.

Definition set_engine (e : Engine) (s : Piano) : Piano :=
  {| engine := e; started := started s; active := active s;
     sustain := sustain s; sustainPool := sustainPool s;
     state := state s; page := page s; pressed := pressed s |}.
Definition set_started (b : bool) (s : Piano) : Piano :=
  {| engine := engine s; started := b; active := active s;
     sustain := sustain s; sustainPool := sustainPool s;
     state := state s; page := page s; pressed := pressed s |}.
Definition set_active (a : gmap string nat) (s : Piano) : Piano :=
  {| engine := engine s; started := started s; active := a;
     sustain := sustain s; sustainPool := sustainPool s;
     state := state s; page := page s; pressed := pressed s |}.
Definition set_sustain (b : bool) (s : Piano) : Piano :=
  {| engine := engine s; started := started s; active := active s;
     sustain := b; sustainPool := sustainPool s;
     state := state s; page := page s; pressed := pressed s |}.
Definition set_sustainPool (p : gset string) (s : Piano) : Piano :=
  {| engine := engine s; started := started s; active := active s;
     sustain := sustain s; sustainPool := p;
     state := state s; page := page s; pressed := pressed s |}.
Definition set_pressed (p : gset string) (s : Piano) : Piano :=
  {| engine := engine s; started := started s; active := active s;
     sustain := sustain s; sustainPool := sustainPool s;
     state := state s; page := page s; pressed := p |}.

Definition init : Piano :=
  {| engine := {| currentTime := 0; master_gain := 0.7;
                  voices := []; timers := [] |};
     started := false; active := ∅; sustain := false;
     sustainPool := ∅; state := defaults; page := buildPiano defaults;
     pressed := ∅ |}.

(** [noteOn(key, freq, vel)]: the new voice takes the key's place in the
    table; a voice already there is not touched. *)
Definition noteOn (key : string) (freq vel : float) (s : Piano) : Piano :=
  let '(v, e) :=
    start_voice (wave (state s)) (volume (state s)) (attack (state s))
      freq vel (engine s) in
  set_active (<[key := v]> (active s)) (set_engine e s).

(** [noteOff(key)] *)
Definition noteOff (key : string) (s : Piano) : Piano :=
  match active s !! key with
  | None => s
  | Some v =>
      if sustain s then set_sustainPool ({[key]} ∪ sustainPool s) s
      else
        set_active (delete key (active s))
          (set_engine (fade_out (release (state s)) v (engine s)) s)
  end.

(** [for (const k of keys) noteOff(k)] *)
Definition release_each (keys : list string) (s : Piano) : Piano :=
  foldl (λ s k, noteOff k s) s keys.

(** [for (const k of active.keys()) noteOff(k)]: each call removes at most
    the entry being visited, so the live iteration visits the keys present
    at its start. *)
Definition release_all (s : Piano) : Piano :=
  release_each (map_to_list (active s)).*1 s.

(** [allNotesOff()] *)
Definition allNotesOff (s : Piano) : Piano :=
  set_sustainPool ∅ (release_all s).

(** [sustainCb.onchange], with [checked] the new state of the box. *)
Definition sustain_onchange (checked : bool) (s : Piano) : Piano :=
  let s := set_sustain checked s in
  if checked then s
  else set_sustainPool ∅ (release_each (elements (sustainPool s)) s).

(** The [setInterval] sweep; [above v] is the reading
    [voice.gain.gain.value > 0.0001] for the voice [v]. *)
Definition sweep (above : nat → bool) (s : Piano) : Piano :=
  foldl (λ s kv, if above kv.2 then noteOff kv.1 s else s)
        s (map_to_list (active s)).

Section Handlers.
Variable Math_pow : float → float → float.

(** [activateKey(el, e)] *)
Definition activateKey (note : string) (rect : Rect)
    (e : option PointerEvent) (s : Piano) : Piano :=
  let s := if started s then s else set_started true s in
  let midi := Pitch.noteToMidi note in
  let freq := Pitch.midiToFreq Math_pow midi in
  noteOn (Pitch.key_of midi) freq (getVelocity (state s) rect e) s.

(** [deactivateKey(el)] *)
Definition deactivateKey (note : string) (s : Piano) : Piano :=
  noteOff (Pitch.key_of (Pitch.noteToMidi note)) s.

(** The [end] listener of a key element. *)
Definition pointer_end (note : string) (s : Piano) : Piano :=
  if decide (note ∈ pressed s) then
    deactivateKey note (set_pressed (pressed s ∖ {[note]}) s)
  else s.

Inductive Event :=
  | KeyPointerDown (note : string) (rect : Rect) (e : PointerEvent)
  | KeyPointerEnter (note : string) (rect : Rect) (e : PointerEvent)
  | KeyPointerUp (note : string)
  | KeyPointerCancel (note : string)
  | KeyPointerLeave (note : string) (e : PointerEvent)
  | SustainChange (checked : bool)
  | WindowPointerUp
  | WindowTouchEnd
  | WindowTouchCancel
  | VisibilityChange (hidden : bool)
  | Interval (above : nat → bool)
  | BeforeUnload.

Definition handle (ev : Event) (s : Piano) : Piano :=
  match ev with
  | KeyPointerDown note rect e =>
      activateKey note rect (Some e) (set_pressed ({[note]} ∪ pressed s) s)
  | KeyPointerEnter note rect e =>
      if bool_decide (buttons e ≠ 0) then
        activateKey note rect (Some e)
          (set_pressed ({[note]} ∪ pressed s) s)
      else s
  | KeyPointerUp note | KeyPointerCancel note => pointer_end note s
  | KeyPointerLeave note e =>
      if bool_decide (buttons e = 1) then pointer_end note s else s
  | SustainChange checked => sustain_onchange checked s
  | WindowPointerUp | WindowTouchEnd | WindowTouchCancel => release_all s
  | VisibilityChange hidden => if hidden then release_all s else s
  | Interval above => sweep above s
  | BeforeUnload => allNotesOff s
  end.

Definition run (evs : list Event) (s : Piano) : Piano :=
  foldl (λ s ev, handle ev s) s evs.
End Handlers.

End Perfected.

(** ** The rest of [src/piano.js]: controls, keyboard, timers *)

Module PerfectedPage.
Import Audio Page Perfected.

(** A control changed a parameter; [rebuild] is the call of
    [buildPiano()], which makes new key elements and a new, empty
    [pressed] set for them. *)
Definition set_state (p : Params) (rebuild : bool) (s : Piano) : Piano :=
  {| engine := engine s; started := started s; active := active s;
     sustain := sustain s; sustainPool := sustainPool s; state := p;
     page := if rebuild then buildPiano p else page s;
     pressed := if rebuild then ∅ else pressed s |}.

(** What piano.js keeps of [sound]: the voices in the table are live, no
    voice is in the table under two keys, and pending stops refer to
    voices of the store.  A live voice need not be in the table. *)
Definition tidy (a : gmap string nat) (e : Engine) : Prop :=
  (∀ k v, a !! k = Some v → live e v) ∧
  (∀ k1 k2 v, a !! k1 = Some v → a !! k2 = Some v → k1 = k2) ∧
  (∀ v, fading e v = true → (v < length (voices e))%nat).

(** What piano.js keeps in every state of its page. *)
Definition kept (s : Piano) : Prop :=
  tidy (active s) (engine s) ∧ sustainPool s ⊆ dom (active s) ∧
  (sustain s = false → sustainPool s = ∅).

Section Handlers.
Variable Math_pow : float → float → float.

(** The [keydown] listener on [window]; it calls [ctx.resume()] and
    leaves [started] as it is. *)
Definition keydown (e : KeyboardEvent) (s : Piano) : Piano :=
  if bool_decide (targetTag e ∈ ["INPUT"; "SELECT"; "TEXTAREA"]%string)
  then s
  else if repeat e then s
  else
    let k := key e in
    if String.eqb k "Z" then
      set_state (with_baseOct (Z.max 2 (baseOct (state s) - 1)) (state s))
        true s
    else if String.eqb k "X" then
      set_state (with_baseOct (Z.min 6 (baseOct (state s) + 1)) (state s))
        true s
    else
      match KEY_MAP !! k with
      | None => s
      | Some semis =>
          let base := baseOct (state s) + (if shiftKey e then 1 else 0) in
          let midi := (base + 1) * 12 + semis in
          let note := Pitch.midiToNote midi in
          if bool_decide (template note ∈ page s) then
            noteOn (Pitch.key_of (Some midi))
              (Pitch.midiToFreq Math_pow (Some midi)) 0.95 s
          else s
      end.

(** The [keyup] listener on [window]. *)
Definition keyup (e : KeyboardEvent) (s : Piano) : Piano :=
  match KEY_MAP !! key e with
  | None => s
  | Some semis =>
      let base := baseOct (state s) + (if shiftKey e then 1 else 0) in
      let midi := (base + 1) * 12 + semis in
      noteOff (Pitch.key_of (Some midi)) s
  end.

(** A pending timer fires: the stop of a released voice, or the release
    that [orientationchange] queued. *)
Definition fire (i : nat) (s : Piano) : Piano :=
  match timers (engine s) !! i with
  | None => s
  | Some t =>
      let s := set_engine (clearTimer i (engine s)) s in
      match callback t with
      | StopVoice v => set_engine (stopVoiceNow v (engine s)) s
      | Silence => release_all s
      end
  end.

(** Everything that can happen to the page of piano.js: the events of
    [Perfected.Event], and the listeners that [Perfected.handle] leaves
    out. *)
Inductive Input :=
  | Listener (ev : Perfected.Event)
  | KeyDown (e : KeyboardEvent)
  | KeyUp (e : KeyboardEvent)
  | WaveChange (value : string)
  | VolumeInput (value : float)
  | AttackInput (value : float)
  | ReleaseInput (value : float)
  | BaseOctInput (value : Z)
  | OctavesChange (value : Z)
  | VelocityChange (value : string)
  | OrientationChange
  | TimerFires (i : nat)
  | ClockAdvances (t : float).

Definition handle (inp : Input) (s : Piano) : Piano :=
  match inp with
  | Listener ev => Perfected.handle Math_pow ev s
  | KeyDown e => keydown e s
  | KeyUp e => keyup e s
  | WaveChange w => set_state (with_wave w (state s)) false s
  | VolumeInput v =>
      set_engine (set_master v (engine s))
        (set_state (with_volume v (state s)) false s)
  | AttackInput a => set_state (with_attack a (state s)) false s
  | ReleaseInput r => set_state (with_release r (state s)) false s
  | BaseOctInput b => set_state (with_baseOct b (state s)) true s
  | OctavesChange n => set_state (with_octaves n (state s)) true s
  | VelocityChange m => set_state (with_velocityMode m (state s)) false s
  | OrientationChange => set_engine (setTimeout Silence 200 (engine s)) s
  | TimerFires i => fire i s
  | ClockAdvances t => set_engine (set_time t (engine s)) s
  end.

Definition run (inps : list Input) (s : Piano) : Piano :=
  foldl (λ s inp, handle inp s) s inps.
End Handlers.
End PerfectedPage.

(** ** Calls that can throw *)

Module Throwing.
Import Audio Page.

(** How a call ends: it returns, or a [TypeError] is thrown. *)
Inductive Completion (A : Type) :=
  | Completes (a : A)
  | Throws.
#[global] Arguments Completes {A} a.
#[global] Arguments Throws {A}.

(** What [active.get(key)] returned, as a condition: a voice object is
    truthy, [undefined] is not. *)
Definition truthy (v : option nat) : bool :=
  match v with
  | Some _ => true
  | None => false
  end.

(** [v.gain] and [v.osc]: reading a property of [undefined] throws. *)
Definition property_of (v : option nat) : Completion nat :=
  match v with
  | Some x => Completes x
  | None => Throws
  end.

(** [noteOff(key)] of the sustain-safe build, with the reads of [v.gain]
    as calls that can throw. *)
Definition noteOff_call (key : string) (s : SustainSafe.Piano)
  : Completion SustainSafe.Piano :=
  let v := SustainSafe.active s !! key in
  if negb (truthy v) then Completes s
  else if SustainSafe.sustain s then
    Completes
      (SustainSafe.set_sustainPool ({[key]} ∪ SustainSafe.sustainPool s) s)
  else
    match property_of v with
    | Throws => Throws
    | Completes x =>
        Completes
          (SustainSafe.set_active (delete key (SustainSafe.active s))
             (SustainSafe.set_engine
                (fade_out (release (SustainSafe.state s)) x
                   (SustainSafe.engine s)) s))
    end.

(** [noteOff(key)] of [src/piano.js], likewise. *)
Definition perfected_noteOff_call (key : string) (s : Perfected.Piano)
  : Completion Perfected.Piano :=
  let v := Perfected.active s !! key in
  if negb (truthy v) then Completes s
  else if Perfected.sustain s then
    Completes
      (Perfected.set_sustainPool ({[key]} ∪ Perfected.sustainPool s) s)
  else
    match property_of v with
    | Throws => Throws
    | Completes x =>
        Completes
          (Perfected.set_active (delete key (Perfected.active s))
             (Perfected.set_engine
                (fade_out (release (Perfected.state s)) x
                   (Perfected.engine s)) s))
    end.
End Throwing.

(** ** Inputs of the examples *)

Module Examples.
Import Page.

(** A key element 120 px tall, pressed a quarter of the way down. *)
Definition rect : Rect := {| top := 100; height := 120 |}.
Definition press : PointerEvent :=
  {| pressure := Some 0.5%float; clientY := Some 130%float; buttons := 1 |}.

(** Pedal down, then the key C4 is struck twice. *)
Definition struck_twice : list Perfected.Event :=
  [Perfected.SustainChange true;
   Perfected.KeyPointerDown "C4" rect press;
   Perfected.KeyPointerUp "C4";
   Perfected.KeyPointerDown "C4" rect press].

(** Pedal down, a key is pressed, and a failsafe trigger fires. *)
Definition held_under_pedal (trigger : Perfected.Event)
  : list Perfected.Event :=
  [Perfected.SustainChange true;
   Perfected.KeyPointerDown "C4" rect press;
   trigger].

(** Pedal down, C4 struck, released, struck again and kept down; then the
    pedal goes up. *)
Definition repressed_then_pedal_up : list Perfected.Event :=
  struck_twice ++ [Perfected.SustainChange false].

(** The same gestures on the sustain-safe build, without the pedal-up. *)
Definition repressed : list SustainSafe.Event :=
  [SustainSafe.SustainChange true;
   SustainSafe.KeyPointerDown "C4" rect press;
   SustainSafe.KeyPointerUp "C4";
   SustainSafe.KeyPointerDown "C4" rect press;
   SustainSafe.KeyPointerDown "D4" rect press;
   SustainSafe.KeyPointerUp "D4"].

(** The base octave is set to 9, and the key C10 of the rebuilt page is
    pressed. *)
Definition press_C10 : list SustainSafe.Event :=
  [SustainSafe.BaseOctInput 9;
   SustainSafe.KeyPointerDown "C10" rect press].

(** The key J pressed with Shift on the default page, whose top note is
    B5. *)
Definition shift_J : KeyboardEvent :=
  {| targetTag := "BODY"; repeat := false; key := "J"; shiftKey := true |}.
End Examples.

(** ** Inputs of the further examples *)

Module Inputs.
Import Page Examples.

(** C4 struck and let go with the pedal up. *)
Definition struck_and_lifted : list SustainSafe.Event :=
  [SustainSafe.KeyPointerDown "C4" rect press;
   SustainSafe.KeyPointerUp "C4"].

(** The keys A and Z of the computer keyboard, pressed on the page. *)
Definition key_A : KeyboardEvent :=
  {| targetTag := "BODY"; repeat := false; key := "A"; shiftKey := false |}.
Definition key_Z : KeyboardEvent :=
  {| targetTag := "BODY"; repeat := false; key := "Z"; shiftKey := false |}.

(** C4 and E4 under the pointer in piano.js, pedal up. *)
Definition chord : list Perfected.Event :=
  [Perfected.KeyPointerDown "C4" rect press;
   Perfected.KeyPointerDown "E4" rect press].
End Inputs.

(** * Theorems *)

(* [set_solver] clears hypotheses that are already gone. *)
Set Warnings "-clear-no-such-hyp".
(** ** The audio graph *)

Section EngineFacts.
Import Audio.
Implicit Types (e : Engine) (v u : nat).

Lemma sounding_lt e v : sounding e v = true → (v < length (voices e))%nat.
Proof.
  unfold sounding. destruct (voices e !! v) eqn:Hv; [|done].
  intros _. by eapply lookup_lt_Some.
Qed.

Lemma sounding_stopVoiceNow e v u :
  sounding (stopVoiceNow v e) u =
  if decide (u = v) then false else sounding e u.
Proof.
  unfold sounding, stopVoiceNow. simpl. case_decide as Huv.
  - subst u. rewrite list_lookup_alter_eq.
    destruct (voices e !! v) as [x|]; simpl; [|done].
    by rewrite andb_false_r.
  - by rewrite list_lookup_alter_ne.
Qed.

Lemma fading_stopVoiceNow e v u :
  fading (stopVoiceNow v e) u = fading e u.
Proof. done. Qed.

Lemma length_stopVoiceNow e v :
  length (voices (stopVoiceNow v e)) = length (voices e).
Proof. unfold stopVoiceNow. simpl. by rewrite length_alter. Qed.

Lemma timers_stopVoiceNow e v : timers (stopVoiceNow v e) = timers e.
Proof. done. Qed.

Lemma start_voice_handle wave vol att freq vel e :
  (start_voice wave vol att freq vel e).1 = length (voices e).
Proof. done. Qed.

Lemma sounding_start_voice wave vol att freq vel e u :
  sounding (start_voice wave vol att freq vel e).2 u =
  if decide (u = length (voices e)) then true else sounding e u.
Proof.
  unfold sounding, start_voice. simpl. case_decide as Hu.
  - subst u. by rewrite list_lookup_middle.
  - destruct (decide (u < length (voices e))%nat).
    + by rewrite lookup_app_l.
    + rewrite !lookup_ge_None_2; [done|lia|].
      rewrite length_app. simpl. lia.
Qed.

Lemma fading_start_voice wave vol att freq vel e u :
  fading (start_voice wave vol att freq vel e).2 u = fading e u.
Proof. done. Qed.

Lemma length_start_voice wave vol att freq vel e :
  length (voices (start_voice wave vol att freq vel e).2)
  = S (length (voices e)).
Proof. unfold start_voice. simpl. rewrite length_app. simpl. lia. Qed.

Lemma timers_start_voice wave vol att freq vel e :
  timers (start_voice wave vol att freq vel e).2 = timers e.
Proof. done. Qed.

Lemma sounding_fade_out rel v e u :
  sounding (fade_out rel v e) u = sounding e u.
Proof.
  unfold sounding, fade_out. simpl.
  destruct (decide (u = v)) as [->|Hne].
  - rewrite list_lookup_alter_eq. by destruct (voices e !! v).
  - by rewrite list_lookup_alter_ne.
Qed.

Lemma fading_iff e v :
  fading e v = true ↔ StopVoice v ∈ callback <$> timers e.
Proof. unfold fading. by rewrite bool_decide_eq_true. Qed.

Lemma fading_fade_out rel v e u :
  fading (fade_out rel v e) u = fading e u || bool_decide (u = v).
Proof.
  apply eq_true_iff_eq.
  rewrite orb_true_iff, bool_decide_eq_true, !fading_iff.
  unfold fade_out. simpl. rewrite fmap_app, elem_of_app. simpl.
  rewrite list_elem_of_singleton. split.
  - intros [Hin|Heq]; [auto|]. injection Heq as ->. auto.
  - intros [Hin| ->]; auto.
Qed.

Lemma fading_fade_out_false rel v e u :
  fading (fade_out rel v e) u = false ↔ fading e u = false ∧ u ≠ v.
Proof.
  by rewrite fading_fade_out, orb_false_iff, bool_decide_eq_false.
Qed.

Lemma fading_fade_out_true rel v e u :
  fading (fade_out rel v e) u = true ↔ fading e u = true ∨ u = v.
Proof.
  by rewrite fading_fade_out, orb_true_iff, bool_decide_eq_true.
Qed.

Lemma length_fade_out rel v e :
  length (voices (fade_out rel v e)) = length (voices e).
Proof. unfold fade_out. simpl. by rewrite length_alter. Qed.

Lemma fading_clearTimer e i u :
  fading (clearTimer i e) u = true → fading e u = true.
Proof.
  rewrite !fading_iff. unfold clearTimer. simpl.
  rewrite !list_elem_of_fmap. intros (t & -> & Ht).
  exists t. split; [done|]. by eapply list_elem_of_delete_inv.
Qed.

Lemma elem_of_delete_other {A} (l : list A) (i : nat) (x y : A) :
  l !! i = Some y → x ∈ l → x ≠ y → x ∈ delete i l.
Proof.
  intros Hi Hx Hne. rewrite delete_take_drop.
  rewrite <- (take_drop_middle l i y Hi) in Hx.
  rewrite elem_of_app, elem_of_cons in Hx. rewrite elem_of_app.
  destruct Hx as [Hx|[Hx|Hx]]; auto. congruence.
Qed.

Lemma fading_clearTimer_other e i t u :
  timers e !! i = Some t → callback t ≠ StopVoice u →
  fading (clearTimer i e) u = fading e u.
Proof.
  intros Hi Hcb. apply eq_true_iff_eq. split; [apply fading_clearTimer|].
  rewrite !fading_iff. unfold clearTimer. simpl.
  rewrite !list_elem_of_fmap. intros (t' & Heq & Ht').
  exists t'. split; [done|]. eapply elem_of_delete_other; [done..|].
  intros ->. congruence.
Qed.

Lemma fading_timer e i t v :
  timers e !! i = Some t → callback t = StopVoice v → fading e v = true.
Proof.
  intros Hi Hcb. rewrite fading_iff, list_elem_of_fmap.
  exists t. split; [done|]. by eapply list_elem_of_lookup_2.
Qed.
End EngineFacts.

(** ** The sustain-safe build: what each operation does to the state *)

Section SustainSafeOps.
Import Audio Page SustainSafe.
Implicit Types (s : Piano) (k key : string) (v u : nat).

Lemma noteOn_active k f vel s :
  active (noteOn k f vel s) = <[k := length (voices (engine s))]> (active s).
Proof.
  unfold noteOn. destruct (active s !! k); simpl; [|done].
  by rewrite length_alter.
Qed.

Lemma noteOn_engine k f vel s :
  engine (noteOn k f vel s) =
  (start_voice (wave (state s)) (volume (state s)) (attack (state s)) f vel
     (match active s !! k with
      | Some prev => stopVoiceNow prev (engine s)
      | None => engine s
      end)).2.
Proof. unfold noteOn. by destruct (active s !! k). Qed.

Lemma noteOn_sets k f vel s :
  heldKeys (noteOn k f vel s) = heldKeys s ∧
  sustainPool (noteOn k f vel s) = sustainPool s ∧
  sustain (noteOn k f vel s) = sustain s ∧
  state (noteOn k f vel s) = state s ∧
  page (noteOn k f vel s) = page s ∧
  started (noteOn k f vel s) = started s.
Proof. unfold noteOn. by destruct (active s !! k). Qed.

Lemma noteOff_absent k s : active s !! k = None → noteOff k s = s.
Proof. intros Hk. unfold noteOff. by rewrite Hk. Qed.

Lemma noteOff_sustained k v s :
  active s !! k = Some v → sustain s = true →
  noteOff k s = set_sustainPool ({[k]} ∪ sustainPool s) s.
Proof. intros Hk Hs. unfold noteOff. by rewrite Hk, Hs. Qed.

Lemma noteOff_released k v s :
  active s !! k = Some v → sustain s = false →
  noteOff k s =
  set_active (delete k (active s))
    (set_engine (fade_out (release (state s)) v (engine s)) s).
Proof. intros Hk Hs. unfold noteOff. by rewrite Hk, Hs. Qed.

Lemma forceOff_absent k s : active s !! k = None → forceOff k s = s.
Proof. intros Hk. unfold forceOff. by rewrite Hk. Qed.

Lemma forceOff_present k v s :
  active s !! k = Some v →
  forceOff k s =
  set_heldKeys (heldKeys s ∖ {[k]})
    (set_sustainPool (sustainPool s ∖ {[k]})
       (set_active (delete k (active s))
          (set_engine (fade_out (release (state s)) v (engine s)) s))).
Proof. intros Hk. unfold forceOff. by rewrite Hk. Qed.

Lemma forceOff_active k s : active (forceOff k s) = delete k (active s).
Proof.
  destruct (active s !! k) as [v|] eqn:Hk.
  - by rewrite (forceOff_present k v).
  - rewrite forceOff_absent by done. by rewrite delete_id.
Qed.

Lemma forceOff_heldKeys k s :
  heldKeys (forceOff k s) = heldKeys s ∖ ({[k]} ∩ dom (active s)).
Proof.
  destruct (active s !! k) as [v|] eqn:Hk.
  - rewrite (forceOff_present k v) by done. simpl.
    assert (k ∈ dom (active s)) by (apply elem_of_dom; eauto). set_solver.
  - rewrite forceOff_absent by done.
    assert (k ∉ dom (active s)) by by apply not_elem_of_dom. set_solver.
Qed.

Lemma forceOff_sustainPool k s :
  sustainPool (forceOff k s) = sustainPool s ∖ ({[k]} ∩ dom (active s)).
Proof.
  destruct (active s !! k) as [v|] eqn:Hk.
  - rewrite (forceOff_present k v) by done. simpl.
    assert (k ∈ dom (active s)) by (apply elem_of_dom; eauto). set_solver.
  - rewrite forceOff_absent by done.
    assert (k ∉ dom (active s)) by by apply not_elem_of_dom. set_solver.
Qed.

Lemma forceOff_frame k s :
  sustain (forceOff k s) = sustain s ∧ state (forceOff k s) = state s ∧
  page (forceOff k s) = page s ∧ started (forceOff k s) = started s.
Proof. unfold forceOff. by destruct (active s !! k). Qed.

(** The keys of the snapshot are the keys of the table. *)
Lemma elem_of_keys_snapshot k s :
  k ∈ keys_snapshot s ↔ k ∈ dom (active s).
Proof.
  unfold keys_snapshot. rewrite list_elem_of_fmap, elem_of_dom. split.
  - intros ([k' v] & -> & Hkv). apply elem_of_map_to_list in Hkv. eauto.
  - intros [v Hv]. exists (k, v). split; [done|].
    by apply elem_of_map_to_list.
Qed.

(** *** The forced sweep *)

Lemma force_each_active l s :
  dom (active (force_each l s)) = dom (active s) ∖ list_to_set l.
Proof.
  unfold force_each. revert s. induction l as [|a l IH]; intros s; simpl.
  - set_solver.
  - rewrite IH, forceOff_active, dom_delete_L.
    set_solver.
Qed.

Lemma force_each_lookup l s k :
  active (force_each l s) !! k =
  if decide (k ∈ l) then None else active s !! k.
Proof.
  unfold force_each. revert s.
  induction l as [|a l IH]; intros s; cbn [foldl].
  - by rewrite decide_False by apply not_elem_of_nil.
  - rewrite IH, forceOff_active.
    destruct (decide (k = a)) as [->|Hne].
    + rewrite lookup_delete_eq, (decide_True (P := a ∈ a :: l)) by left.
      by case_decide.
    + rewrite lookup_delete_ne by done.
      destruct (decide (k ∈ l)).
      * by rewrite decide_True by by right.
      * rewrite decide_False; [done|]. rewrite elem_of_cons. tauto.
Qed.

Lemma force_each_heldKeys l s :
  heldKeys (force_each l s) = heldKeys s ∖ (list_to_set l ∩ dom (active s)).
Proof.
  unfold force_each. revert s. induction l as [|a l IH]; intros s; simpl.
  - set_solver.
  - rewrite IH, forceOff_heldKeys, forceOff_active, dom_delete_L.
    set_solver.
Qed.

Lemma force_each_frame l s :
  sustain (force_each l s) = sustain s ∧ state (force_each l s) = state s ∧
  page (force_each l s) = page s ∧ started (force_each l s) = started s.
Proof.
  unfold force_each. revert s. induction l as [|a l IH]; intros s; simpl; [done|].
  destruct (IH (forceOff a s)) as (-> & -> & -> & ->).
  apply forceOff_frame.
Qed.

Lemma forceAllOff_active s : active (forceAllOff s) = ∅.
Proof.
  apply dom_empty_inv_L. unfold forceAllOff. simpl.
  rewrite force_each_active.
  apply set_eq. intros k.
  rewrite elem_of_difference, elem_of_list_to_set, elem_of_keys_snapshot.
  set_solver.
Qed.

Lemma forceAllOff_sustainPool s : sustainPool (forceAllOff s) = ∅.
Proof. done. Qed.

Lemma forceAllOff_heldKeys s :
  heldKeys (forceAllOff s) = heldKeys s ∖ dom (active s).
Proof.
  unfold forceAllOff. simpl. rewrite force_each_heldKeys.
  apply set_eq. intros k.
  rewrite !elem_of_difference, elem_of_intersection, elem_of_list_to_set,
    elem_of_keys_snapshot.
  tauto.
Qed.

Lemma forceAllOff_frame s :
  sustain (forceAllOff s) = sustain s ∧ state (forceAllOff s) = state s ∧
  page (forceAllOff s) = page s ∧ started (forceAllOff s) = started s.
Proof. unfold forceAllOff. simpl. apply force_each_frame. Qed.

(** *** The pedal-up sweep *)

Lemma force_unheld_cons a l s :
  force_unheld (a :: l) s =
  force_unheld l (if decide (a ∈ heldKeys s) then s else forceOff a s).
Proof. done. Qed.

Lemma forceOff_heldKeys_unheld a s :
  a ∉ heldKeys s → heldKeys (forceOff a s) = heldKeys s.
Proof. intros Ha. rewrite forceOff_heldKeys. set_solver. Qed.

(** The sweep forces off the keys of the snapshot that are not held when
    it starts: releasing one of them does not change who is held. *)
Lemma force_unheld_filter l s :
  force_unheld l s = force_each (filter (λ k, k ∉ heldKeys s) l) s.
Proof.
  revert s. induction l as [|a l IH]; intros s; [done|].
  rewrite force_unheld_cons, IH. case_decide as Ha.
  - by rewrite filter_cons_False by tauto.
  - rewrite filter_cons_True by done.
    by rewrite forceOff_heldKeys_unheld by done.
Qed.

Lemma force_unheld_heldKeys l s :
  heldKeys (force_unheld l s) = heldKeys s.
Proof.
  rewrite force_unheld_filter, force_each_heldKeys.
  apply set_eq. intros k.
  rewrite elem_of_difference, elem_of_intersection, elem_of_list_to_set,
    list_elem_of_filter.
  tauto.
Qed.

Lemma force_unheld_lookup l s k :
  active (force_unheld l s) !! k =
  if decide (k ∈ l ∧ k ∉ heldKeys s) then None else active s !! k.
Proof.
  rewrite force_unheld_filter, force_each_lookup.
  destruct (decide (k ∈ l ∧ k ∉ heldKeys s)) as [Hk|Hk].
  - rewrite decide_True; [done|]. rewrite list_elem_of_filter. tauto.
  - rewrite decide_False; [done|]. rewrite list_elem_of_filter. tauto.
Qed.

Lemma force_unheld_frame l s :
  sustain (force_unheld l s) = sustain s ∧
  state (force_unheld l s) = state s ∧
  page (force_unheld l s) = page s ∧ started (force_unheld l s) = started s.
Proof. rewrite force_unheld_filter. apply force_each_frame. Qed.
End SustainSafeOps.

(** ** The order in which a loop visits the keys *)

Section Order.
Import Audio Page SustainSafe.
Implicit Types (s : Piano) (k key : string) (v u : nat).

#[local] Instance alike_equivalence : Equivalence alike.
Proof.
  split.
  - intros s. by repeat split.
  - intros s s' ((?&?&?&?)&?&?&?&?&?&?&?). by repeat split.
  - intros s1 s2 s3 ((?&?&?&?)&?&?&?&?&?&?&?) ((?&?&?&?)&?&?&?&?&?&?&?).
    repeat split; try congruence. by etrans.
Qed.

Lemma fade_out_alike rel v e e' :
  engine_alike e e' → engine_alike (fade_out rel v e) (fade_out rel v e').
Proof.
  intros (Ht & Hg & Hv & Hp). unfold fade_out, engine_alike. simpl.
  rewrite Ht, Hg, Hv. split; [done|]. split; [done|]. split; [done|].
  by apply Permutation_app_tail.
Qed.

Lemma forceOff_alike k s s' : alike s s' → alike (forceOff k s) (forceOff k s').
Proof.
  intros Halike.
  pose proof Halike as (He & Hst & Ha & Hh & Hs & Hp & Hstate & Hpage).
  unfold forceOff. rewrite <- Ha.
  destruct (active s !! k) as [v|]; [|exact Halike].
  unfold alike. simpl. rewrite <- Hstate, Hst, Ha, Hh, Hs, Hp, Hpage.
  split; [by apply fade_out_alike|]. done.
Qed.

Lemma alter_alter_swap {A} (f : A → A) (l : list A) (i j : nat) :
  alter f i (alter f j l) = alter f j (alter f i l).
Proof.
  destruct (decide (i = j)) as [->|Hne]; [done|].
  apply list_eq. intros n.
  destruct (decide (n = i)) as [Hi|Hi]; [subst n|].
  - rewrite list_lookup_alter_eq, !list_lookup_alter_ne by done.
    by rewrite list_lookup_alter_eq.
  - rewrite (list_lookup_alter_ne f _ i n) by done.
    destruct (decide (n = j)) as [Hj|Hj]; [subst n|].
    + rewrite !list_lookup_alter_eq. by rewrite list_lookup_alter_ne.
    + by rewrite !list_lookup_alter_ne.
Qed.

Lemma fade_out_swap rel u v e :
  engine_alike (fade_out rel u (fade_out rel v e))
               (fade_out rel v (fade_out rel u e)).
Proof.
  unfold fade_out, engine_alike. simpl. repeat split.
  - apply alter_alter_swap.
  - rewrite <- !(assoc_L (++)). apply Permutation_app_head. simpl.
    apply perm_swap.
Qed.

Lemma forceOff_swap a b s :
  alike (forceOff a (forceOff b s)) (forceOff b (forceOff a s)).
Proof.
  destruct (decide (a = b)) as [->|Hne]; [done|].
  destruct (active s !! a) as [va|] eqn:Ha;
    destruct (active s !! b) as [vb|] eqn:Hb.
  - rewrite (forceOff_present b vb s) by done.
    rewrite (forceOff_present a va s) by done.
    rewrite (forceOff_present a va), (forceOff_present b vb)
      by (simpl; by rewrite lookup_delete_ne).
    unfold alike. simpl. split; [apply fade_out_swap|].
    split; [done|]. split; [apply delete_delete|].
    split; [set_solver|]. split; [done|]. split; [set_solver|]. done.
  - rewrite (forceOff_absent b s) by done.
    rewrite (forceOff_absent b); [done|].
    rewrite forceOff_active. by rewrite lookup_delete_ne.
  - rewrite (forceOff_absent a s) by done.
    rewrite (forceOff_absent a); [done|].
    rewrite forceOff_active. by rewrite lookup_delete_ne.
  - by rewrite !forceOff_absent by (by rewrite ?forceOff_absent).
Qed.

Lemma force_each_alike l s s' :
  alike s s' → alike (force_each l s) (force_each l s').
Proof.
  unfold force_each. revert s s'.
  induction l as [|a l IH]; intros s s' Hs; [done|].
  cbn [foldl]. by apply IH, forceOff_alike.
Qed.

(** The forced sweep does not depend on the order of its keys. *)
Lemma force_each_Permutation l l' s :
  l ≡ₚ l' → alike (force_each l s) (force_each l' s).
Proof.
  intros Hl. revert s.
  induction Hl as [|x l l' _ IH|x y l|l1 l2 l3 _ IH1 _ IH2]; intros s.
  - done.
  - apply (IH (forceOff x s)).
  - apply (force_each_alike l), forceOff_swap.
  - etrans; [apply IH1|apply IH2].
Qed.

(** X4.  Whatever order [Array.from(active.keys())] lists the keys in,
    [forceAllOff] and the pedal-up sweep end in the same state, up to the
    order of the pending timers. *)
Lemma forceAllOff_any_order l s :
  NoDup l → (∀ k, k ∈ l ↔ k ∈ dom (active s)) →
  alike (set_sustainPool ∅ (force_each l s)) (forceAllOff s) ∧
  alike (set_sustainPool ∅ (force_unheld l s))
        (set_sustainPool ∅ (force_unheld (keys_snapshot s) s)).
Proof.
  intros Hnd Hl.
  assert (l ≡ₚ keys_snapshot s) as Hperm.
  { apply NoDup_Permutation; [done|apply NoDup_fst_map_to_list|].
    intros k. by rewrite Hl, elem_of_keys_snapshot. }
  assert (∀ s1 s2, alike s1 s2 →
            alike (set_sustainPool ∅ s1) (set_sustainPool ∅ s2)) as Hclear.
  { intros s1 s2 (?&?&?&?&?&?&?&?). by split. }
  split; apply Hclear.
  - by apply force_each_Permutation.
  - rewrite !force_unheld_filter. apply force_each_Permutation.
    by rewrite Hperm.
Qed.
End Order.

(** ** Tables that agree with the audio graph *)

Section Sound.
Import Audio.
Implicit Types (a : gmap string nat) (e : Engine) (k : string) (v u : nat).

Lemma sound_fresh a e : sound a e → fading e (length (voices e)) = false.
Proof.
  intros (_ & _ & _ & Hlt).
  destruct (fading e (length (voices e))) eqn:Hf; [|done].
  apply Hlt in Hf. lia.
Qed.

Lemma sound_lookup_lt a e k v :
  sound a e → a !! k = Some v → (v < length (voices e))%nat.
Proof. intros (Hlive & _) Hk. by apply sounding_lt, (Hlive k). Qed.

(** [noteOn]: stop the voice in the slot, start a new one, store it. *)
Lemma sound_insert a e k wave vol att f vel :
  sound a e →
  sound (<[k := length (voices e)]> a)
    (start_voice wave vol att f vel
       (match a !! k with
        | Some prev => stopVoiceNow prev e
        | None => e
        end)).2.
Proof.
  intros Hs. pose proof Hs as (Hlive & Hinj & Htab & Hlt).
  set (e1 := match a !! k with
             | Some prev => stopVoiceNow prev e
             | None => e
             end).
  assert (length (voices e1) = length (voices e)) as Hlen.
  { unfold e1. destruct (a !! k); [apply length_stopVoiceNow|done]. }
  assert (∀ u, fading e1 u = fading e u) as Hfad.
  { intros u. unfold e1. by destruct (a !! k). }
  assert (∀ u, sounding e1 u = true →
               sounding e u = true ∧ a !! k ≠ Some u) as Hsnd1.
  { intros u. unfold e1. destruct (a !! k) as [prev|] eqn:Hk.
    - rewrite sounding_stopVoiceNow. case_decide; [done|].
      intros Hu. split; [done|]. congruence.
    - done. }
  assert (∀ u, sounding e u = true → a !! k ≠ Some u →
               sounding e1 u = true) as Hsnd2.
  { intros u Hu Hne. unfold e1. destruct (a !! k) as [prev|] eqn:Hk; [|done].
    rewrite sounding_stopVoiceNow. case_decide; [|done]. congruence. }
  unfold sound, live.
  setoid_rewrite sounding_start_voice. setoid_rewrite fading_start_voice.
  rewrite length_start_voice, Hlen. setoid_rewrite Hfad.
  split; [|split; [|split]].
  - intros k' v [[-> <-]|[Hne Hk']]%lookup_insert_Some.
    + rewrite decide_True by done. eauto using sound_fresh.
    + destruct (Hlive _ _ Hk') as [Hv Hf]. split; [|done].
      case_decide; [done|]. apply Hsnd2; [done|].
      intros Hk. by apply Hne, (Hinj _ _ v).
  - intros k1 k2 v H1 H2.
    apply lookup_insert_Some in H1 as [[-> <-]|[Hne1 H1]];
      apply lookup_insert_Some in H2 as [[-> Heq]|[Hne2 H2]]; try done.
    + apply (sound_lookup_lt _ _ _ _ Hs) in H2. lia.
    + apply (sound_lookup_lt _ _ _ _ Hs) in H1. lia.
    + by apply (Hinj _ _ v).
  - intros u [Hu Hf]. case_decide as Hn.
    + exists k. subst u. apply lookup_insert_eq.
    + apply Hsnd1 in Hu as [Hu Hne].
      destruct (Htab u) as [k' Hk']; [done|]. exists k'.
      rewrite lookup_insert_ne; [done|]. intros ->. congruence.
  - intros v Hv. apply Hlt in Hv. lia.
Qed.

(** [noteOff] and [forceOff]: fade the voice out, drop it from the table. *)
Lemma sound_delete a e k v rel :
  sound a e → a !! k = Some v →
  sound (delete k a) (fade_out rel v e).
Proof.
  intros Hs Hk. pose proof Hs as (Hlive & Hinj & Htab & Hlt).
  unfold sound, live.
  setoid_rewrite sounding_fade_out.
  setoid_rewrite fading_fade_out_false.
  setoid_rewrite fading_fade_out_true. rewrite length_fade_out.
  split; [|split; [|split]].
  - intros k' u [Hne Hk']%lookup_delete_Some.
    destruct (Hlive _ _ Hk') as [Hu Hf]. split; [done|split; [done|]].
    intros ->. by apply Hne, (Hinj _ _ v).
  - intros k1 k2 u [_ H1]%lookup_delete_Some [_ H2]%lookup_delete_Some.
    by apply (Hinj _ _ u).
  - intros u (Hu & Hf & Hne). destruct (Htab u) as [k' Hk']; [done|].
    exists k'. apply lookup_delete_Some. split; [|done].
    intros ->. congruence.
  - intros u [Hf| ->]; [by apply Hlt|]. by eapply sound_lookup_lt.
Qed.

(** A pending stop fires. *)
Lemma sound_stop a e i t v :
  sound a e → timers e !! i = Some t → callback t = StopVoice v →
  sound a (stopVoiceNow v (clearTimer i e)).
Proof.
  intros Hs Hi Hcb. pose proof Hs as (Hlive & Hinj & Htab & Hlt).
  pose proof (fading_timer _ _ _ _ Hi Hcb) as Hv.
  unfold sound, live.
  setoid_rewrite sounding_stopVoiceNow.
  setoid_rewrite fading_stopVoiceNow.
  rewrite length_stopVoiceNow.
  split; [|split; [|split]].
  - intros k u Hk. destruct (Hlive _ _ Hk) as [Hu Hf].
    rewrite decide_False by congruence. split; [done|].
    destruct (fading (clearTimer i e) u) eqn:Hc; [|done].
    apply fading_clearTimer in Hc. congruence.
  - done.
  - intros u [Hu Hf]. case_decide as Hne; [done|]. apply Htab.
    split; [done|]. rewrite <- Hf. symmetry.
    eapply fading_clearTimer_other; [done|]. congruence.
  - intros u Hu%fading_clearTimer. by apply Hlt.
Qed.

(** A pending call that stops no voice leaves the queue. *)
Lemma sound_clear a e i t :
  sound a e → timers e !! i = Some t → callback t = Silence →
  sound a (clearTimer i e).
Proof.
  intros Hs Hi Hcb.
  assert (∀ u, fading (clearTimer i e) u = fading e u) as Hf.
  { intros u. eapply fading_clearTimer_other; [done|]. congruence. }
  unfold sound, live in *. setoid_rewrite Hf. exact Hs.
Qed.

Lemma fading_setTimeout_Silence e ms u :
  fading (setTimeout Silence ms e) u = fading e u.
Proof.
  apply eq_true_iff_eq. rewrite !fading_iff. unfold setTimeout. simpl.
  rewrite fmap_app, elem_of_app. simpl. rewrite list_elem_of_singleton.
  split; [|auto]. intros [Hin|Heq]; [done|discriminate].
Qed.

Lemma sound_setTimeout_Silence a e ms :
  sound a e → sound a (setTimeout Silence ms e).
Proof.
  intros Hs. unfold sound, live in *.
  setoid_rewrite fading_setTimeout_Silence. exact Hs.
Qed.

Lemma sound_empty t g : sound ∅ {| currentTime := t; master_gain := g;
                                   voices := []; timers := [] |}.
Proof.
  split; [|split; [|split]].
  - intros k v Hk. by rewrite lookup_empty in Hk.
  - intros k1 k2 v Hk. by rewrite lookup_empty in Hk.
  - intros v [Hv _]. apply sounding_lt in Hv. simpl in Hv. lia.
  - intros v Hv. apply fading_iff in Hv. simpl in Hv.
    by apply elem_of_nil in Hv.
Qed.
End Sound.

(** ** The sustain-safe build: what holds in every state of the page *)

Section SustainSafeInvariant.
Import Audio Page SustainSafe.
Variable Math_pow : float → float → float.
Implicit Types (s : Piano) (k key : string) (v u : nat).

Definition invariant s : Prop := consistent s ∧ table_sound s.

(** *** Table and audio graph *)

Lemma table_sound_frame s s' :
  active s' = active s → engine s' = engine s →
  table_sound s → table_sound s'.
Proof. unfold table_sound. by intros -> ->. Qed.

Lemma table_sound_noteOn k f vel s :
  table_sound s → table_sound (noteOn k f vel s).
Proof.
  unfold table_sound. rewrite noteOn_active, noteOn_engine.
  apply sound_insert.
Qed.

Lemma table_sound_noteOff k s : table_sound s → table_sound (noteOff k s).
Proof.
  intros Hs. destruct (active s !! k) as [v|] eqn:Hk.
  - destruct (sustain s) eqn:Hsus.
    + by rewrite (noteOff_sustained k v).
    + rewrite (noteOff_released k v) by done. by apply sound_delete.
  - by rewrite noteOff_absent.
Qed.

Lemma table_sound_forceOff k s : table_sound s → table_sound (forceOff k s).
Proof.
  intros Hs. destruct (active s !! k) as [v|] eqn:Hk.
  - rewrite (forceOff_present k v) by done. by apply sound_delete.
  - by rewrite forceOff_absent.
Qed.

Lemma table_sound_force_each l s :
  table_sound s → table_sound (force_each l s).
Proof.
  unfold force_each. revert s.
  induction l as [|a l IH]; intros s Hs; [done|].
  cbn [foldl]. by apply IH, table_sound_forceOff.
Qed.

Lemma table_sound_forceAllOff s :
  table_sound s → table_sound (forceAllOff s).
Proof. intros Hs. by apply (table_sound_force_each (keys_snapshot s)). Qed.

Lemma table_sound_sustain_onchange checked s :
  table_sound s → table_sound (sustain_onchange checked s).
Proof.
  intros Hs. unfold sustain_onchange.
  destruct (sustain s && negb checked); [|done].
  apply (table_sound_frame (force_unheld (keys_snapshot (set_sustain checked s))
                              (set_sustain checked s))); [done..|].
  rewrite force_unheld_filter. by apply table_sound_force_each.
Qed.

Lemma table_sound_fire i s : table_sound s → table_sound (fire i s).
Proof.
  intros Hs. unfold fire.
  destruct (timers (engine s) !! i) as [t|] eqn:Hi; [|done].
  destruct (callback t) as [v|] eqn:Hcb.
  - by eapply sound_stop.
  - apply table_sound_forceAllOff. by eapply sound_clear.
Qed.

Lemma table_sound_activate note rect e s :
  table_sound s → table_sound (activate Math_pow note rect e s).
Proof.
  intros Hs. unfold activate. apply table_sound_noteOn.
  by destruct (started s).
Qed.

Lemma table_sound_deactivate note s :
  table_sound s → table_sound (deactivate note s).
Proof. intros Hs. unfold deactivate. by apply table_sound_noteOff. Qed.

Lemma table_sound_keydown e s :
  table_sound s → table_sound (keydown Math_pow e s).
Proof.
  intros Hs. unfold keydown.
  case_bool_decide; [done|]. destruct (repeat e); [done|].
  destruct (String.eqb (key e) "Z"); [exact Hs|].
  destruct (String.eqb (key e) "X"); [exact Hs|].
  destruct (KEY_MAP !! key e) as [semis|]; [|done].
  case_bool_decide; [|done].
  apply table_sound_noteOn. by destruct (started s).
Qed.

Lemma table_sound_keyup e s : table_sound s → table_sound (keyup e s).
Proof.
  intros Hs. unfold keyup. case_match; [|done].
  by apply table_sound_noteOff.
Qed.

Lemma table_sound_handle ev s :
  table_sound s → table_sound (handle Math_pow ev s).
Proof.
  intros Hs.
  destruct ev; simpl; repeat case_bool_decide;
    eauto using table_sound_activate, table_sound_deactivate,
      table_sound_keydown, table_sound_keyup, table_sound_sustain_onchange,
      table_sound_forceAllOff, table_sound_fire.
  - by apply sound_setTimeout_Silence.
  - destruct hidden; eauto using table_sound_forceAllOff.
Qed.

(** *** Table, held set and pool *)

Lemma press_sets (D H P : gset string) (k : string) :
  P ⊆ D → D ∖ H ⊆ P → H ⊆ D →
  P ⊆ {[k]} ∪ D ∧ ({[k]} ∪ D) ∖ ({[k]} ∪ H) ⊆ P ∧ {[k]} ∪ H ⊆ {[k]} ∪ D.
Proof. intros HP HD HH. split; [|split]; set_solver. Qed.

Lemma lift_sets_absent (D H P : gset string) (k : string) :
  k ∉ D → P ⊆ D → D ∖ H ⊆ P → H ⊆ D →
  D ∖ (H ∖ {[k]}) ⊆ P ∧ H ∖ {[k]} ⊆ D.
Proof.
  intros Hk HP HD HH. split; [|set_solver].
  intros x [Hx Hn]%elem_of_difference. apply HD, elem_of_difference.
  split; [done|]. intros Hin. apply Hn, elem_of_difference.
  split; [done|]. rewrite elem_of_singleton. by intros ->.
Qed.

Lemma lift_sets_sustained (D H P : gset string) (k : string) :
  k ∈ D → P ⊆ D → D ∖ H ⊆ P → H ⊆ D →
  {[k]} ∪ P ⊆ D ∧ D ∖ (H ∖ {[k]}) ⊆ {[k]} ∪ P ∧ H ∖ {[k]} ⊆ D.
Proof.
  intros Hk HP HD HH. split; [set_solver|split; [|set_solver]].
  intros x [Hx Hn]%elem_of_difference.
  destruct (decide (x = k)) as [->|Hne]; [set_solver|].
  apply elem_of_union_r, HD, elem_of_difference.
  split; [done|]. intros Hin. apply Hn, elem_of_difference.
  split; [done|]. by rewrite elem_of_singleton.
Qed.

Lemma lift_sets_released (D H : gset string) (k : string) :
  D ∖ H ⊆ ∅ → H ⊆ D →
  D ∖ {[k]} ∖ (H ∖ {[k]}) ⊆ ∅ ∧ H ∖ {[k]} ⊆ D ∖ {[k]}.
Proof.
  intros HD HH. split; [|set_solver].
  intros x [[Hx Hk]%elem_of_difference Hn]%elem_of_difference.
  apply HD, elem_of_difference. split; [done|]. intros Hin.
  apply Hn, elem_of_difference. done.
Qed.

Lemma consistent_press key f vel s :
  consistent s →
  consistent (noteOn key f vel (set_heldKeys ({[key]} ∪ heldKeys s) s)).
Proof.
  intros (Hpool & Hfree & Hheld & Hup). unfold consistent.
  rewrite noteOn_active, dom_insert_L.
  destruct (noteOn_sets key f vel (set_heldKeys ({[key]} ∪ heldKeys s) s))
    as (-> & -> & -> & _).
  simpl. destruct (press_sets _ _ _ key Hpool Hfree Hheld) as (? & ? & ?).
  done.
Qed.

Lemma consistent_lift key s :
  consistent s →
  consistent (noteOff key (set_heldKeys (heldKeys s ∖ {[key]}) s)).
Proof.
  intros (Hpool & Hfree & Hheld & Hup).
  destruct (active s !! key) as [v|] eqn:Hk.
  - assert (key ∈ dom (active s)) as Hin by (apply elem_of_dom; eauto).
    destruct (sustain s) eqn:Hsus.
    + rewrite (noteOff_sustained key v) by done. unfold consistent. simpl.
      destruct (lift_sets_sustained _ _ _ key Hin Hpool Hfree Hheld)
        as (? & ? & ?).
      by rewrite Hsus.
    + rewrite (noteOff_released key v) by done. unfold consistent. simpl.
      rewrite dom_delete_L. specialize (Hup eq_refl).
      rewrite Hup in Hfree |- *.
      destruct (lift_sets_released _ _ key Hfree Hheld) as (? & ?).
      split; [|done]. apply empty_subseteq.
  - assert (key ∉ dom (active s)) as Hin by by apply not_elem_of_dom.
    rewrite noteOff_absent by done. unfold consistent. simpl.
    destruct (lift_sets_absent _ _ _ key Hin Hpool Hfree Hheld) as (? & ?).
    done.
Qed.

Lemma consistent_forceAllOff s : consistent s → consistent (forceAllOff s).
Proof.
  intros (Hpool & Hfree & Hheld & Hup). unfold consistent.
  rewrite forceAllOff_active, forceAllOff_heldKeys, forceAllOff_sustainPool.
  rewrite dom_empty_L. split; [|split; [|split]]; [set_solver..|done].
Qed.

Lemma consistent_sustain_onchange checked s :
  consistent s → consistent (sustain_onchange checked s).
Proof.
  intros (Hpool & Hfree & Hheld & Hup). unfold sustain_onchange.
  destruct (sustain s) eqn:Hsus, checked; simpl.
  - by split; [|split; [|split]].
  - pose (s1 := set_sustain false s).
    assert (∀ k, k ∈ dom (active (force_unheld (keys_snapshot s1) s1))
                 ↔ k ∈ heldKeys s) as Hdom.
    { intros k. rewrite elem_of_dom, force_unheld_lookup.
      destruct (decide (k ∈ keys_snapshot s1 ∧ k ∉ heldKeys s1))
        as [[Hin Hn]|Hk].
      - split; [by intros [? ?]|]. intros Hin'. by destruct Hn.
      - rewrite <- elem_of_dom. split; [|by apply Hheld].
        intros Hin. destruct (decide (k ∈ heldKeys s)) as [|Hn]; [done|].
        destruct Hk. split; [|done]. by apply elem_of_keys_snapshot. }
    fold s1.
    unfold consistent. simpl.
    rewrite force_unheld_heldKeys.
    destruct (force_unheld_frame (keys_snapshot s1) s1) as (-> & _).
    simpl. split; [apply empty_subseteq|split; [|split]]; [| |done].
    + intros k [Hk Hn]%elem_of_difference. by apply Hdom in Hk.
    + intros k Hk. by apply Hdom.
  - by split; [|split; [|split]].
  - by split; [|split; [|split]].
Qed.

Lemma consistent_frame s s' :
  active s' = active s → heldKeys s' = heldKeys s →
  sustain s' = sustain s → sustainPool s' = sustainPool s →
  consistent s → consistent s'.
Proof. unfold consistent. by intros -> -> -> ->. Qed.

Lemma consistent_fire i s : consistent s → consistent (fire i s).
Proof.
  intros Hs. unfold fire.
  destruct (timers (engine s) !! i) as [t|]; [|done].
  destruct (callback t); [exact Hs|].
  by apply consistent_forceAllOff.
Qed.

Lemma consistent_activate note rect e s :
  consistent s → consistent (activate Math_pow note rect e s).
Proof.
  intros Hs. unfold activate.
  apply (consistent_press _ _ _ (if started s then s else set_started true s)).
  by destruct (started s).
Qed.

Lemma consistent_deactivate note s :
  consistent s → consistent (deactivate note s).
Proof. intros Hs. by apply consistent_lift. Qed.

Lemma consistent_keydown e s :
  consistent s → consistent (keydown Math_pow e s).
Proof.
  intros Hs. unfold keydown.
  case_bool_decide; [done|]. destruct (repeat e); [done|].
  destruct (String.eqb (key e) "Z"); [exact Hs|].
  destruct (String.eqb (key e) "X"); [exact Hs|].
  destruct (KEY_MAP !! key e) as [semis|]; [|done].
  case_bool_decide; [|done].
  apply (consistent_press _ _ _ (if started s then s else set_started true s)).
  by destruct (started s).
Qed.

Lemma consistent_keyup e s : consistent s → consistent (keyup e s).
Proof.
  intros Hs. unfold keyup. destruct (KEY_MAP !! key e); [|done].
  by apply consistent_lift.
Qed.

Lemma consistent_handle ev s :
  consistent s → consistent (handle Math_pow ev s).
Proof.
  intros Hs.
  destruct ev; simpl; repeat case_bool_decide;
    eauto using consistent_activate, consistent_deactivate,
      consistent_keydown, consistent_keyup, consistent_sustain_onchange,
      consistent_forceAllOff, consistent_fire.
  destruct hidden; eauto using consistent_forceAllOff.
Qed.

(** *** Every state of the page *)

Lemma invariant_init : invariant init.
Proof.
  split.
  - unfold consistent. simpl. rewrite dom_empty_L. set_solver.
  - apply sound_empty.
Qed.

Lemma invariant_handle ev s :
  invariant s → invariant (handle Math_pow ev s).
Proof.
  intros [Hc Ht]. split; [by apply consistent_handle|].
  by apply table_sound_handle.
Qed.

Lemma run_snoc evs ev s :
  run Math_pow (evs ++ [ev]) s = handle Math_pow ev (run Math_pow evs s).
Proof. unfold run. by rewrite foldl_snoc. Qed.

Lemma reachable_invariant s : reachable Math_pow s → invariant s.
Proof.
  intros [evs ->]. induction evs as [|ev evs IH] using rev_ind.
  - apply invariant_init.
  - rewrite run_snoc. by apply invariant_handle.
Qed.

Lemma reachable_handle ev s :
  reachable Math_pow s → reachable Math_pow (handle Math_pow ev s).
Proof. intros [evs ->]. exists (evs ++ [ev]). by rewrite run_snoc. Qed.
End SustainSafeInvariant.

(** ** The sustain-safe build: releases *)

Section SustainSafeRelease.
Import Audio Page SustainSafe.
Implicit Types (s : Piano) (k key : string) (v u : nat).

Lemma fading_forceOff k s u :
  fading (engine s) u = true → fading (engine (forceOff k s)) u = true.
Proof.
  intros Hu. destruct (active s !! k) as [v|] eqn:Hk.
  - rewrite (forceOff_present k v) by done. simpl.
    apply fading_fade_out_true. by left.
  - by rewrite forceOff_absent.
Qed.

Lemma fading_force_each l s u :
  fading (engine s) u = true → fading (engine (force_each l s)) u = true.
Proof.
  unfold force_each. revert s.
  induction l as [|a l IH]; intros s Hu; [done|].
  cbn [foldl]. by apply IH, fading_forceOff.
Qed.

(** A forced key's voice is on its way out. *)
Lemma force_each_fades l s k v :
  k ∈ l → active s !! k = Some v →
  fading (engine (force_each l s)) v = true.
Proof.
  unfold force_each. revert s.
  induction l as [|a l IH]; intros s Hin Hk; [by apply elem_of_nil in Hin|].
  cbn [foldl]. destruct (decide (a = k)) as [->|Hne].
  - apply fading_force_each. rewrite (forceOff_present k v) by done. simpl.
    apply fading_fade_out_true. by right.
  - apply IH.
    + apply elem_of_cons in Hin as [->|Hin]; done.
    + rewrite forceOff_active. by rewrite lookup_delete_ne.
Qed.

(** A voice of no forced key is not touched. *)
Lemma force_each_voices_other l s v :
  (∀ k, k ∈ l → active s !! k ≠ Some v) →
  voices (engine (force_each l s)) !! v = voices (engine s) !! v.
Proof.
  unfold force_each. revert s.
  induction l as [|a l IH]; intros s Hl; [done|].
  cbn [foldl]. rewrite IH.
  - destruct (active s !! a) as [u|] eqn:Ha.
    + rewrite (forceOff_present a u) by done. simpl.
      unfold fade_out. simpl. apply list_lookup_alter_ne.
      intros ->. by apply (Hl a); [left|].
    + by rewrite forceOff_absent.
  - intros k Hk. rewrite forceOff_active.
    destruct (decide (k = a)) as [->|Hne].
    + by rewrite lookup_delete_eq.
    + rewrite lookup_delete_ne by done. apply Hl. by right.
Qed.

Lemma release_each_sustained l s :
  sustain s = true →
  active (release_each l s) = active s ∧
  engine (release_each l s) = engine s ∧
  heldKeys (release_each l s) = heldKeys s ∧
  sustain (release_each l s) = true.
Proof.
  unfold release_each. revert s.
  induction l as [|a l IH]; intros s Hs; [done|].
  cbn [foldl]. destruct (active s !! a) as [v|] eqn:Ha.
  - rewrite (noteOff_sustained a v) by done.
    by destruct (IH (set_sustainPool ({[a]} ∪ sustainPool s) s) Hs)
      as (-> & -> & -> & ->).
  - rewrite noteOff_absent by done. by apply IH.
Qed.
End SustainSafeRelease.

(** ** The sustain-safe build: the lifecycle rules *)

Section SustainSafeRules.
Import Audio Page SustainSafe.
Variable Math_pow : float → float → float.
Implicit Types (s : Piano) (k key : string) (v u : nat).

(** X1.  The sustain-safe build on a re-trigger.  [noteOn] stops the voice in
    the slot at once: its oscillator is
    stopped and its nodes disconnected, nothing is issued on its gain and
    no stop is scheduled; the new voice takes the slot, and every live
    voice is the new one or belongs to another key. *)
Theorem noteOn_retrigger s k freq vel prev :
  reachable Math_pow s →
  active s !! k = Some prev →
  let s' := noteOn k freq vel s in
  sounding (engine s') prev = false ∧
  voices (engine s') !! prev = stopped_voice <$> voices (engine s) !! prev ∧
  timers (engine s') = timers (engine s) ∧
  ∃ v, active s' !! k = Some v ∧ v ≠ prev ∧ live (engine s') v ∧
       ∀ u, live (engine s') u →
            u = v ∨ ∃ k', k' ≠ k ∧ active s !! k' = Some u.
Proof.
  intros Hreach Hk s'.
  destruct (reachable_invariant Math_pow s Hreach) as [_ Hsound].
  pose proof (table_sound_noteOn k freq vel s Hsound) as Hsound'.
  fold s' in Hsound'. unfold table_sound in Hsound, Hsound'.
  pose proof (sound_lookup_lt _ _ _ _ Hsound Hk) as Hlt.
  assert (active s' = <[k := length (voices (engine s))]> (active s))
    as Hact by apply noteOn_active.
  assert (engine s' =
          (start_voice (wave (state s)) (volume (state s))
             (attack (state s)) freq vel
             (stopVoiceNow prev (engine s))).2) as Heng.
  { unfold s'. by rewrite noteOn_engine, Hk. }
  split; [|split; [|split]].
  - rewrite Heng, sounding_start_voice, length_stopVoiceNow.
    rewrite decide_False by lia.
    rewrite sounding_stopVoiceNow. by rewrite decide_True.
  - rewrite Heng. unfold start_voice, stopVoiceNow. simpl.
    rewrite lookup_app_l by (by rewrite length_alter).
    apply list_lookup_alter_eq.
  - by rewrite Heng.
  - exists (length (voices (engine s))).
    assert (active s' !! k = Some (length (voices (engine s)))) as Hk'.
    { rewrite Hact. apply lookup_insert_eq. }
    split; [done|]. split; [lia|].
    destruct Hsound' as (Hlive & _ & Htab & _).
    split; [by apply (Hlive k)|].
    intros u Hu. destruct (Htab u Hu) as [k' Hu'].
    rewrite Hact in Hu'.
    apply lookup_insert_Some in Hu' as [[_ <-]|[Hne Hu']]; [by left|].
    right. exists k'. split; [done|done].
Qed.

(** X2.  The sustain-safe build on the failsafe triggers.  They empty the table
    and the pool whatever the pedal says: every voice that was in the table is fading, and no live voice
    is left. *)
Theorem failsafe_silences s ev :
  reachable Math_pow s →
  ev ∈ [Interval; WindowPointerUp; WindowTouchEnd; WindowTouchCancel] →
  let s' := handle Math_pow ev s in
  active s' = ∅ ∧ sustainPool s' = ∅ ∧
  (∀ k v, active s !! k = Some v → fading (engine s') v = true) ∧
  (∀ v, ¬ live (engine s') v).
Proof.
  intros Hreach Hev s'.
  assert (s' = forceAllOff s) as ->.
  { unfold s'. repeat (apply elem_of_cons in Hev as [->|Hev]); try done.
    by apply elem_of_nil in Hev. }
  destruct (reachable_invariant Math_pow s Hreach) as [_ Hsound].
  apply table_sound_forceAllOff in Hsound.
  split; [apply forceAllOff_active|]. split; [done|]. split.
  - intros k v Hk. unfold forceAllOff. simpl.
    apply (force_each_fades _ _ k); [|done].
    apply elem_of_keys_snapshot, elem_of_dom. eauto.
  - intros v Hv. destruct Hsound as (_ & _ & Htab & _).
    destruct (Htab v Hv) as [k Hk].
    by rewrite forceAllOff_active, lookup_empty in Hk.
Qed.

(** C3.  [forceAllOff] leaves the table and the pool empty, from any state
    and whatever the pedal says. *)
Theorem forceAllOff_empties s :
  active (forceAllOff s) = ∅ ∧ sustainPool (forceAllOff s) = ∅.
Proof. split; [apply forceAllOff_active|done]. Qed.
End SustainSafeRules.

Section SustainSafeRules2.
Import Audio Page SustainSafe.
Variable Math_pow : float → float → float.
Implicit Types (s : Piano) (k key : string) (v u : nat).

(** X3.  The sustain-safe build on pedal-up.  The pool is cleared and the held
    set is untouched; the pooled keys that are not held lose their voice,
    which fades; every other key keeps its voice, untouched and live. *)
Theorem pedal_up_sweep s :
  reachable Math_pow s → sustain s = true →
  let s' := sustain_onchange false s in
  sustain s' = false ∧ sustainPool s' = ∅ ∧ heldKeys s' = heldKeys s ∧
  (∀ k, k ∈ sustainPool s ∖ heldKeys s →
     ∃ v, active s !! k = Some v ∧ active s' !! k = None ∧
          fading (engine s') v = true) ∧
  (∀ k, k ∉ sustainPool s ∖ heldKeys s →
     active s' !! k = active s !! k ∧
     ∀ v, active s !! k = Some v →
          voices (engine s') !! v = voices (engine s) !! v ∧
          live (engine s') v).
Proof.
  intros Hreach Hsus s'.
  destruct (reachable_invariant Math_pow s Hreach)
    as [(Hpool & Hfree & Hheld & _) Hsound].
  pose proof (table_sound_sustain_onchange false s Hsound) as Hsound'.
  fold s' in Hsound'.
  pose (s1 := set_sustain false s).
  pose (l := filter (λ k, k ∉ heldKeys s1) (keys_snapshot s1)).
  assert (s' = set_sustainPool ∅ (force_each l s1)) as Hs'.
  { unfold s', sustain_onchange. rewrite Hsus. simpl.
    by rewrite force_unheld_filter. }
  assert (∀ k, k ∈ l ↔ k ∈ sustainPool s ∖ heldKeys s) as Hl.
  { intros k. unfold l. rewrite list_elem_of_filter, elem_of_keys_snapshot.
    simpl. rewrite elem_of_difference. split.
    - intros [Hn Hd]. split; [|done]. apply Hfree, elem_of_difference. done.
    - intros [Hp Hn]. split; [done|]. by apply Hpool. }
  split; [|split; [|split; [|split]]].
  - rewrite Hs'. simpl. by destruct (force_each_frame l s1) as (-> & _).
  - by rewrite Hs'.
  - rewrite Hs'. simpl. unfold l. rewrite <- force_unheld_filter.
    by rewrite force_unheld_heldKeys.
  - intros k Hk. assert (k ∈ dom (active s)) as [v Hv]%elem_of_dom.
    { apply Hpool. by apply elem_of_difference in Hk as [? _]. }
    exists v. split; [done|]. rewrite Hs'. simpl. split.
    + rewrite force_each_lookup. by rewrite decide_True by by apply Hl.
    + apply (force_each_fades _ _ k); [by apply Hl|done].
  - intros k Hk.
    assert (active s' !! k = active s !! k) as Hkeep.
    { rewrite Hs'. simpl. rewrite force_each_lookup.
      rewrite decide_False; [done|]. by rewrite Hl. }
    split; [done|]. intros v Hv. split.
    + rewrite Hs'. simpl. rewrite force_each_voices_other; [done|].
      intros k' Hk' Hv'. simpl in Hv'.
      destruct Hsound as (_ & Hinj & _).
      rewrite (Hinj k' k v Hv' Hv) in Hk'. by apply Hk, Hl.
    + destruct Hsound' as (Hlive & _). apply (Hlive k). by rewrite Hkeep.
Qed.

Lemma difference_guarded (H D : gset string) (k : string) :
  H ⊆ D → H ∖ ({[k]} ∩ D) = H ∖ {[k]}.
Proof.
  intros HD. apply set_eq. intros x.
  rewrite !elem_of_difference, elem_of_intersection, elem_of_singleton.
  split; [|tauto]. intros [Hx Hn]. split; [done|].
  intros ->. apply Hn. split; [done|]. by apply HD.
Qed.

(** C6.  In every state of the page [forceOff] takes the key out of the
    held set and out of the pool and leaves the other keys of the two sets
    in place, and it does so whatever the pedal says: with the pedal set
    either way the two sets and the table end up the same.  In any state
    at all this holds for a key that has a voice; for a key without one
    [forceOff] returns at once. *)
Theorem forceOff_clears s k :
  (∀ v, active s !! k = Some v →
     heldKeys (forceOff k s) = heldKeys s ∖ {[k]} ∧
     sustainPool (forceOff k s) = sustainPool s ∖ {[k]}) ∧
  (active s !! k = None → forceOff k s = s) ∧
  (reachable Math_pow s →
     (k ∉ heldKeys (forceOff k s)) ∧ (k ∉ sustainPool (forceOff k s)) ∧
     heldKeys (forceOff k s) = heldKeys s ∖ {[k]} ∧
     sustainPool (forceOff k s) = sustainPool s ∖ {[k]} ∧
     ∀ pedal,
       heldKeys (forceOff k (set_sustain pedal s)) = heldKeys s ∖ {[k]} ∧
       sustainPool (forceOff k (set_sustain pedal s))
       = sustainPool s ∖ {[k]} ∧
       active (forceOff k (set_sustain pedal s)) = delete k (active s)).
Proof.
  split; [|split].
  - intros v Hv. by rewrite (forceOff_present k v).
  - apply forceOff_absent.
  - intros Hreach.
    destruct (reachable_invariant Math_pow s Hreach)
      as [(Hpool & _ & Hheld & _) _].
    assert (∀ pedal,
              heldKeys (forceOff k (set_sustain pedal s))
              = heldKeys s ∖ {[k]} ∧
              sustainPool (forceOff k (set_sustain pedal s))
              = sustainPool s ∖ {[k]} ∧
              active (forceOff k (set_sustain pedal s))
              = delete k (active s)) as Hany.
    { intros pedal.
      rewrite forceOff_heldKeys, forceOff_sustainPool, forceOff_active.
      simpl. by rewrite !difference_guarded. }
    assert (heldKeys (forceOff k s) = heldKeys s ∖ {[k]} ∧
            sustainPool (forceOff k s) = sustainPool s ∖ {[k]})
      as [Hh Hp].
    { rewrite forceOff_heldKeys, forceOff_sustainPool.
      by rewrite !difference_guarded. }
    rewrite Hh, Hp. split; [set_solver|]. split; [set_solver|done].
Qed.
End SustainSafeRules2.

(** ** The build in [piano.js]: what each operation does to the state *)

Section PerfectedOps.
Import Audio Page Perfected.
Implicit Types (s : Piano) (k key : string) (v u : nat).

Lemma perfected_noteOff_absent k s : active s !! k = None → noteOff k s = s.
Proof. intros Hk. unfold noteOff. by rewrite Hk. Qed.

Lemma perfected_noteOff_sustained k v s :
  active s !! k = Some v → sustain s = true →
  noteOff k s = set_sustainPool ({[k]} ∪ sustainPool s) s.
Proof. intros Hk Hs. unfold noteOff. by rewrite Hk, Hs. Qed.

Lemma perfected_noteOff_released k v s :
  active s !! k = Some v → sustain s = false →
  noteOff k s =
  set_active (delete k (active s))
    (set_engine (fade_out (release (state s)) v (engine s)) s).
Proof. intros Hk Hs. unfold noteOff. by rewrite Hk, Hs. Qed.

(** While the pedal is down a run of releases changes the pool only. *)
Lemma perfected_release_each_sustained l s :
  sustain s = true →
  active (release_each l s) = active s ∧
  engine (release_each l s) = engine s ∧
  sustain (release_each l s) = true.
Proof.
  unfold release_each. revert s.
  induction l as [|a l IH]; intros s Hs; [done|].
  cbn [foldl]. destruct (active s !! a) as [v|] eqn:Ha.
  - rewrite (perfected_noteOff_sustained a v) by done.
    by destruct (IH (set_sustainPool ({[a]} ∪ sustainPool s) s) Hs)
      as (-> & -> & ->).
  - rewrite perfected_noteOff_absent by done. by apply IH.
Qed.

Lemma perfected_fading_noteOff k s u :
  fading (engine s) u = true → fading (engine (noteOff k s)) u = true.
Proof.
  intros Hu. unfold noteOff. destruct (active s !! k) as [v|]; [|done].
  destruct (sustain s); [done|]. simpl.
  apply fading_fade_out_true. by left.
Qed.

Lemma perfected_fading_release_each l s u :
  fading (engine s) u = true → fading (engine (release_each l s)) u = true.
Proof.
  unfold release_each. revert s.
  induction l as [|a l IH]; intros s Hu; [done|].
  cbn [foldl]. by apply IH, perfected_fading_noteOff.
Qed.

Lemma perfected_noteOff_frame k s :
  sustain (noteOff k s) = sustain s.
Proof.
  unfold noteOff. destruct (active s !! k); [|done].
  by destruct (sustain s) eqn:Hs.
Qed.

Lemma perfected_noteOff_lookup_None a s k :
  active s !! k = None → active (noteOff a s) !! k = None.
Proof.
  intros Hk. unfold noteOff. destruct (active s !! a) as [w|] eqn:Ha; [|done].
  destruct (sustain s); [done|]. simpl.
  destruct (decide (a = k)) as [->|Hne]; [apply lookup_delete_eq|].
  by rewrite lookup_delete_ne.
Qed.

Lemma perfected_release_each_absent l s k :
  active s !! k = None → active (release_each l s) !! k = None.
Proof.
  unfold release_each. revert s.
  induction l as [|a l IH]; intros s Hk; [done|].
  cbn [foldl]. by apply IH, perfected_noteOff_lookup_None.
Qed.

(** With the pedal up a run of releases takes each of its keys out of the
    table and fades its voice. *)
Lemma perfected_release_each_released l s k v :
  sustain s = false → k ∈ l → active s !! k = Some v →
  active (release_each l s) !! k = None ∧
  fading (engine (release_each l s)) v = true.
Proof.
  revert s.
  induction l as [|a l IH]; intros s Hs Hin Hk;
    [by apply elem_of_nil in Hin|].
  change (release_each (a :: l) s) with (release_each l (noteOff a s)).
  destruct (decide (a = k)) as [->|Hne].
  - rewrite (perfected_noteOff_released k v) by done. split.
    + apply perfected_release_each_absent. simpl. apply lookup_delete_eq.
    + apply perfected_fading_release_each. simpl.
      apply fading_fade_out_true. by right.
  - apply IH.
    + by rewrite perfected_noteOff_frame.
    + apply elem_of_cons in Hin as [->|Hin]; done.
    + unfold noteOff. destruct (active s !! a) as [w|] eqn:Ha; [|done].
      rewrite Hs. simpl. by rewrite lookup_delete_ne.
Qed.
End PerfectedOps.

(** ** Releasing a key, in both builds *)

Section NoteOff.
Import Audio Page.

Lemma force_unheld_fades l (s : SustainSafe.Piano) k v :
  k ∈ l → k ∉ SustainSafe.heldKeys s → SustainSafe.active s !! k = Some v →
  SustainSafe.active (SustainSafe.force_unheld l s) !! k = None ∧
  fading (SustainSafe.engine (SustainSafe.force_unheld l s)) v = true.
Proof.
  intros Hl Hh Hk. split.
  - rewrite force_unheld_lookup. by rewrite decide_True.
  - rewrite force_unheld_filter. apply (force_each_fades _ _ k); [|done].
    by apply list_elem_of_filter.
Qed.

(** C4.  A release while the pedal is down puts the key in the pool and
    changes nothing else, in either build: the voice stays in the table
    and nothing is issued on its gain or scheduled.  Further releases
    leave it there; the pedal going up (in the sustain-safe build, for a
    key that is not held) or a forced release takes it out and fades it.
    The key element's listener of the sustain-safe build also takes the
    key out of the held set. *)
Theorem noteOff_under_pedal :
  (∀ (s : SustainSafe.Piano) k v,
     SustainSafe.active s !! k = Some v → SustainSafe.sustain s = true →
     let s' := SustainSafe.noteOff k s in
     s' = SustainSafe.set_sustainPool ({[k]} ∪ SustainSafe.sustainPool s) s ∧
     (∀ l, SustainSafe.active (SustainSafe.release_each l s') !! k = Some v ∧
           SustainSafe.engine (SustainSafe.release_each l s')
           = SustainSafe.engine s) ∧
     (k ∉ SustainSafe.heldKeys s →
        SustainSafe.active (SustainSafe.sustain_onchange false s') !! k = None ∧
        fading (SustainSafe.engine (SustainSafe.sustain_onchange false s')) v
        = true) ∧
     SustainSafe.active (SustainSafe.forceOff k s') !! k = None ∧
     fading (SustainSafe.engine (SustainSafe.forceOff k s')) v = true) ∧
  (∀ (s : SustainSafe.Piano) note v,
     let k := Pitch.key_of (Pitch.noteToMidi note) in
     SustainSafe.active s !! k = Some v → SustainSafe.sustain s = true →
     SustainSafe.deactivate note s
     = SustainSafe.set_sustainPool ({[k]} ∪ SustainSafe.sustainPool s)
         (SustainSafe.set_heldKeys (SustainSafe.heldKeys s ∖ {[k]}) s)) ∧
  (∀ (s : Perfected.Piano) k v,
     Perfected.active s !! k = Some v → Perfected.sustain s = true →
     let s' := Perfected.noteOff k s in
     s' = Perfected.set_sustainPool ({[k]} ∪ Perfected.sustainPool s) s ∧
     (∀ l, Perfected.active (Perfected.release_each l s') !! k = Some v ∧
           Perfected.engine (Perfected.release_each l s')
           = Perfected.engine s) ∧
     Perfected.active (Perfected.sustain_onchange false s') !! k = None ∧
     fading (Perfected.engine (Perfected.sustain_onchange false s')) v
     = true).
Proof.
  split; [|split].
  - intros s k v Hk Hsus. cbv zeta.
    rewrite (noteOff_sustained k v) by done.
    split; [done|]. split; [|split; [|split]].
    + intros l.
      destruct (release_each_sustained l
                  (SustainSafe.set_sustainPool
                     ({[k]} ∪ SustainSafe.sustainPool s) s) Hsus)
        as (-> & -> & _).
      done.
    + intros Hheld. unfold SustainSafe.sustain_onchange. simpl.
      rewrite Hsus. simpl. apply force_unheld_fades; [|done..].
      apply elem_of_keys_snapshot, elem_of_dom. simpl. eauto.
    + rewrite forceOff_active. apply lookup_delete_eq.
    + rewrite (forceOff_present k v) by done. simpl.
      apply fading_fade_out_true. by right.
  - intros s note v k Hk Hsus. unfold SustainSafe.deactivate. fold k.
    by rewrite (noteOff_sustained k v).
  - intros s k v Hk Hsus. cbv zeta.
    rewrite (perfected_noteOff_sustained k v) by done.
    split; [done|]. split.
    + intros l.
      destruct (perfected_release_each_sustained l
                  (Perfected.set_sustainPool
                     ({[k]} ∪ Perfected.sustainPool s) s) Hsus)
        as (-> & -> & _).
      done.
    + unfold Perfected.sustain_onchange. simpl.
      apply perfected_release_each_released; [done| |done].
      apply elem_of_elements. set_solver.
Qed.

Lemma set_heldKeys_same (s : SustainSafe.Piano) h :
  h = SustainSafe.heldKeys s → SustainSafe.set_heldKeys h s = s.
Proof. intros ->. by destruct s. Qed.

Lemma fade_out_pinned release v e :
  let t := currentTime e in
  let rel := JsMath.Math_max 0.02 (release / 1000) in
  voices (fade_out release v e) !! v
  = (λ x, {| osc := osc x;
              gain := {| gain_automation :=
                           gain_automation (gain x)
                           ++ [CancelScheduledValues t;
                               SetTargetAtTime 0 t (rel / 3)];
                         gain_connected := gain_connected (gain x) |} |})
    <$> voices e !! v ∧
  (∀ u, u ≠ v → voices (fade_out release v e) !! u = voices e !! u) ∧
  timers (fade_out release v e)
  = timers e ++ [{| callback := StopVoice v; delay := rel * 1000 + 50 |}] ∧
  currentTime (fade_out release v e) = currentTime e ∧
  master_gain (fade_out release v e) = master_gain e.
Proof.
  cbv zeta. unfold fade_out. simpl. split; [|split; [|done]].
  - by rewrite list_lookup_alter_eq.
  - intros u Hu. by apply list_lookup_alter_ne.
Qed.

Lemma stop_after_fade release v e :
  let e1 := fade_out release v e in
  timers e1 !! length (timers e)
  = Some {| callback := StopVoice v;
            delay := JsMath.Math_max 0.02 (release / 1000) * 1000 + 50 |} ∧
  sounding (stopVoiceNow v (clearTimer (length (timers e)) e1)) v = false.
Proof.
  cbv zeta. split.
  - unfold fade_out. simpl. by apply list_lookup_middle.
  - rewrite sounding_stopVoiceNow. by rewrite decide_True.
Qed.

Lemma noteOff_call_noteOff k (s : SustainSafe.Piano) :
  Throwing.noteOff_call k s = Throwing.Completes (SustainSafe.noteOff k s).
Proof.
  unfold Throwing.noteOff_call, SustainSafe.noteOff.
  destruct (SustainSafe.active s !! k); simpl; [|done].
  by destruct (SustainSafe.sustain s).
Qed.

Lemma perfected_noteOff_call_noteOff k (s : Perfected.Piano) :
  Throwing.perfected_noteOff_call k s = Throwing.Completes (Perfected.noteOff k s).
Proof.
  unfold Throwing.perfected_noteOff_call, Perfected.noteOff.
  destruct (Perfected.active s !! k); simpl; [|done].
  by destruct (Perfected.sustain s).
Qed.

(** C7.  With the pedal up, the first release of a sounding key takes it
    out of the table and schedules exactly one fade-out: one cancel and one
    decay are issued on the gain of its voice and one timer is queued that
    stops that voice, which no longer sounds once the timer has fired; no
    other voice is touched.  The second release finds no voice and returns
    the state as it is, so nothing more is issued or queued.  A release
    never throws: with the reads of the voice's properties as calls that
    can throw, [noteOff] completes for every key in every state, and for a
    key without a voice it completes with the state unchanged.  All of it
    in either build; in the sustain-safe build also through the key
    element's listener. *)
Theorem noteOff_twice :
  (∀ (s : SustainSafe.Piano) k v,
     SustainSafe.active s !! k = Some v → SustainSafe.sustain s = false →
     let e := SustainSafe.engine s in
     let t := currentTime e in
     let rel := JsMath.Math_max 0.02 (release (SustainSafe.state s) / 1000) in
     let s1 := SustainSafe.noteOff k s in
     let e1 := SustainSafe.engine s1 in
     SustainSafe.active s1 = delete k (SustainSafe.active s) ∧
     voices e1 !! v
     = (λ x, {| osc := osc x;
                gain := {| gain_automation :=
                             gain_automation (gain x)
                             ++ [CancelScheduledValues t;
                                 SetTargetAtTime 0 t (rel / 3)];
                           gain_connected := gain_connected (gain x) |} |})
       <$> voices e !! v ∧
     (∀ u, u ≠ v → voices e1 !! u = voices e !! u) ∧
     timers e1
     = timers e ++ [{| callback := StopVoice v;
                       delay := rel * 1000 + 50 |}] ∧
     sounding (SustainSafe.engine
                 (SustainSafe.fire (length (timers e)) s1)) v = false ∧
     SustainSafe.noteOff k s1 = s1 ∧
     Throwing.noteOff_call k s = Throwing.Completes s1 ∧
     Throwing.noteOff_call k s1 = Throwing.Completes s1) ∧
  (∀ (s : SustainSafe.Piano) k,
     Throwing.noteOff_call k s = Throwing.Completes (SustainSafe.noteOff k s) ∧
     (SustainSafe.active s !! k = None → SustainSafe.noteOff k s = s)) ∧
  (∀ (s : SustainSafe.Piano) note,
     SustainSafe.sustain s = false →
     SustainSafe.deactivate note (SustainSafe.deactivate note s)
     = SustainSafe.deactivate note s) ∧
  (∀ (s : Perfected.Piano) k v,
     Perfected.active s !! k = Some v → Perfected.sustain s = false →
     let e := Perfected.engine s in
     let t := currentTime e in
     let rel := JsMath.Math_max 0.02 (release (Perfected.state s) / 1000) in
     let s1 := Perfected.noteOff k s in
     let e1 := Perfected.engine s1 in
     Perfected.active s1 = delete k (Perfected.active s) ∧
     voices e1 !! v
     = (λ x, {| osc := osc x;
                gain := {| gain_automation :=
                             gain_automation (gain x)
                             ++ [CancelScheduledValues t;
                                 SetTargetAtTime 0 t (rel / 3)];
                           gain_connected := gain_connected (gain x) |} |})
       <$> voices e !! v ∧
     (∀ u, u ≠ v → voices e1 !! u = voices e !! u) ∧
     timers e1
     = timers e ++ [{| callback := StopVoice v;
                       delay := rel * 1000 + 50 |}] ∧
     sounding (Perfected.engine
                 (PerfectedPage.fire (length (timers e)) s1)) v = false ∧
     Perfected.noteOff k s1 = s1 ∧
     Throwing.perfected_noteOff_call k s = Throwing.Completes s1 ∧
     Throwing.perfected_noteOff_call k s1 = Throwing.Completes s1) ∧
  (∀ (s : Perfected.Piano) k,
     Throwing.perfected_noteOff_call k s = Throwing.Completes (Perfected.noteOff k s) ∧
     (Perfected.active s !! k = None → Perfected.noteOff k s = s)).
Proof.
  split; [|split; [|split; [|split]]].
  - intros s k v Hk Hsus e t rel s1 e1.
    assert (s1 = SustainSafe.set_active (delete k (SustainSafe.active s))
                   (SustainSafe.set_engine
                      (fade_out (release (SustainSafe.state s)) v e) s))
      as Hs1 by (by apply noteOff_released).
    assert (SustainSafe.noteOff k s1 = s1) as Hagain.
    { apply noteOff_absent. rewrite Hs1. simpl. apply lookup_delete_eq. }
    destruct (fade_out_pinned (release (SustainSafe.state s)) v e)
      as (Hv & Hother & Htimers & _).
    destruct (stop_after_fade (release (SustainSafe.state s)) v e)
      as (Hlast & Hstop).
    assert (SustainSafe.engine s1 = fade_out (release (SustainSafe.state s)) v e)
      as He1 by by rewrite Hs1.
    unfold e1. rewrite !noteOff_call_noteOff, Hagain. fold s1.
    split; [by rewrite Hs1|]. rewrite He1.
    split; [exact Hv|]. split; [exact Hother|].
    split; [exact Htimers|]. split; [|done].
    unfold SustainSafe.fire. rewrite He1, Hlast. exact Hstop.
  - intros s k. split; [apply noteOff_call_noteOff|apply noteOff_absent].
  - intros s note Hsus. unfold SustainSafe.deactivate.
    set (k := Pitch.key_of (Pitch.noteToMidi note)).
    set (s0 := SustainSafe.set_heldKeys (SustainSafe.heldKeys s ∖ {[k]}) s).
    assert (SustainSafe.active (SustainSafe.noteOff k s0) !! k = None
            ∧ SustainSafe.heldKeys (SustainSafe.noteOff k s0)
              = SustainSafe.heldKeys s ∖ {[k]}) as [Hk Hh].
    { destruct (SustainSafe.active s0 !! k) as [v|] eqn:Hk0.
      - rewrite (noteOff_released k v) by done. simpl.
        split; [apply lookup_delete_eq|done].
      - by rewrite noteOff_absent. }
    rewrite set_heldKeys_same by (rewrite Hh; set_solver).
    by apply noteOff_absent.
  - intros s k v Hk Hsus e t rel s1 e1.
    assert (s1 = Perfected.set_active (delete k (Perfected.active s))
                   (Perfected.set_engine
                      (fade_out (release (Perfected.state s)) v e) s))
      as Hs1 by (by apply perfected_noteOff_released).
    assert (Perfected.noteOff k s1 = s1) as Hagain.
    { apply perfected_noteOff_absent. rewrite Hs1. simpl.
      apply lookup_delete_eq. }
    destruct (fade_out_pinned (release (Perfected.state s)) v e)
      as (Hv & Hother & Htimers & _).
    destruct (stop_after_fade (release (Perfected.state s)) v e)
      as (Hlast & Hstop).
    assert (Perfected.engine s1 = fade_out (release (Perfected.state s)) v e)
      as He1 by by rewrite Hs1.
    unfold e1. rewrite !perfected_noteOff_call_noteOff, Hagain. fold s1.
    split; [by rewrite Hs1|]. rewrite He1.
    split; [exact Hv|]. split; [exact Hother|].
    split; [exact Htimers|]. split; [|done].
    unfold PerfectedPage.fire. rewrite He1, Hlast. exact Hstop.
  - intros s k.
    split; [apply perfected_noteOff_call_noteOff|
            apply perfected_noteOff_absent].
Qed.
End NoteOff.

(** ** The note helpers *)

Section PitchFacts.
Import Pitch.

Lemma pretty_N_go_shape (x : N) (s : string) :
  (0 < x)%N →
  ∃ y rest, pretty_N_go x s = String (pretty_N_char y) rest
            ∧ (String.length s ≤ String.length rest)%nat.
Proof.
  revert s. induction (N.lt_wf_0 x) as [x _ IH]; intros s Hx.
  rewrite pretty_N_go_step by done.
  destruct (decide (x `div` 10 = 0)%N) as [->|Hq].
  - rewrite pretty_N_go_0. eauto.
  - destruct (IH (x `div` 10)%N) with (s := String (pretty_N_char (x `mod` 10)) s)
      as (y & rest & -> & Hlen).
    + apply N.div_lt; [exact Hx | reflexivity].
    + by apply N.neq_0_lt_0.
    + exists y, rest. split; [done|]. simpl in Hlen. lia.
Qed.

Lemma pretty_pos_shape (p : positive) :
  ∃ y rest, pretty (Zpos p) = String (pretty_N_char y) rest.
Proof.
  destruct (pretty_N_go_shape (Npos p) "") as (y & rest & H & _); [lia|].
  exists y, rest. exact H.
Qed.

Lemma pretty_two_digits (z : Z) :
  10 ≤ z →
  ∃ y c rest, pretty z = String (pretty_N_char y) (String c rest).
Proof.
  intros Hz. destruct z as [|p|p]; try lia.
  change (pretty (Z.pos p)) with (pretty_N_go (N.pos p) "").
  rewrite pretty_N_go_step by lia.
  destruct (pretty_N_go_shape (N.pos p `div` 10)%N
              (String (pretty_N_char (N.pos p `mod` 10)) "")) as (y & rest & -> & Hlen).
  { apply N.div_str_pos_iff; lia. }
  destruct rest as [|c rest]; [simpl in Hlen; lia|]. eauto.
Qed.

Lemma digit_not_accidental (y : N) : is_accidental (pretty_N_char y) = false.
Proof. unfold pretty_N_char. by repeat case_match. Qed.

Lemma pretty_not_single (q : Z) :
  q < 0 ∨ 10 ≤ q →
  ∃ d c rest, pretty q = String d (String c rest) ∧ is_accidental d = false.
Proof.
  intros [Hq|Hq].
  - destruct q as [|p|p]; try lia.
    destruct (pretty_pos_shape p) as (y & rest & Hp).
    exists "-"%char, (pretty_N_char y), rest. split; [|done].
    change (pretty (Z.neg p)) with ("-" +:+ pretty (Z.pos p)).
    by rewrite Hp.
  - destruct (pretty_two_digits q Hq) as (y & c & rest & ->).
    eauto using digit_not_accidental.
Qed.

Lemma NAMES_at_Some (r : Z) (name : string) :
  NAMES_at r = Some name → name ∈ NAMES.
Proof.
  unfold NAMES_at. case_decide; [|done].
  intros Hlook. by eapply list_elem_of_lookup_2.
Qed.

Lemma note_match_long (name : string) (d c : ascii) (rest : string) :
  name ∈ NAMES → is_accidental d = false →
  note_match (name +:+ String d (String c rest)) = None.
Proof.
  intros Hname Hd. unfold NAMES in Hname.
  repeat (apply elem_of_cons in Hname as [->|Hname]);
    [..|by apply elem_of_nil in Hname];
    simpl; try done; rewrite Hd; by destruct rest.
Qed.

Lemma midiToNote_rejected (m : Z) (name : string) :
  NAMES_at (m `rem` 12) = Some name →
  m `div` 12 - 1 < 0 ∨ 10 ≤ m `div` 12 - 1 →
  ∃ s, midiToNote m = JsString s ∧ noteToMidi s = None.
Proof.
  intros Hname Hq. unfold midiToNote. rewrite Hname.
  destruct (pretty_not_single _ Hq) as (d & c & rest & -> & Hd).
  eexists. split; [done|]. unfold noteToMidi.
  by rewrite note_match_long by eauto using NAMES_at_Some.
Qed.

Lemma NAMES_at_in_range (r : Z) : 0 ≤ r < 12 → is_Some (NAMES_at r).
Proof.
  intros Hr. unfold NAMES_at. rewrite decide_True by lia.
  apply lookup_lt_is_Some. simpl. lia.
Qed.

Lemma NAMES_at_negative (r : Z) : r < 0 → NAMES_at r = None.
Proof. intros Hr. unfold NAMES_at. by rewrite decide_False by lia. Qed.

(** C10, amended.  For 12 <= m <= 131 the name of [m] converts back to
    [m].  For 0 <= m < 12, for m > 131 and for the negative multiples of
    12, [midiToNote] gives a name on which [noteToMidi] returns [null].
    For the other negative integers [NAMES[m % 12]] is [undefined]:
    [midiToNote] gives [NaN], and [noteToMidi] throws on it.  Integers are
    printed in decimal, which is what JavaScript does below 2^53. *)
Theorem midi_note_round_trip (m : Z) :
  (12 ≤ m ≤ 131 → noteToMidi_of (midiToNote m) = Returns (Some m)) ∧
  (0 ≤ m < 12 ∨ 131 < m ∨ (m < 0 ∧ m `rem` 12 = 0) →
     ∃ name, midiToNote m = JsString name ∧ noteToMidi name = None) ∧
  (m < 0 → m `rem` 12 ≠ 0 →
     midiToNote m = JsNaN ∧ noteToMidi_of (midiToNote m) = ThrowsTypeError).
Proof.
  split; [|split].
  - intros Hm.
    assert (Forall (λ m, noteToMidi_of (midiToNote m) = Returns (Some m))
                   (seqZ 12 120)) as Hall.
    { apply (bool_decide_unpack _). vm_compute. exact I. }
    rewrite Forall_forall in Hall. apply Hall, elem_of_seqZ. lia.
  - intros Hm.
    assert (0 ≤ m `rem` 12 < 12) as Hr.
    { destruct Hm as [Hm|[Hm|[Hm ->]]]; [| |lia].
      - apply Z.rem_bound_pos; lia.
      - apply Z.rem_bound_pos; lia. }
    destruct (NAMES_at_in_range _ Hr) as [name Hname].
    apply (midiToNote_rejected m name Hname).
    destruct Hm as [Hm|[Hm|[Hm Hrem]]].
    + left. assert (m `div` 12 = 0) as -> by (apply Z.div_small; lia). lia.
    + right. assert (11 ≤ m `div` 12) by (apply Z.div_le_lower_bound; lia). lia.
    + left. assert (m `div` 12 < 0) by (apply Z.div_lt_upper_bound; lia). lia.
  - intros Hm Hrem.
    assert (m `rem` 12 < 0) as Hr.
    { pose proof (Z.rem_bound_pos_neg m 12). lia. }
    unfold midiToNote. by rewrite (NAMES_at_negative _ Hr).
Qed.


Lemma base_table_letter (L : ascii) :
  is_letter L = true → is_Some (base_table L).
Proof.
  destruct L as [[] [] [] [] [] [] [] []]; vm_compute; try done; eauto.
Qed.

Lemma note_match_letter (note : string) L acc o :
  note_match note = Some (L, acc, o) → is_letter L = true.
Proof.
  destruct note as [|c1 [|c2 [|c3 [|c4 rest]]]]; simpl; try done.
  - destruct (is_letter c1) eqn:HL; simpl; [|done].
    destruct (is_digit c2); [|done]. by intros [= <- _ _].
  - destruct (is_letter c1) eqn:HL; simpl; [|done].
    destruct (is_accidental c2 && is_digit c3); [|done].
    by intros [= <- _ _].
Qed.

(** [noteToMidi] returns [null] exactly when the pattern does not match. *)
Lemma noteToMidi_None (note : string) :
  noteToMidi note = None ↔ note_match note = None.
Proof.
  unfold noteToMidi. split; [|by intros ->].
  destruct (note_match note) as [[[L acc] o]|] eqn:Hm; [|done].
  destruct (base_table_letter L) as [b ->]; [|done].
  by eapply note_match_letter.
Qed.

(** C9.  With [Math.pow(x, 0)] equal to 1, [midiToFreq(69)] is exactly
    440; [noteToMidi("A4")] is 69 and [midiToNote(60)] is ["C4"]. *)
Theorem pitch_conversions (Math_pow : float → float → float) :
  (∀ x, Math_pow x 0%float = 1%float) →
  midiToFreq Math_pow (Some 69) = 440%float ∧
  noteToMidi "A4" = Some 69 ∧
  midiToNote 60 = JsString "C4".
Proof.
  intros Hpow. split; [|split].
  - unfold midiToFreq.
    change ((to_number (Some 69%Z) - 69) / 12)%float with 0%float.
    by rewrite Hpow.
  - by vm_compute.
  - by vm_compute.
Qed.

Lemma pitch_conversions_witness :
  midiToFreq pow_example (Some 69) = 440%float ∧
  noteToMidi "A4" = Some 69 ∧
  midiToNote 60 = JsString "C4".
Proof. apply (pitch_conversions pow_example). intros x. reflexivity. Defined.

Lemma midi_note_round_trip_witness :
  noteToMidi_of (midiToNote 60) = Returns (Some 60) ∧
  (∃ name, midiToNote 132 = JsString name ∧ noteToMidi name = None) ∧
  (∃ name, midiToNote (-12) = JsString name ∧ noteToMidi name = None) ∧
  midiToNote (-1) = JsNaN ∧
  noteToMidi_of (midiToNote (-1)) = ThrowsTypeError.
Proof.
  split; [|split; [|split]].
  - apply (midi_note_round_trip 60). lia.
  - apply (midi_note_round_trip 132). lia.
  - apply (midi_note_round_trip (-12)). right. right. split; [lia|reflexivity].
  - apply (midi_note_round_trip (-1)); [lia|]. vm_compute. discriminate.
Defined.

(** At -1 the claim fails: [midiToNote] gives no name, and
    [noteToMidi] does not return [null] on its result. *)
Lemma midiToNote_minus_one :
  ¬ (12 ≤ -1 ≤ 131) ∧
  (∀ name, midiToNote (-1) ≠ JsString name) ∧
  noteToMidi_of (midiToNote (-1)) ≠ Returns None.
Proof. split; [lia|]. split; [intros name|]; by vm_compute. Qed.
End PitchFacts.

(** ** Unmapped pitches *)

Section Unmapped.
Import Audio Page SustainSafe.
Variable Math_pow : float → float → float.

(** [activate] does not look at what [noteToMidi] returned: a note that
    matches no pitch is held and sounded under the key ["mnull"]. *)
Lemma activate_unmapped note rect e s :
  Pitch.noteToMidi note = None →
  let s' := activate Math_pow note rect e s in
  heldKeys s' = {["mnull"]} ∪ heldKeys s ∧
  active s' = <["mnull" := length (voices (engine s))]> (active s).
Proof.
  intros Hnote. unfold activate. rewrite Hnote.
  change (Pitch.key_of None) with "mnull"%string. cbv zeta.
  set (s0 := if started s then s else set_started true s).
  assert (heldKeys s0 = heldKeys s ∧ active s0 = active s
          ∧ engine s0 = engine s) as (Hh & Ha & He).
  { unfold s0. by destruct (started s). }
  rewrite noteOn_active.
  destruct (noteOn_sets "mnull" (Pitch.midiToFreq Math_pow None)
              (getVelocity (state (set_heldKeys ({["mnull"]} ∪ heldKeys s0) s0))
                 rect e)
              (set_heldKeys ({["mnull"]} ∪ heldKeys s0) s0))
    as (-> & _).
  simpl. by rewrite Hh, Ha, He.
Qed.

(** C8, amended.  [noteToMidi] returns [null] exactly for the strings the
    pattern does not match, and the keyboard listener drops a key whose
    pitch has no key element on the page, leaving the state as it was. *)
Theorem unmapped_pitch :
  (∀ note, Pitch.noteToMidi note = None ↔ Pitch.note_match note = None) ∧
  (∀ e s semis,
     targetTag e ∉ ["INPUT"; "SELECT"; "TEXTAREA"]%string →
     repeat e = false →
     KEY_MAP !! key e = Some semis →
     template
       (Pitch.midiToNote
          ((baseOct (state s) + (if shiftKey e then 1 else 0) + 1) * 12
           + semis)) ∉ page s →
     keydown Math_pow e s = s).
Proof.
  split; [apply noteToMidi_None|].
  intros e s semis Htag Hrep Hkey Hpage. unfold keydown.
  rewrite bool_decide_eq_false_2 by done. rewrite Hrep.
  destruct (String.eqb_spec (key e) "Z") as [HZ|_].
  { rewrite HZ in Hkey. by vm_compute in Hkey. }
  destruct (String.eqb_spec (key e) "X") as [HX|_].
  { rewrite HX in Hkey. by vm_compute in Hkey. }
  rewrite Hkey. by rewrite bool_decide_eq_false_2.
Qed.
End Unmapped.

(** ** The build in [piano.js]: where it parts from the sustain-safe build *)

Section PerfectedDivergence.
Import Audio Page Perfected Examples.
Implicit Types (s : Piano) (k key : string) (v u : nat).

(** [noteOn] leaves the voice that was in the slot as it is. *)
Lemma perfected_noteOn_keeps_prior k f vel s prev :
  active s !! k = Some prev →
  (prev < length (voices (engine s)))%nat →
  let s' := noteOn k f vel s in
  active s' !! k = Some (length (voices (engine s))) ∧
  voices (engine s') !! prev = voices (engine s) !! prev ∧
  timers (engine s') = timers (engine s).
Proof.
  intros Hk Hlt. cbv zeta. unfold noteOn, start_voice. simpl.
  split; [apply lookup_insert_eq|]. split; [|done].
  by rewrite lookup_app_l.
Qed.

Lemma perfected_sweep_sustained above s :
  sustain s = true →
  active (sweep above s) = active s ∧ engine (sweep above s) = engine s.
Proof.
  unfold sweep. generalize (map_to_list (active s)). intros l. revert s.
  induction l as [|[k v] l IH]; intros s Hs; [done|].
  cbn [foldl]. simpl. destruct (above v).
  - destruct (active s !! k) as [w|] eqn:Hk.
    + rewrite (perfected_noteOff_sustained k w) by done.
      by destruct (IH (set_sustainPool ({[k]} ∪ sustainPool s) s) Hs)
        as (-> & ->).
    + rewrite perfected_noteOff_absent by done. by apply IH.
  - by apply IH.
Qed.

(** While the pedal is down the failsafe listeners and the sweep leave
    the table and the audio graph as they are. *)
Lemma perfected_failsafe_sustained Math_pow above s trigger :
  sustain s = true →
  trigger ∈ [WindowPointerUp; WindowTouchEnd; WindowTouchCancel;
             Interval above] →
  active (handle Math_pow trigger s) = active s ∧
  engine (handle Math_pow trigger s) = engine s.
Proof.
  intros Hs Ht.
  repeat (apply elem_of_cons in Ht as [->|Ht]); simpl;
    [..|by apply elem_of_nil in Ht].
  1-3: by destruct (perfected_release_each_sustained
                      (map_to_list (active s)).*1 s Hs) as (? & ? & _).
  by apply perfected_sweep_sustained.
Qed.

(** C1 asks that a re-trigger stop the prior voice at once and leave one
    live voice for the key.  [piano.js] does not: with the pedal down and C4
    struck twice, the table holds the second voice, and the first one is
    still live, in no slot. *)
Theorem perfected_retrigger_overlaps :
  let s := run Pitch.pow_example struck_twice init in
  active s = {["m60" := 1%nat]} ∧
  live (engine s) 0 ∧ live (engine s) 1.
Proof. cbv zeta. split; [|split; split]; by vm_compute. Qed.

(** C2 asks that the failsafe triggers silence every voice even with the
    pedal down.  [piano.js] does not: with the pedal down and C4 pressed,
    after window pointer-up, touch-end, touch-cancel or the 3-second sweep
    the voice is still in the table and live, and the key is pooled. *)
Theorem perfected_failsafe_honours_pedal :
  Forall (λ trigger,
            let s := run Pitch.pow_example (held_under_pedal trigger) init in
            active s = {["m60" := 0%nat]} ∧ live (engine s) 0 ∧
            sustain s = true ∧ sustainPool s = {["m60"]})
         [WindowPointerUp; WindowTouchEnd; WindowTouchCancel;
          Interval (λ _, true)].
Proof.
  repeat constructor; by vm_compute.
Qed.

(** C5 asks that pedal-up spare a key that was re-pressed under the pedal.
    [piano.js] does not: pedal down, C4 struck, released and struck again;
    with the key still pressed, pedal-up takes its voice out of the table
    and fades it. *)
Theorem perfected_pedal_up_releases_pressed :
  let s0 := run Pitch.pow_example struck_twice init in
  let s := run Pitch.pow_example repressed_then_pedal_up init in
  pressed s0 = {["C4"]} ∧ pressed s = {["C4"]} ∧
  active s0 !! "m60" = Some 1%nat ∧
  active s !! "m60" = None ∧ fading (engine s) 1 = true.
Proof. cbv zeta. repeat split; by vm_compute. Qed.
End PerfectedDivergence.

(** ** The rules at work *)

Section Instances.
Import Audio Page Examples.

(** C8 fails at the key C10 of a page whose base octave is 9:
    [noteToMidi] returns [null], and the press is carried out under the
    key ["mnull"], with a voice created, stored and sounding. *)
Lemma activate_sounds_unmapped_note :
  let s := SustainSafe.run Pitch.pow_example press_C10 SustainSafe.init in
  Pitch.noteToMidi "C10" = None ∧
  SustainSafe.heldKeys s = {["mnull"]} ∧
  SustainSafe.active s = {["mnull" := 0%nat]} ∧
  live (SustainSafe.engine s) 0.
Proof. cbv zeta. split; [|split; [|split; [|split]]]; by vm_compute. Qed.

Lemma forceOff_clears_witness :
  let s := SustainSafe.run Pitch.pow_example repressed SustainSafe.init in
  SustainSafe.sustain s = true ∧
  "m60" ∈ SustainSafe.heldKeys s ∧ "m60" ∈ SustainSafe.sustainPool s ∧
  ("m60" ∉ SustainSafe.heldKeys (SustainSafe.forceOff "m60" s)) ∧
  ("m60" ∉ SustainSafe.sustainPool (SustainSafe.forceOff "m60" s)) ∧
  SustainSafe.heldKeys (SustainSafe.forceOff "m60" s)
  = SustainSafe.heldKeys s ∖ {["m60"]} ∧
  SustainSafe.sustainPool (SustainSafe.forceOff "m60" s)
  = SustainSafe.sustainPool s ∖ {["m60"]} ∧
  SustainSafe.forceOff "m61" s = s.
Proof.
  intros s.
  destruct (forceOff_clears Pitch.pow_example s "m60") as (_ & _ & Hreach).
  destruct (forceOff_clears Pitch.pow_example s "m61") as (_ & Hnone & _).
  split; [vm_compute; reflexivity|].
  split; [apply (bool_decide_unpack _); vm_compute; exact I|].
  split; [apply (bool_decide_unpack _); vm_compute; exact I|].
  destruct Hreach as (Hheld & Hpool & Hh & Hp & _); [by exists repressed|].
  split; [exact Hheld|]. split; [exact Hpool|].
  split; [exact Hh|]. split; [exact Hp|].
  apply Hnone. vm_compute. reflexivity.
Defined.

Lemma unmapped_pitch_witness :
  let s := SustainSafe.handle Pitch.pow_example (SustainSafe.OctavesChange 1)
             SustainSafe.init in
  (Pitch.noteToMidi "C10" = None ↔ Pitch.note_match "C10" = None) ∧
  SustainSafe.keydown Pitch.pow_example shift_J s = s.
Proof.
  intros s. destruct (unmapped_pitch Pitch.pow_example) as [Hnull Hdrop].
  split; [apply Hnull|].
  apply (Hdrop shift_J s 11).
  - apply (bool_decide_unpack _). vm_compute. exact I.
  - reflexivity.
  - vm_compute. reflexivity.
  - apply (bool_decide_unpack _). vm_compute. exact I.
Defined.

Lemma noteOff_under_pedal_witness :
  let s := SustainSafe.run Pitch.pow_example
             [SustainSafe.SustainChange true;
              SustainSafe.KeyPointerDown "C4" rect press]
             SustainSafe.init in
  let p := Perfected.run Pitch.pow_example (held_under_pedal
             (Perfected.KeyPointerEnter "C4" rect press)) Perfected.init in
  SustainSafe.noteOff "m60" s
  = SustainSafe.set_sustainPool ({["m60"]} ∪ SustainSafe.sustainPool s) s ∧
  Perfected.noteOff "m60" p
  = Perfected.set_sustainPool ({["m60"]} ∪ Perfected.sustainPool p) p.
Proof.
  intros s p. destruct noteOff_under_pedal as (Hsafe & _ & Hperf). split.
  - apply (Hsafe s "m60"%string 0%nat); vm_compute; reflexivity.
  - apply (Hperf p "m60"%string 1%nat); vm_compute; reflexivity.
Defined.

Lemma noteOff_twice_witness :
  let s := SustainSafe.run Pitch.pow_example
             [SustainSafe.KeyPointerDown "C4" rect press] SustainSafe.init in
  let p := Perfected.run Pitch.pow_example
             [Perfected.KeyPointerDown "C4" rect press] Perfected.init in
  let s1 := SustainSafe.noteOff "m60" s in
  let p1 := Perfected.noteOff "m60" p in
  (timers (SustainSafe.engine s1)
   = timers (SustainSafe.engine s)
     ++ [{| callback := StopVoice 0;
            delay := JsMath.Math_max 0.02 (320 / 1000) * 1000 + 50 |}] ∧
   sounding (SustainSafe.engine (SustainSafe.fire 0 s1)) 0 = false ∧
   SustainSafe.noteOff "m60" s1 = s1 ∧
   Throwing.noteOff_call "m60" s1 = Throwing.Completes s1) ∧
  SustainSafe.noteOff "m61" s = s ∧
  SustainSafe.deactivate "C4" (SustainSafe.deactivate "C4" s)
  = SustainSafe.deactivate "C4" s ∧
  (sounding (Perfected.engine (PerfectedPage.fire 0 p1)) 0 = false ∧
   Perfected.noteOff "m60" p1 = p1 ∧
   Throwing.perfected_noteOff_call "m60" p1 = Throwing.Completes p1) ∧
  Perfected.noteOff "m61" p = p.
Proof.
  intros s p s1 p1.
  destruct noteOff_twice as (Hsafe & Hnone & Hkey & Hperf & Hpnone).
  split; [|split; [|split; [|split]]].
  - destruct (Hsafe s "m60"%string 0%nat)
      as (_ & _ & _ & Htimers & Hstop & Hagain & _ & Hcall);
      [vm_compute; reflexivity..|].
    split; [exact Htimers|]. split; [exact Hstop|].
    split; [exact Hagain|exact Hcall].
  - apply Hnone. vm_compute. reflexivity.
  - apply Hkey. vm_compute. reflexivity.
  - destruct (Hperf p "m60"%string 0%nat)
      as (_ & _ & _ & _ & Hstop & Hagain & _ & Hcall);
      [vm_compute; reflexivity..|].
    split; [exact Hstop|]. split; [exact Hagain|exact Hcall].
  - apply Hpnone. vm_compute. reflexivity.
Defined.

Lemma noteOn_retrigger_witness :
  let s := SustainSafe.run Pitch.pow_example
             [SustainSafe.SustainChange true;
              SustainSafe.KeyPointerDown "C4" rect press;
              SustainSafe.KeyPointerUp "C4"] SustainSafe.init in
  sounding (SustainSafe.engine (SustainSafe.noteOn "m60" 261.63 1 s)) 0
  = false.
Proof.
  intros s.
  apply (noteOn_retrigger Pitch.pow_example s "m60" 261.63 1 0).
  - by exists [SustainSafe.SustainChange true;
               SustainSafe.KeyPointerDown "C4" rect press;
               SustainSafe.KeyPointerUp "C4"].
  - vm_compute. reflexivity.
Defined.

Lemma failsafe_silences_witness :
  let s := SustainSafe.run Pitch.pow_example repressed SustainSafe.init in
  SustainSafe.sustain s = true ∧
  SustainSafe.active
    (SustainSafe.handle Pitch.pow_example SustainSafe.Interval s) = ∅.
Proof.
  intros s. split; [vm_compute; reflexivity|].
  apply (failsafe_silences Pitch.pow_example s SustainSafe.Interval).
  - by exists repressed.
  - left.
Defined.

Lemma pedal_up_sweep_witness :
  let s := SustainSafe.run Pitch.pow_example repressed SustainSafe.init in
  let s' := SustainSafe.sustain_onchange false s in
  "m60" ∈ SustainSafe.sustainPool s ∧ "m60" ∈ SustainSafe.heldKeys s ∧
  SustainSafe.active s' !! "m60" = SustainSafe.active s !! "m60" ∧
  SustainSafe.active s' !! "m62" = None.
Proof.
  intros s s'.
  destruct (pedal_up_sweep Pitch.pow_example s) as (_ & _ & _ & Hrel & Hkeep).
  - by exists repressed.
  - vm_compute. reflexivity.
  - split; [apply (bool_decide_unpack _); vm_compute; exact I|].
    split; [apply (bool_decide_unpack _); vm_compute; exact I|].
    split.
    + apply Hkeep. apply (bool_decide_unpack _). vm_compute. exact I.
    + destruct (Hrel "m62"%string) as (v & _ & Hnone & _); [|exact Hnone].
      apply (bool_decide_unpack _). vm_compute. exact I.
Defined.
End Instances.

(** ** The sustain-safe build: the states of the page *)

Section SustainSafeStates.
Import Audio Page SustainSafe.
Variable Math_pow : float → float → float.
Implicit Types (s : Piano) (k key : string) (v u : nat).

(** X5.  In every state the handlers of the sustain-safe build produce, a
    key has a voice exactly when it is held or pooled; the pool is empty
    while the pedal is up, so that then the keys with a voice are the held
    ones. *)
Theorem voices_follow_keys s :
  reachable Math_pow s →
  (∀ k, is_Some (active s !! k) ↔ k ∈ heldKeys s ∨ k ∈ sustainPool s) ∧
  (sustain s = false →
     sustainPool s = ∅ ∧ ∀ k, is_Some (active s !! k) ↔ k ∈ heldKeys s).
Proof.
  intros Hreach.
  destruct (reachable_invariant Math_pow s Hreach)
    as [(Hpool & Hfree & Hheld & Hup) _].
  assert (∀ k, is_Some (active s !! k) ↔ k ∈ heldKeys s ∨ k ∈ sustainPool s)
    as Hdom.
  { intros k. rewrite <- elem_of_dom. split.
    - intros Hk. destruct (decide (k ∈ heldKeys s)) as [|Hn]; [by left|].
      right. apply Hfree, elem_of_difference. done.
    - intros [Hk|Hk]; [by apply Hheld|by apply Hpool]. }
  split; [done|]. intros Hsus. specialize (Hup Hsus). split; [done|].
  intros k. rewrite Hdom, Hup. set_solver.
Qed.

(** X6.  In every state the handlers of the sustain-safe build produce, a
    sounding oscillator belongs to a key of the table or has its stop
    pending; the voice of a key in the table is sounding with no stop
    pending, and no voice is in the table under two keys. *)
Theorem no_stray_voice s :
  reachable Math_pow s →
  (∀ v, sounding (engine s) v = true →
        (∃ k, active s !! k = Some v) ∨ fading (engine s) v = true) ∧
  (∀ k v, active s !! k = Some v →
          sounding (engine s) v = true ∧ fading (engine s) v = false) ∧
  (∀ k1 k2 v, active s !! k1 = Some v → active s !! k2 = Some v → k1 = k2).
Proof.
  intros Hreach.
  destruct (reachable_invariant Math_pow s Hreach)
    as [_ (Hlive & Hinj & Htab & _)].
  split; [|split; [exact Hlive|exact Hinj]].
  intros v Hv. destruct (fading (engine s) v) eqn:Hf; [by right|].
  left. by apply Htab.
Qed.

(** X7.  A stop that a release scheduled fires.  The voice it stops is in
    no slot of the table: the table, the held set and the pool stay as
    they are, the voice no longer sounds, no other voice is touched, and
    the timer is gone from the queue. *)
Theorem stop_timer_fires s i t u :
  reachable Math_pow s →
  timers (engine s) !! i = Some t → callback t = StopVoice u →
  let s' := handle Math_pow (TimerFires i) s in
  (∀ k, active s !! k ≠ Some u) ∧
  active s' = active s ∧ heldKeys s' = heldKeys s ∧
  sustainPool s' = sustainPool s ∧
  sounding (engine s') u = false ∧
  (∀ v, v ≠ u → voices (engine s') !! v = voices (engine s) !! v) ∧
  timers (engine s') = delete i (timers (engine s)).
Proof.
  intros Hreach Hi Hcb s'.
  destruct (reachable_invariant Math_pow s Hreach) as [_ (Hlive & _)].
  assert (s' = set_engine (stopVoiceNow u (clearTimer i (engine s))) s) as ->.
  { unfold s'. simpl. unfold fire. by rewrite Hi, Hcb. }
  simpl. split; [|split; [done|split; [done|split; [done|split; [|split]]]]].
  - intros k Hk. destruct (Hlive k u Hk) as [_ Hf].
    by rewrite (fading_timer _ _ _ _ Hi Hcb) in Hf.
  - rewrite sounding_stopVoiceNow. by rewrite decide_True.
  - intros v Hne. by apply list_lookup_alter_ne.
  - done.
Qed.

(** X8.  The sustain-safe build when the page is hidden, left or turned.
    The page being hidden and the page being left empty the table and the
    pool at once; the page becoming visible changes nothing; a change of
    orientation only queues a call, 200 ms ahead, and when that call runs
    it empties them.  In each case no live voice is left, whatever the
    pedal says. *)
Theorem silence_on_leaving s :
  reachable Math_pow s →
  (∀ ev, ev ∈ [VisibilityChange true; BeforeUnload] →
     let s' := handle Math_pow ev s in
     active s' = ∅ ∧ sustainPool s' = ∅ ∧ ∀ v, ¬ live (engine s') v) ∧
  handle Math_pow (VisibilityChange false) s = s ∧
  let s1 := handle Math_pow OrientationChange s in
  let s2 := handle Math_pow (TimerFires (length (timers (engine s)))) s1 in
  active s1 = active s ∧ voices (engine s1) = voices (engine s) ∧
  timers (engine s1)
  = timers (engine s) ++ [{| callback := Silence; delay := 200 |}] ∧
  active s2 = ∅ ∧ sustainPool s2 = ∅ ∧ ∀ v, ¬ live (engine s2) v.
Proof.
  intros Hreach.
  assert (∀ s0, reachable Math_pow s0 →
            active (forceAllOff s0) = ∅ ∧ sustainPool (forceAllOff s0) = ∅ ∧
            ∀ v, ¬ live (engine (forceAllOff s0)) v) as Hall.
  { intros s0 Hs0.
    destruct (reachable_invariant Math_pow s0 Hs0) as [_ Hsound].
    apply table_sound_forceAllOff in Hsound.
    split; [apply forceAllOff_active|]. split; [done|].
    intros v Hv. destruct Hsound as (_ & _ & Htab & _).
    destruct (Htab v Hv) as [k Hk].
    by rewrite forceAllOff_active, lookup_empty in Hk. }
  split; [|split; [done|]].
  - intros ev Hev s'. unfold s'.
    repeat (apply elem_of_cons in Hev as [->|Hev]);
      [by apply Hall..|by apply elem_of_nil in Hev].
  - intros s1 s2. split; [done|]. split; [done|]. split; [done|].
    assert (s2 = forceAllOff s) as ->; [|by apply Hall].
    unfold s2, s1. simpl. unfold fire. simpl.
    rewrite list_lookup_middle by done. simpl. unfold forceSilence.
    f_equal. destruct s as [[t g vs ts] ? ? ? ? ? ? ?].
    unfold set_engine, clearTimer, setTimeout. simpl.
    rewrite (delete_middle ts []). by rewrite app_nil_r.
Qed.
End SustainSafeStates.

(** ** The sustain-safe build: one key at a time *)

Section SustainSafeFrame.
Import Audio Page SustainSafe.
Variable Math_pow : float → float → float.
Implicit Types (s : Piano) (k key : string) (v u : nat).

(** X12.  In the sustain-safe build, striking, releasing or forcing off
    one key leaves every other key alone: its entry in the table, its
    voice object, its place in the held set and in the pool are as they
    were, and its voice is still live. *)
Theorem other_keys_undisturbed s k k' v' f vel :
  reachable Math_pow s → k' ≠ k → active s !! k' = Some v' →
  Forall (λ s', active s' !! k' = Some v' ∧
                voices (engine s') !! v' = voices (engine s) !! v' ∧
                live (engine s') v' ∧
                (k' ∈ heldKeys s' ↔ k' ∈ heldKeys s) ∧
                (k' ∈ sustainPool s' ↔ k' ∈ sustainPool s))
         [noteOn k f vel s; noteOff k s; forceOff k s].
Proof.
  intros Hreach Hne Hk'.
  destruct (reachable_invariant Math_pow s Hreach) as [_ Hsound].
  pose proof Hsound as (Hlive & Hinj & _).
  pose proof (sound_lookup_lt _ _ _ _ Hsound Hk') as Hlt.
  assert (∀ v, active s !! k = Some v → v ≠ v') as Hother.
  { intros v Hv ->. by apply Hne, (Hinj _ _ v'). }
  assert (∀ rel v, active s !! k = Some v →
            voices (fade_out rel v (engine s)) !! v'
            = voices (engine s) !! v') as Hfade.
  { intros rel v Hv. unfold fade_out. simpl.
    apply list_lookup_alter_ne. by apply Hother. }
  apply Forall_cons_2; [|apply Forall_cons_2; [|apply Forall_cons_2;
    [|apply Forall_nil_2]]].
  - pose proof (table_sound_noteOn k f vel s Hsound) as (Hlive' & _).
    assert (active (noteOn k f vel s) !! k' = Some v') as Hk.
    { rewrite noteOn_active. by rewrite lookup_insert_ne. }
    split; [done|]. split; [|split; [by apply (Hlive' k')|]].
    + rewrite noteOn_engine.
      destruct (active s !! k) as [prev|] eqn:Hprev;
        unfold start_voice, stopVoiceNow; simpl.
      * rewrite lookup_app_l by (by rewrite length_alter).
        apply list_lookup_alter_ne. by apply Hother.
      * by rewrite lookup_app_l.
    + by destruct (noteOn_sets k f vel s) as (-> & -> & _).
  - pose proof (table_sound_noteOff k s Hsound) as (Hlive' & _).
    destruct (active s !! k) as [v|] eqn:Hv.
    + destruct (sustain s) eqn:Hsus.
      * rewrite (noteOff_sustained k v) in Hlive' |- * by done. simpl.
        split; [done|]. split; [done|]. split; [by apply (Hlive k')|].
        split; [done|]. set_solver.
      * rewrite (noteOff_released k v) in Hlive' |- * by done. simpl.
        assert (delete k (active s) !! k' = Some v') as Hk
          by by rewrite lookup_delete_ne.
        split; [done|]. split; [by apply Hfade|].
        split; [by apply (Hlive' k')|done].
    + rewrite noteOff_absent by done.
      split; [done|]. split; [done|]. split; [by apply (Hlive k')|done].
  - pose proof (table_sound_forceOff k s Hsound) as (Hlive' & _).
    destruct (active s !! k) as [v|] eqn:Hv.
    + rewrite (forceOff_present k v) in Hlive' |- * by done. simpl.
      assert (delete k (active s) !! k' = Some v') as Hk
        by by rewrite lookup_delete_ne.
      split; [done|]. split; [by apply Hfade|].
      split; [by apply (Hlive' k')|]. split; set_solver.
    + rewrite forceOff_absent by done.
      split; [done|]. split; [done|]. split; [by apply (Hlive k')|done].
Qed.
End SustainSafeFrame.

(** ** The sustain-safe build: a press and its release *)

Section SustainSafeGestures.
Import Audio Page SustainSafe Gesture.
Variable Math_pow : float → float → float.
Implicit Types (s : Piano) (k key : string) (v u : nat).


Lemma resume_frame s :
  engine (resume s) = engine s ∧ active (resume s) = active s ∧
  heldKeys (resume s) = heldKeys s ∧
  sustain (resume s) = sustain s ∧
  sustainPool (resume s) = sustainPool s ∧
  state (resume s) = state s ∧ page (resume s) = page s.
Proof. unfold resume. by destruct (started s). Qed.

Lemma strike_effect key f vel s :
  let s1 := strike key f vel s in
  active s1 = <[key := length (voices (engine s))]> (active s) ∧
  heldKeys s1 = {[key]} ∪ heldKeys s ∧ sustain s1 = sustain s ∧
  sustainPool s1 = sustainPool s ∧ state s1 = state s ∧ page s1 = page s.
Proof.
  cbv zeta. unfold strike. rewrite noteOn_active.
  by destruct (noteOn_sets key f vel
                 (set_heldKeys ({[key]} ∪ heldKeys s) s))
    as (-> & -> & -> & -> & -> & _).
Qed.

Lemma let_go_released key v s :
  active s !! key = Some v → sustain s = false →
  let_go key s =
  set_active (delete key (active s))
    (set_engine (fade_out (release (state s)) v (engine s))
       (set_heldKeys (heldKeys s ∖ {[key]}) s)).
Proof. intros Hk Hs. unfold let_go. by rewrite (noteOff_released key v). Qed.

Lemma let_go_sustained key v s :
  active s !! key = Some v → sustain s = true →
  let_go key s =
  set_sustainPool ({[key]} ∪ sustainPool s)
    (set_heldKeys (heldKeys s ∖ {[key]}) s).
Proof. intros Hk Hs. unfold let_go. by rewrite (noteOff_sustained key v). Qed.

(** A press followed by the release of the same key. *)
Lemma strike_let_go key f vel s :
  table_sound s → consistent s →
  let v := length (voices (engine s)) in
  let s1 := strike key f vel s in
  let s2 := let_go key s1 in
  (active s1 = <[key := v]> (active s) ∧
   heldKeys s1 = {[key]} ∪ heldKeys s ∧ live (engine s1) v) ∧
  (sustain s = false →
     active s2 = delete key (active s) ∧
     heldKeys s2 = heldKeys s ∖ {[key]} ∧ sustainPool s2 = ∅ ∧
     sounding (engine s2) v = true ∧ fading (engine s2) v = true) ∧
  (sustain s = true →
     active s2 = <[key := v]> (active s) ∧
     heldKeys s2 = heldKeys s ∖ {[key]} ∧
     sustainPool s2 = {[key]} ∪ sustainPool s ∧ engine s2 = engine s1).
Proof.
  intros Hsound (_ & _ & _ & Hup) v s1 s2.
  destruct (strike_effect key f vel s) as (Ha & Hh & Hs & Hp & Hst & _).
  fold s1 in Ha, Hh, Hs, Hp, Hst.
  assert (table_sound s1) as Hsound1.
  { unfold s1, strike. by apply table_sound_noteOn. }
  assert (active s1 !! key = Some v) as Hk.
  { rewrite Ha. apply lookup_insert_eq. }
  destruct Hsound1 as (Hlive & _).
  pose proof (Hlive key v Hk) as Hv. clearbody s1.
  split; [done|]. split; intros Hsus.
  - unfold s2. rewrite (let_go_released key v) by congruence. simpl.
    rewrite Ha, Hh, Hp, delete_insert_eq, sounding_fade_out.
    split; [done|]. split; [set_solver|]. split; [by apply Hup|].
    split; [apply Hv|]. apply fading_fade_out_true. by right.
  - unfold s2. rewrite (let_go_sustained key v) by congruence. simpl.
    rewrite Ha, Hh, Hp. split; [done|]. split; [set_solver|]. done.
Qed.

Lemma activate_strike note rect e s :
  activate Math_pow note rect e s =
  strike (Pitch.key_of (Pitch.noteToMidi note))
    (Pitch.midiToFreq Math_pow (Pitch.noteToMidi note))
    (getVelocity (state s) rect e) (resume s).
Proof. unfold activate, strike, resume. by destruct (started s). Qed.

Lemma keydown_strike e s semis :
  targetTag e ∉ ["INPUT"; "SELECT"; "TEXTAREA"]%string →
  repeat e = false → KEY_MAP !! key e = Some semis →
  let midi := (baseOct (state s) + (if shiftKey e then 1 else 0) + 1) * 12
              + semis in
  template (Pitch.midiToNote midi) ∈ page s →
  keydown Math_pow e s =
  strike (Pitch.key_of (Some midi)) (Pitch.midiToFreq Math_pow (Some midi))
    0.95 (resume s).
Proof.
  intros Htag Hrep Hkey midi Hpage. unfold keydown.
  rewrite bool_decide_eq_false_2 by done. rewrite Hrep.
  destruct (String.eqb_spec (key e) "Z") as [HZ|_].
  { rewrite HZ in Hkey. by vm_compute in Hkey. }
  destruct (String.eqb_spec (key e) "X") as [HX|_].
  { rewrite HX in Hkey. by vm_compute in Hkey. }
  rewrite Hkey. fold midi. rewrite bool_decide_eq_true_2 by done.
  unfold strike, resume. by destruct (started s).
Qed.

Lemma resume_sound s :
  table_sound s → consistent s →
  table_sound (resume s) ∧ consistent (resume s).
Proof. unfold resume. by destruct (started s). Qed.

Lemma sounding_forceOff k s u :
  sounding (engine (forceOff k s)) u = sounding (engine s) u.
Proof.
  destruct (active s !! k) as [w|] eqn:Hk.
  - rewrite (forceOff_present k w) by done. simpl. apply sounding_fade_out.
  - by rewrite forceOff_absent.
Qed.

Lemma sounding_force_each l s u :
  sounding (engine (force_each l s)) u = sounding (engine s) u.
Proof.
  unfold force_each. revert s.
  induction l as [|a l IH]; intros s; [done|].
  cbn [foldl]. by rewrite IH, sounding_forceOff.
Qed.

(** X9.  A pointer gesture on a key element of the sustain-safe build.  A
    press (pointer down, or entering with a button down) holds the key and
    gives it a new, live voice.  The element's release listener is all
    that runs on pointer cancel and on leaving with the main button down:
    with the pedal up it takes the key out of the table and out of the held
    set and starts the fade of that voice; with the pedal down the voice
    stays as it is and the key moves from the held set to the pool.  A
    pointer up runs the element's listener and then, bubbling, the one on
    [window], which forces every key off: whatever the pedal says the
    table, the held set and the pool end up empty, the voice has its stop
    pending, and no live voice is left. *)
Theorem pointer_press_release s note rect e down :
  reachable Math_pow s →
  down = KeyPointerDown note rect e ∨
  (down = KeyPointerEnter note rect e ∧ buttons e ≠ 0) →
  let k := Pitch.key_of (Pitch.noteToMidi note) in
  let v := length (voices (engine s)) in
  let s1 := handle Math_pow down s in
  (active s1 = <[k := v]> (active s) ∧
   heldKeys s1 = {[k]} ∪ heldKeys s ∧ live (engine s1) v) ∧
  (∀ up,
     up = KeyPointerCancel note ∨
     (∃ e', up = KeyPointerLeave note e' ∧ buttons e' = 1) →
     let s2 := handle Math_pow up s1 in
     (sustain s = false →
        active s2 = delete k (active s) ∧
        heldKeys s2 = heldKeys s ∖ {[k]} ∧ sustainPool s2 = ∅ ∧
        sounding (engine s2) v = true ∧ fading (engine s2) v = true) ∧
     (sustain s = true →
        active s2 = <[k := v]> (active s) ∧
        heldKeys s2 = heldKeys s ∖ {[k]} ∧
        sustainPool s2 = {[k]} ∪ sustainPool s ∧ engine s2 = engine s1)) ∧
  (let s2 := run Math_pow [KeyPointerUp note; WindowPointerUp] s1 in
   active s2 = ∅ ∧ heldKeys s2 = ∅ ∧ sustainPool s2 = ∅ ∧
   sounding (engine s2) v = true ∧ fading (engine s2) v = true ∧
   ∀ u, ¬ live (engine s2) u).
Proof.
  intros Hreach Hdown k v s1.
  destruct (reachable_invariant Math_pow s Hreach) as [Hc Hsound].
  destruct (resume_sound s Hsound Hc) as [Hsound0 Hc0].
  destruct (resume_frame s) as (He & Ha & Hh & Hs & Hp & Hst & _).
  assert (s1 = activate Math_pow note rect (Some e) s) as Hs1.
  { unfold s1. destruct Hdown as [->|[-> Hb]]; [done|]. simpl.
    by rewrite bool_decide_eq_true_2. }
  assert (reachable Math_pow (deactivate note s1)) as Hreach2.
  { apply (reachable_handle Math_pow (KeyPointerUp note)).
    by apply reachable_handle. }
  pose proof (strike_let_go k
                (Pitch.midiToFreq Math_pow (Pitch.noteToMidi note))
                (getVelocity (state s) rect (Some e)) (resume s)
                Hsound0 Hc0) as Hpl.
  cbv zeta in Hpl. rewrite He, Ha, Hh, Hs, Hp in Hpl.
  unfold k in Hpl.
  rewrite <- (activate_strike note rect (Some e) s), <- Hs1 in Hpl.
  change (let_go (Pitch.key_of (Pitch.noteToMidi note)) s1)
    with (deactivate note s1) in Hpl.
  fold k in Hpl.
  clearbody s1. destruct Hpl as (Hpress & Hup & Hdn).
  split; [exact Hpress|]. split.
  - intros up Hcase s2.
    assert (s2 = deactivate note s1) as ->; [|by split].
    unfold s2. destruct Hcase as [->|(e' & -> & Hb)]; [done|]. simpl.
    by rewrite bool_decide_eq_true_2.
  - intros s2.
    assert (s2 = forceAllOff (deactivate note s1)) as -> by done.
    set (s' := deactivate note s1) in *.
    destruct (reachable_invariant Math_pow s' Hreach2)
      as [(_ & _ & Hheld & _) Hsound'].
    pose proof (table_sound_forceAllOff s' Hsound') as (_ & _ & Htab & _).
    split; [apply forceAllOff_active|].
    split; [rewrite forceAllOff_heldKeys; set_solver|]. split; [done|].
    assert (sounding (engine s') v = true ∧
            (fading (engine s') v = true ∨ active s' !! k = Some v))
      as [Hsnd Hfad].
    { destruct (sustain s) eqn:Hsus.
      - destruct (Hdn eq_refl) as (Ha2 & _ & _ & He2).
        rewrite He2. split; [apply Hpress|]. right.
        rewrite Ha2. apply lookup_insert_eq.
      - destruct (Hup eq_refl) as (_ & _ & _ & Hsnd & Hfad).
        split; [done|by left]. }
    split; [|split].
    + unfold forceAllOff. simpl. by rewrite sounding_force_each.
    + unfold forceAllOff. simpl. destruct Hfad as [Hfad|Hk].
      * by apply fading_force_each.
      * apply (force_each_fades _ _ k); [|done].
        apply elem_of_keys_snapshot, elem_of_dom. eauto.
    + intros u Hu. destruct (Htab u Hu) as [k' Hk'].
      by rewrite forceAllOff_active, lookup_empty in Hk'.
Qed.

(** X10.  The same gesture on the computer keyboard, in the sustain-safe
    build: a mapped key goes down (not a repeat, not in a form field, its
    note on the page) and comes up with Shift and the base octave as they
    were.  The key-down holds the key ['m'+midi] and gives it a new, live
    voice; the key-up releases that same key: with the pedal up the voice
    fades and the key leaves the table and the held set, with the pedal
    down the voice stays and the key is pooled. *)
Theorem key_press_release s e e' semis :
  reachable Math_pow s →
  targetTag e ∉ ["INPUT"; "SELECT"; "TEXTAREA"]%string →
  repeat e = false → KEY_MAP !! key e = Some semis →
  let midi := (baseOct (state s) + (if shiftKey e then 1 else 0) + 1) * 12
              + semis in
  template (Pitch.midiToNote midi) ∈ page s →
  key e' = key e → shiftKey e' = shiftKey e →
  let k := Pitch.key_of (Some midi) in
  let v := length (voices (engine s)) in
  let s1 := handle Math_pow (KeyDown e) s in
  let s2 := handle Math_pow (KeyUp e') s1 in
  (active s1 = <[k := v]> (active s) ∧
   heldKeys s1 = {[k]} ∪ heldKeys s ∧ live (engine s1) v) ∧
  (sustain s = false →
     active s2 = delete k (active s) ∧
     heldKeys s2 = heldKeys s ∖ {[k]} ∧ sustainPool s2 = ∅ ∧
     sounding (engine s2) v = true ∧ fading (engine s2) v = true) ∧
  (sustain s = true →
     active s2 = <[k := v]> (active s) ∧
     heldKeys s2 = heldKeys s ∖ {[k]} ∧
     sustainPool s2 = {[k]} ∪ sustainPool s ∧ engine s2 = engine s1).
Proof.
  intros Hreach Htag Hrep Hkey midi Hpage Hk' Hshift k v s1 s2.
  destruct (reachable_invariant Math_pow s Hreach) as [Hc Hsound].
  destruct (resume_sound s Hsound Hc) as [Hsound0 Hc0].
  destruct (resume_frame s) as (He & Ha & Hh & Hs & Hp & Hst & _).
  assert (s1 = strike k (Pitch.midiToFreq Math_pow (Some midi)) 0.95
                 (resume s)) as Hs1.
  { unfold s1. simpl. by rewrite (keydown_strike e s semis). }
  assert (state s1 = state s) as Hstate.
  { rewrite Hs1.
    destruct (strike_effect k (Pitch.midiToFreq Math_pow (Some midi)) 0.95
                (resume s)) as (_ & _ & _ & _ & -> & _).
    done. }
  assert (s2 = let_go k s1) as Hs2.
  { unfold s2. simpl. unfold keyup. rewrite Hk', Hkey, Hshift, Hstate.
    done. }
  rewrite Hs2, Hs1.
  pose proof (strike_let_go k (Pitch.midiToFreq Math_pow (Some midi)) 0.95
                (resume s) Hsound0 Hc0) as Hpl.
  cbv zeta in Hpl. rewrite He, Ha, Hh, Hs, Hp in Hpl. exact Hpl.
Qed.

Lemma key_of_inj m m' :
  Pitch.key_of (Some m) = Pitch.key_of (Some m') → m = m'.
Proof.
  unfold Pitch.key_of. intros Heq. simpl in Heq.
  injection Heq as Heq. by apply pretty_Z_inj in Heq.
Qed.

(** X11.  The key-up listener releases the key it computes from the base
    octave at that moment, not the key that went down.  When a mapped key
    goes down, then Z lowers the base octave, and then the key comes up,
    the key-up changes nothing, provided the key an octave below has no
    voice: the voice of the key that went down stays in the table, held and
    live. *)
Theorem keyup_after_octave_down s e z semis :
  reachable Math_pow s →
  targetTag e ∉ ["INPUT"; "SELECT"; "TEXTAREA"]%string →
  repeat e = false → KEY_MAP !! key e = Some semis →
  let midi := (baseOct (state s) + (if shiftKey e then 1 else 0) + 1) * 12
              + semis in
  template (Pitch.midiToNote midi) ∈ page s →
  targetTag z ∉ ["INPUT"; "SELECT"; "TEXTAREA"]%string →
  repeat z = false → key z = "Z"%string →
  2 < baseOct (state s) →
  active s !! Pitch.key_of (Some (midi - 12)) = None →
  let k := Pitch.key_of (Some midi) in
  let v := length (voices (engine s)) in
  let s2 := run Math_pow [KeyDown e; KeyDown z] s in
  let s3 := handle Math_pow (KeyUp e) s2 in
  s3 = s2 ∧ active s3 !! k = Some v ∧ k ∈ heldKeys s3 ∧ live (engine s3) v.
Proof.
  intros Hreach Htag Hrep Hkey midi Hpage Hztag Hzrep Hz Hoct Hlow k v s2 s3.
  destruct (reachable_invariant Math_pow s Hreach) as [Hc Hsound].
  destruct (resume_sound s Hsound Hc) as [Hsound0 Hc0].
  destruct (resume_frame s) as (He & Ha & Hh & Hs & Hp & Hst & _).
  remember (strike k (Pitch.midiToFreq Math_pow (Some midi)) 0.95
              (resume s)) as s1 eqn:Es1.
  destruct (strike_effect k (Pitch.midiToFreq Math_pow (Some midi)) 0.95
              (resume s)) as (Ha1 & Hh1 & _ & _ & Hst1 & _).
  destruct (strike_let_go k (Pitch.midiToFreq Math_pow (Some midi)) 0.95
              (resume s) Hsound0 Hc0) as ((_ & _ & Hlive) & _).
  rewrite <- Es1 in Ha1, Hh1, Hst1, Hlive. rewrite He in Ha1, Hlive.
  rewrite Ha in Ha1. rewrite Hh in Hh1. rewrite Hst in Hst1.
  fold v in Ha1, Hlive.
  assert (s2 = set_state (with_baseOct (baseOct (state s) - 1) (state s))
                 true s1) as Hs2.
  { unfold s2. simpl. rewrite (keydown_strike e s semis) by done.
    fold midi k. rewrite <- Es1. unfold keydown.
    rewrite bool_decide_eq_false_2 by done. rewrite Hzrep, Hz. simpl.
    rewrite Hst1. by rewrite Z.max_r by lia. }
  assert (k ≠ Pitch.key_of (Some (midi - 12))) as Hne.
  { intros Heq. apply key_of_inj in Heq. lia. }
  assert (Pitch.key_of (Some (midi - 12)) ∉ heldKeys s) as Hfree.
  { destruct Hc as (_ & _ & Hheld & _). intros Hin%Hheld.
    by apply not_elem_of_dom in Hlow. }
  assert (s3 = s2) as Hs3.
  { unfold s3. simpl. unfold keyup. rewrite Hkey.
    replace ((baseOct (state s2) + (if shiftKey e then 1 else 0) + 1) * 12
             + semis) with (midi - 12)
      by (rewrite Hs2; simpl; unfold midi; lia).
    rewrite set_heldKeys_same.
    - apply noteOff_absent. rewrite Hs2. simpl. rewrite Ha1.
      by rewrite lookup_insert_ne.
    - rewrite Hs2. simpl. rewrite Hh1. set_solver. }
  rewrite Hs3, Hs2. simpl. rewrite Ha1, Hh1.
  split; [done|]. split; [apply lookup_insert_eq|]. split; [set_solver|done].
Qed.
End SustainSafeGestures.

(** ** The key elements of the page *)

Section PageFacts.
Import Pitch Page.

#[local] Instance JsValue_eq_dec : EqDecision JsValue.
Proof. solve_decision. Defined.

(** The twelve key elements of one octave. *)
Lemma octave_notes (q : Z) :
  0 ≤ q ≤ 9 →
  noteToMidi <$> ((λ n, n +:+ pretty q) <$> NAMES)
  = Some <$> seqZ (12 * (q + 1)) 12 ∧
  JsString <$> ((λ n, n +:+ pretty q) <$> NAMES)
  = midiToNote <$> seqZ (12 * (q + 1)) 12.
Proof.
  intros Hq.
  assert (Forall (λ q, noteToMidi <$> ((λ n, n +:+ pretty q) <$> NAMES)
                       = Some <$> seqZ (12 * (q + 1)) 12 ∧
                       JsString <$> ((λ n, n +:+ pretty q) <$> NAMES)
                       = midiToNote <$> seqZ (12 * (q + 1)) 12)
                 (seqZ 0 10)) as Hall.
  { apply (bool_decide_unpack _). vm_compute. exact I. }
  rewrite Forall_forall in Hall. apply Hall, elem_of_seqZ. lia.
Qed.

Lemma octaves_bind {X} (b : Z) (n : nat) (g : Z → list X) (h : Z → X) :
  (∀ o, 0 ≤ o < Z.of_nat n → g o = h <$> seqZ (12 * (b + o + 1)) 12) →
  seqZ 0 (Z.of_nat n) ≫= g = h <$> seqZ (12 * (b + 1)) (12 * Z.of_nat n).
Proof.
  induction n as [|n IH]; intros Hg; [done|].
  rewrite seqZ_S, bind_app, IH by (intros o Ho; apply Hg; lia).
  simpl. rewrite app_nil_r, Hg by lia.
  replace (12 * Z.of_nat (S n)) with (12 * Z.of_nat n + 12) by lia.
  rewrite seqZ_app, fmap_app by lia.
  do 3 f_equal. lia.
Qed.

Lemma fmap_bind {A B C} (f : B → C) (g : A → list B) (l : list A) :
  f <$> (l ≫= g) = l ≫= (λ x, f <$> g x).
Proof.
  induction l as [|x l IH]; [done|].
  by rewrite !bind_cons, fmap_app, IH.
Qed.

(** The names of the [notes] array, octave by octave. *)
Lemma notes_octaves (p : Params) :
  (notes p).*1 =
  seqZ 0 (Z.of_nat (Z.to_nat (octaves p))) ≫=
    (λ o, (λ n, n +:+ pretty (baseOct p + o)) <$> NAMES).
Proof.
  assert ((notes p).*1 =
          seqZ 0 (octaves p) ≫=
            (λ o, (λ n, n +:+ pretty (baseOct p + o)) <$> NAMES)) as ->.
  { unfold notes. rewrite fmap_bind. f_equal. }
  destruct (decide (0 ≤ octaves p)).
  - by rewrite Z2Nat.id.
  - rewrite !seqZ_nil; [done|lia..].
Qed.

(** From octave 0 to octave 9 every entry of the [notes] array gets its
    element: the page lists the names of the array. *)
Lemma buildPiano_notes (p : Params) :
  0 ≤ baseOct p → baseOct p + octaves p ≤ 10 →
  buildPiano p = (notes p).*1.
Proof.
  intros Hb Hn. destruct (decide (octaves p ≤ 0)) as [Hle|Hpos].
  { unfold buildPiano, notes. by rewrite seqZ_nil by lia. }
  assert (Forall (λ bn, buildPiano
                          (with_octaves bn.2 (with_baseOct bn.1 defaults))
                        = (notes (with_octaves bn.2
                                    (with_baseOct bn.1 defaults))).*1)
                 (b ← seqZ 0 10; n ← seqZ 1 (10 - b); [(b, n)])) as Hall.
  { apply (bool_decide_unpack _). vm_compute. exact I. }
  rewrite Forall_forall in Hall.
  apply (Hall (baseOct p, octaves p)).
  apply list_elem_of_bind. exists (baseOct p).
  split; [|apply elem_of_seqZ; lia].
  apply list_elem_of_bind. exists (octaves p). split; [by left|].
  apply elem_of_seqZ. lia.
Qed.

(** Below octave 0 the sharps get no element: the name looked up lacks the
    sign.  With the octaves -1, 0 and 1 on the page, the sharps of octave 1
    get a second element each, made after the white notes of octave -1. *)
Lemma buildPiano_negative_octave :
  buildPiano (with_octaves 1 (with_baseOct (-1) defaults))
  = ["C-1"; "D-1"; "E-1"; "F-1"; "G-1"; "A-1"; "B-1"]%string ∧
  take 4 (buildPiano (with_octaves 3 (with_baseOct (-1) defaults)))
  = ["C-1"; "C#1"; "D-1"; "D#1"]%string.
Proof. split; vm_compute; reflexivity. Qed.

(** The notes of the page have the consecutive MIDI numbers from the C of
    the base octave on. *)
Lemma buildPiano_midis (p : Params) :
  0 ≤ baseOct p → baseOct p + octaves p ≤ 10 →
  noteToMidi <$> buildPiano p
  = Some <$> seqZ (12 * (baseOct p + 1)) (12 * octaves p) ∧
  JsString <$> buildPiano p
  = midiToNote <$> seqZ (12 * (baseOct p + 1)) (12 * octaves p).
Proof.
  intros Hb Htop.
  assert (seqZ (12 * (baseOct p + 1)) (12 * octaves p)
          = seqZ (12 * (baseOct p + 1))
              (12 * Z.of_nat (Z.to_nat (octaves p)))) as ->.
  { destruct (decide (0 ≤ octaves p)).
    - by rewrite Z2Nat.id.
    - rewrite !seqZ_nil; [done|lia..]. }
  rewrite buildPiano_notes, notes_octaves, !fmap_bind by done.
  split; apply octaves_bind; intros o Ho; cbv beta.
  - by destruct (octave_notes (baseOct p + o)) as [-> _]; [lia|].
  - by destruct (octave_notes (baseOct p + o)) as [_ ->]; [lia|].
Qed.

(** X13.  The key elements [buildPiano] makes, for a base octave of 0 or
    more and a top octave of 9 or less.  In the order of the [notes] array
    their notes have the consecutive MIDI numbers from the C of the base
    octave on, [midiToNote] gives each note back, and no two elements
    share a key of the table. *)
Theorem page_keys_chromatic (p : Params) :
  0 ≤ baseOct p → baseOct p + octaves p ≤ 10 →
  let midis := seqZ (12 * (baseOct p + 1)) (12 * octaves p) in
  noteToMidi <$> buildPiano p = Some <$> midis ∧
  JsString <$> buildPiano p = midiToNote <$> midis ∧
  NoDup (key_of <$> (noteToMidi <$> buildPiano p)).
Proof.
  intros Hb Htop midis.
  destruct (buildPiano_midis p Hb Htop) as [Hmidi Hnote].
  split; [done|]. split; [done|].
  rewrite Hmidi, <- list_fmap_compose.
  apply NoDup_fmap_2; [|apply NoDup_seqZ].
  intros m m' Heq. simpl in Heq. injection Heq as Heq.
  by apply pretty_Z_inj in Heq.
Qed.

Lemma digit_value_range (o : ascii) :
  is_digit o = true → 0 ≤ digit_value o ≤ 9.
Proof.
  destruct o as [[] [] [] [] [] [] [] []]; intros H; try discriminate H;
    vm_compute; split; discriminate.
Qed.

Lemma base_table_range (L : ascii) (b : Z) :
  base_table L = Some b → 0 ≤ b ≤ 11.
Proof. unfold base_table. repeat case_match; intros [= <-]; lia. Qed.

(** X14.  The numbers [noteToMidi] returns.  A letter and a digit give a
    number from 12 to 131; a sharp between them adds one and a flat takes
    one away, so that every number returned lies between 11 and 132. *)
Theorem noteToMidi_values :
  (∀ note m, noteToMidi note = Some m → 11 ≤ m ≤ 132) ∧
  (∀ L o m,
     noteToMidi (String L (String o "")) = Some m →
     12 ≤ m ≤ 131 ∧
     noteToMidi (String L (String "#" (String o ""))) = Some (m + 1) ∧
     noteToMidi (String L (String "b" (String o ""))) = Some (m - 1)).
Proof.
  split.
  - intros note m. unfold noteToMidi.
    destruct (note_match note) as [[[L acc] o]|] eqn:Hm; [|done].
    destruct (base_table L) as [b|] eqn:Hb; [|done]. simpl.
    intros [= <-]. apply base_table_range in Hb.
    assert (is_digit o = true) as Ho.
    { destruct note as [|c1 [|c2 [|c3 [|c4 rest]]]]; simpl in Hm; try done.
      - destruct (is_letter c1), (is_digit c2) eqn:Hd; simpl in Hm;
          try done. by injection Hm as _ _ <-.
      - destruct (is_letter c1), (is_accidental c2), (is_digit c3) eqn:Hd;
          simpl in Hm; try done. by injection Hm as _ _ <-. }
    apply digit_value_range in Ho.
    assert (-1 ≤ accidental_shift acc ≤ 1).
    { unfold accidental_shift. repeat case_match; lia. }
    lia.
  - intros L o m. unfold noteToMidi, note_match.
    destruct (is_letter L), (is_digit o) eqn:Ho; simpl; try done.
    destruct (base_table L) as [b|] eqn:Hb; [|done]. simpl.
    intros [= <-]. apply base_table_range in Hb.
    apply digit_value_range in Ho.
    split; [lia|]. split; f_equal; lia.
Qed.
End PageFacts.

Section OctaveKeys.
Import Audio Page SustainSafe.
Variable Math_pow : float → float → float.

(** X15.  The keys Z and X of the sustain-safe build, pressed outside a
    form field.  They move the base octave one step down or up and keep it
    between 2 and 6, rebuild the page, and leave the table, the audio
    graph, the held set and the pool as they are; with at most four
    octaves every key element of the rebuilt page has its MIDI number. *)
Theorem octave_keys (e : KeyboardEvent) (s : Piano) :
  targetTag e ∉ ["INPUT"; "SELECT"; "TEXTAREA"]%string →
  repeat e = false → key e = "Z"%string ∨ key e = "X"%string →
  2 ≤ baseOct (state s) ≤ 6 → octaves (state s) ≤ 4 →
  let s' := keydown Math_pow e s in
  let b' := baseOct (state s') in
  (key e = "Z"%string → b' = Z.max 2 (baseOct (state s) - 1)) ∧
  (key e = "X"%string → b' = Z.min 6 (baseOct (state s) + 1)) ∧
  2 ≤ b' ≤ 6 ∧ octaves (state s') = octaves (state s) ∧
  page s' = buildPiano (state s') ∧
  Pitch.noteToMidi <$> page s'
  = Some <$> seqZ (12 * (b' + 1)) (12 * octaves (state s)) ∧
  active s' = active s ∧ engine s' = engine s ∧
  heldKeys s' = heldKeys s ∧ sustain s' = sustain s ∧
  sustainPool s' = sustainPool s.
Proof.
  intros Htag Hrep Hkey Hb Hn s' b'.
  assert (∃ b, 2 ≤ b ≤ 6 ∧
               (key e = "Z"%string → b = Z.max 2 (baseOct (state s) - 1)) ∧
               (key e = "X"%string → b = Z.min 6 (baseOct (state s) + 1)) ∧
               s' = set_state (with_baseOct b (state s)) true s)
    as (b & Hrange & HZ & HX & Hs').
  { unfold s', keydown. rewrite bool_decide_eq_false_2 by done.
    rewrite Hrep. destruct Hkey as [-> | ->]; simpl.
    - exists (Z.max 2 (baseOct (state s) - 1)). split; [lia|]. done.
    - exists (Z.min 6 (baseOct (state s) + 1)). split; [lia|]. done. }
  unfold b'. rewrite Hs'. simpl.
  destruct (buildPiano_midis (with_baseOct b (state s))) as [Hmidi _];
    [simpl; lia..|].
  done.
Qed.
End OctaveKeys.

(** ** Clamped numbers *)

Section Clamps.
Import PrimFloat JsMath.
Local Open Scope float_scope.

Lemma SFcompare_antisym (x y : SpecFloat.spec_float) :
  SpecFloat.SFcompare y x = option_map CompOpp (SpecFloat.SFcompare x y).
Proof.
  destruct x as [sx|sx| |sx mx ex], y as [sy|sy| |sy my ey]; simpl;
    try done; try (by destruct sx); try (by destruct sy);
    try (by destruct sx, sy).
  destruct sx, sy; simpl; try done.
  - rewrite (Z.compare_antisym ex ey).
    destruct (ex ?= ey)%Z; simpl; try done.
    rewrite (Pos.compare_cont_antisym mx my Eq). simpl.
    by destruct (Pos.compare_cont Eq mx my).
  - rewrite (Z.compare_antisym ex ey).
    destruct (ex ?= ey)%Z; simpl; try done.
    by rewrite (Pos.compare_cont_antisym mx my Eq).
Qed.

Lemma is_nan_compare (x y : float) :
  is_nan x = false → is_nan y = false →
  SpecFloat.SFcompare (Prim2SF x) (Prim2SF y) ≠ None.
Proof.
  unfold is_nan. rewrite !negb_false_iff, !FloatAxioms.eqb_spec.
  unfold SpecFloat.SFeqb.
  destruct (Prim2SF x) as [sx|sx| |sx mx ex],
           (Prim2SF y) as [sy|sy| |sy my ey]; simpl; try done.
Qed.

Lemma ltb_leb (x y : float) : (x <? y) = true → (x <=? y) = true.
Proof.
  rewrite FloatAxioms.ltb_spec, FloatAxioms.leb_spec.
  unfold SpecFloat.SFltb, SpecFloat.SFleb.
  by destruct (SpecFloat.SFcompare (Prim2SF x) (Prim2SF y)) as [[]|].
Qed.

Lemma not_ltb_leb (x y : float) :
  is_nan x = false → is_nan y = false →
  (x <? y) = false → (y <=? x) = true.
Proof.
  intros Hx Hy. pose proof (is_nan_compare x y Hx Hy) as Hc.
  rewrite FloatAxioms.ltb_spec, FloatAxioms.leb_spec.
  unfold SpecFloat.SFltb, SpecFloat.SFleb.
  rewrite (SFcompare_antisym (Prim2SF x) (Prim2SF y)).
  by destruct (SpecFloat.SFcompare (Prim2SF x) (Prim2SF y)) as [[]|].
Qed.

Lemma leb_refl (x : float) : is_nan x = false → (x <=? x) = true.
Proof.
  intros Hx. apply not_ltb_leb; [done..|].
  pose proof (is_nan_compare x x Hx Hx) as Hc.
  pose proof (SFcompare_antisym (Prim2SF x) (Prim2SF x)) as Ha.
  rewrite FloatAxioms.ltb_spec. unfold SpecFloat.SFltb.
  destruct (SpecFloat.SFcompare (Prim2SF x) (Prim2SF x)) as [[]|]; done.
Qed.

(** [Math.min(hi, x)] is [hi] or [x], and not above [hi]. *)
Lemma Math_min_upper (hi x : float) :
  is_nan hi = false → is_nan x = false →
  is_nan (Math_min hi x) = false ∧ (Math_min hi x <=? hi) = true ∧
  (Math_min hi x = hi ∨ Math_min hi x = x).
Proof.
  intros Hhi Hx. unfold Math_min. rewrite Hhi, Hx. simpl.
  destruct (hi <? x) eqn:H1.
  - split; [done|]. split; [by apply leb_refl|by left].
  - destruct (x <? hi) eqn:H2.
    + split; [done|]. split; [by apply ltb_leb|by right].
    + destruct (get_sign hi).
      * split; [done|]. split; [by apply leb_refl|by left].
      * split; [done|]. split; [by apply not_ltb_leb|by right].
Qed.

(** [Math.max(lo, y)] is [lo] or [y], and not below [lo]. *)
Lemma Math_max_lower (lo y : float) :
  is_nan lo = false → is_nan y = false →
  is_nan (Math_max lo y) = false ∧ (lo <=? Math_max lo y) = true ∧
  (Math_max lo y = lo ∨ Math_max lo y = y).
Proof.
  intros Hlo Hy. unfold Math_max. rewrite Hlo, Hy. simpl.
  destruct (lo <? y) eqn:H1.
  - split; [done|]. split; [by apply ltb_leb|by right].
  - destruct (y <? lo) eqn:H2.
    + split; [done|]. split; [by apply leb_refl|by left].
    + destruct (get_sign lo).
      * split; [done|]. split; [by apply not_ltb_leb|by right].
      * split; [done|]. split; [by apply leb_refl|by left].
Qed.

(** [Math.max(lo, Math.min(hi, x))] for numbers [lo <= hi]: a number
    between the two. *)
Lemma clamp_between (lo hi x : float) :
  (lo <=? hi) = true → is_nan lo = false → is_nan hi = false →
  is_nan x = false →
  let r := Math_max lo (Math_min hi x) in
  is_nan r = false ∧ (lo <=? r) = true ∧ (r <=? hi) = true.
Proof.
  intros Hle Hlo Hhi Hx r.
  destruct (Math_min_upper hi x Hhi Hx) as (Hn & Hup & _).
  destruct (Math_max_lower lo (Math_min hi x) Hlo Hn) as (Hn' & Hlow & Hr).
  fold r in Hn', Hlow, Hr.
  split; [done|]. split; [done|].
  destruct Hr as [->| ->]; done.
Qed.
End Clamps.

Section Levels.
Import PrimFloat JsMath Audio Page.
Local Open Scope float_scope.

(** X16.  The clamps on what reaches the audio graph.  The level a new
    voice ramps to lies between 0 and 1 and its attack time is not
    negative; the velocity read from the pointer's pressure lies between
    0.05 and 1; the release time behind a fade-out and its stop timer is
    at least 0.02 s.  Each holds when the number clamped is not [NaN]. *)
Theorem levels_clamped :
  (∀ wave vol att f vel e,
     ∃ level attack v,
       voices (start_voice wave vol att f vel e).2 !! length (voices e)
       = Some v ∧
       gain_automation (gain v)
       = [SetValueAtTime 0 (currentTime e);
          LinearRampToValueAtTime level (currentTime e + attack)] ∧
       (is_nan (vol * vel) = false →
          (0 <=? level) = true ∧ (level <=? 1) = true) ∧
       (is_nan (att / 1000) = false → (0 <=? attack) = true)) ∧
  (∀ p rect e pr,
     velocityMode p = "pressure"%string → pressure e = Some pr →
     is_nan pr = false →
     (0.05 <=? getVelocity p rect (Some e)) = true ∧
     (getVelocity p rect (Some e) <=? 1) = true) ∧
  (∀ rel v e,
     is_nan (rel / 1000) = false →
     ∃ r, (0.02 <=? r) = true ∧
          voices (fade_out rel v e) !! v
          = automate [CancelScheduledValues (currentTime e);
                      SetTargetAtTime 0 (currentTime e) (r / 3)]
              <$> voices e !! v ∧
          timers (fade_out rel v e)
          = timers e ++ [{| callback := StopVoice v;
                            delay := r * 1000 + 50 |}]).
Proof.
  split; [|split].
  - intros wave vol att f vel e.
    eexists _, _, _. split; [|split; [|split]].
    + unfold start_voice. simpl. by apply list_lookup_middle.
    + done.
    + intros Hn.
      by destruct (clamp_between 0 1 (vol * vel) eq_refl eq_refl eq_refl Hn)
        as (_ & ? & ?).
    + intros Hn.
      by destruct (Math_max_lower 0 (att / 1000) eq_refl Hn) as (_ & ? & _).
  - intros p rect e pr Hmode Hpr Hn. unfold getVelocity.
    rewrite Hmode, Hpr. simpl.
    by destruct (clamp_between 0.05 1 pr eq_refl eq_refl eq_refl Hn)
      as (_ & ? & ?).
  - intros rel v e Hn. eexists. split; [|split; [|done]].
    + by destruct (Math_max_lower 0.02 (rel / 1000) eq_refl Hn)
        as (_ & ? & _).
    + unfold fade_out. simpl. apply list_lookup_alter_eq.
Qed.
End Levels.

(** ** The build in [piano.js]: the states of the page *)

Section PerfectedInvariant.
Import Audio Page Perfected PerfectedPage.
Variable Math_pow : float → float → float.
Implicit Types (s : Piano) (k key : string) (v u : nat).

Lemma tidy_insert (a : gmap string nat) e k wave vol att f vel :
  tidy a e →
  tidy (<[k := length (voices e)]> a) (start_voice wave vol att f vel e).2.
Proof.
  intros (Hlive & Hinj & Hlt). unfold tidy, live.
  setoid_rewrite sounding_start_voice. setoid_rewrite fading_start_voice.
  rewrite length_start_voice.
  assert (∀ k v, a !! k = Some v → (v < length (voices e))%nat) as Hin.
  { intros k' v Hk'. by apply sounding_lt, (Hlive k'). }
  split; [|split].
  - intros k' v [[-> <-]|[Hne Hk']]%lookup_insert_Some.
    + rewrite decide_True by done. split; [done|].
      destruct (fading e (length (voices e))) eqn:Hf; [|done].
      apply Hlt in Hf. lia.
    + destruct (Hlive _ _ Hk') as [Hv Hf]. split; [|done].
      by case_decide.
  - intros k1 k2 v H1 H2.
    apply lookup_insert_Some in H1 as [[-> <-]|[Hne1 H1]];
      apply lookup_insert_Some in H2 as [[-> Heq]|[Hne2 H2]]; try done.
    + apply Hin in H2. lia.
    + apply Hin in H1. lia.
    + by apply (Hinj _ _ v).
  - intros v Hv. apply Hlt in Hv. lia.
Qed.

Lemma tidy_delete (a : gmap string nat) e k v rel :
  tidy a e → a !! k = Some v → tidy (delete k a) (fade_out rel v e).
Proof.
  intros (Hlive & Hinj & Hlt) Hk. unfold tidy, live.
  setoid_rewrite sounding_fade_out.
  setoid_rewrite fading_fade_out_false.
  setoid_rewrite fading_fade_out_true. rewrite length_fade_out.
  split; [|split].
  - intros k' u [Hne Hk']%lookup_delete_Some.
    destruct (Hlive _ _ Hk') as [Hu Hf]. split; [done|split; [done|]].
    intros ->. by apply Hne, (Hinj _ _ v).
  - intros k1 k2 u [_ H1]%lookup_delete_Some [_ H2]%lookup_delete_Some.
    by apply (Hinj _ _ u).
  - intros u [Hf| ->]; [by apply Hlt|].
    by apply sounding_lt, (Hlive k).
Qed.

Lemma tidy_stop (a : gmap string nat) e i t v :
  tidy a e → timers e !! i = Some t → callback t = StopVoice v →
  tidy a (stopVoiceNow v (clearTimer i e)).
Proof.
  intros (Hlive & Hinj & Hlt) Hi Hcb.
  pose proof (fading_timer _ _ _ _ Hi Hcb) as Hv.
  unfold tidy, live.
  setoid_rewrite sounding_stopVoiceNow.
  setoid_rewrite fading_stopVoiceNow.
  rewrite length_stopVoiceNow.
  split; [|split; [done|]].
  - intros k u Hk. destruct (Hlive _ _ Hk) as [Hu Hf].
    rewrite decide_False by congruence. split; [done|].
    destruct (fading (clearTimer i e) u) eqn:Hc; [|done].
    apply fading_clearTimer in Hc. congruence.
  - intros u Hu%fading_clearTimer. by apply Hlt.
Qed.

Lemma tidy_clear (a : gmap string nat) e i t :
  tidy a e → timers e !! i = Some t → callback t = Silence →
  tidy a (clearTimer i e).
Proof.
  intros Hs Hi Hcb.
  assert (∀ u, fading (clearTimer i e) u = fading e u) as Hf.
  { intros u. eapply fading_clearTimer_other; [done|]. congruence. }
  unfold tidy, live in *. setoid_rewrite Hf. exact Hs.
Qed.

Lemma tidy_setTimeout_Silence (a : gmap string nat) e ms :
  tidy a e → tidy a (setTimeout Silence ms e).
Proof.
  intros Hs. unfold tidy, live in *.
  setoid_rewrite fading_setTimeout_Silence. exact Hs.
Qed.

Lemma kept_frame s s' :
  active s' = active s → engine s' = engine s →
  sustain s' = sustain s → sustainPool s' = sustainPool s →
  kept s → kept s'.
Proof. unfold kept. by intros -> -> -> ->. Qed.

Lemma kept_noteOn k f vel s : kept s → kept (noteOn k f vel s).
Proof.
  intros (Ht & Hpool & Hup). unfold kept, noteOn. simpl.
  split; [by apply tidy_insert|]. split; [|done].
  rewrite dom_insert_L. set_solver.
Qed.

(** A release keeps the table tidy whatever the pool holds. *)
Lemma tidy_noteOff k s :
  tidy (active s) (engine s) →
  tidy (active (noteOff k s)) (engine (noteOff k s)).
Proof.
  intros Ht. unfold noteOff. destruct (active s !! k) as [v|] eqn:Hk; [|done].
  destruct (sustain s); [done|]. simpl. by apply tidy_delete.
Qed.

Lemma kept_noteOff k s : kept s → kept (noteOff k s).
Proof.
  intros (Ht & Hpool & Hup). split; [by apply tidy_noteOff|].
  unfold noteOff. destruct (active s !! k) as [v|] eqn:Hk; [|done].
  destruct (sustain s) eqn:Hs; simpl.
  - rewrite Hs. split; [|done].
    assert (k ∈ dom (active s)) by (apply elem_of_dom; eauto). set_solver.
  - rewrite Hs, Hup by done. split; [apply empty_subseteq|done].
Qed.

Lemma kept_release_each l s : kept s → kept (release_each l s).
Proof.
  unfold release_each. revert s.
  induction l as [|a l IH]; intros s Hs; [done|].
  cbn [foldl]. by apply IH, kept_noteOff.
Qed.

Lemma tidy_release_each l s :
  tidy (active s) (engine s) →
  tidy (active (release_each l s)) (engine (release_each l s)).
Proof.
  unfold release_each. revert s.
  induction l as [|a l IH]; intros s Hs; [done|].
  cbn [foldl]. by apply IH, tidy_noteOff.
Qed.

Lemma kept_sweep above s : kept s → kept (sweep above s).
Proof.
  unfold sweep. generalize (map_to_list (active s)). intros l. revert s.
  induction l as [|[k v] l IH]; intros s Hs; [done|].
  cbn [foldl]. simpl. destruct (above v); [|by apply IH].
  by apply IH, kept_noteOff.
Qed.

Lemma kept_sustain_onchange checked s :
  kept s → kept (sustain_onchange checked s).
Proof.
  intros (Ht & Hpool & Hup). unfold sustain_onchange.
  destruct checked; [by split|].
  split; [|split; [apply empty_subseteq|done]]. simpl.
  by apply tidy_release_each.
Qed.

Lemma kept_pointer_end note s : kept s → kept (pointer_end note s).
Proof.
  intros Hs. unfold pointer_end. case_decide; [|done].
  unfold deactivateKey. by apply kept_noteOff.
Qed.

Lemma kept_activateKey note rect e s :
  kept s → kept (activateKey Math_pow note rect e s).
Proof.
  intros Hs. unfold activateKey. apply kept_noteOn.
  by destruct (started s).
Qed.

Lemma kept_listener ev s : kept s → kept (Perfected.handle Math_pow ev s).
Proof.
  intros Hs. destruct ev; simpl; repeat case_bool_decide; try done.
  - by apply kept_activateKey.
  - by apply kept_activateKey.
  - by apply kept_pointer_end.
  - by apply kept_pointer_end.
  - by apply kept_pointer_end.
  - by apply kept_sustain_onchange.
  - by apply kept_release_each.
  - by apply kept_release_each.
  - by apply kept_release_each.
  - destruct hidden; [by apply kept_release_each|done].
  - by apply kept_sweep.
  - destruct (kept_release_each (map_to_list (active s)).*1 s Hs)
      as (Ht & _ & _).
    split; [exact Ht|]. split; [apply empty_subseteq|done].
Qed.

Lemma kept_keydown e s : kept s → kept (keydown Math_pow e s).
Proof.
  intros Hs. unfold keydown.
  case_bool_decide; [done|]. destruct (repeat e); [done|].
  destruct (String.eqb (key e) "Z"); [exact Hs|].
  destruct (String.eqb (key e) "X"); [exact Hs|].
  destruct (KEY_MAP !! key e) as [semis|]; [|done].
  case_bool_decide; [|done]. by apply kept_noteOn.
Qed.

Lemma kept_keyup e s : kept s → kept (keyup e s).
Proof.
  intros Hs. unfold keyup. case_match; [|done]. by apply kept_noteOff.
Qed.

Lemma kept_fire i s : kept s → kept (fire i s).
Proof.
  intros Hs. pose proof Hs as (Ht & Hpool & Hup). unfold fire.
  destruct (timers (engine s) !! i) as [t|] eqn:Hi; [|done].
  destruct (callback t) as [v|] eqn:Hcb.
  - split; [|done]. by eapply tidy_stop.
  - apply kept_release_each. split; [|done]. by eapply tidy_clear.
Qed.

Lemma kept_handle inp s : kept s → kept (PerfectedPage.handle Math_pow inp s).
Proof.
  intros Hs.
  destruct inp; simpl;
    eauto using kept_listener, kept_keydown, kept_keyup, kept_fire.
  destruct Hs as (Ht & Hpool & Hup). split; [|done].
  by apply tidy_setTimeout_Silence.
Qed.

Lemma kept_init : kept init.
Proof.
  split; [|split; [done|done]]. split; [|split].
  - intros k v Hk. simpl in Hk. by rewrite lookup_empty in Hk.
  - intros k1 k2 v Hk. simpl in Hk. by rewrite lookup_empty in Hk.
  - intros v Hv. apply fading_iff in Hv. simpl in Hv.
    by apply elem_of_nil in Hv.
Qed.

Lemma kept_run inps : kept (PerfectedPage.run Math_pow inps init).
Proof.
  induction inps as [|inp inps IH] using rev_ind; [apply kept_init|].
  unfold PerfectedPage.run. rewrite foldl_snoc. by apply kept_handle.
Qed.

(** X17.  What piano.js keeps in every state of its page, whatever the
    pointer, the keyboard, the controls and the timers do: the voice of a
    key in the table is sounding with no stop pending, no voice is in the
    table under two keys, a pooled key has a voice, and the pool is empty
    while the pedal is up. *)
Theorem perfected_table_kept (inps : list Input) :
  let s := PerfectedPage.run Math_pow inps init in
  (∀ k v, active s !! k = Some v →
          sounding (engine s) v = true ∧ fading (engine s) v = false) ∧
  (∀ k1 k2 v, active s !! k1 = Some v → active s !! k2 = Some v → k1 = k2) ∧
  sustainPool s ⊆ dom (active s) ∧
  (sustain s = false → sustainPool s = ∅).
Proof.
  cbv zeta. by destruct (kept_run inps) as ((Hlive & Hinj & _) & Hpool & Hup).
Qed.

(** X18.  With the pedal up, the releases of piano.js that go through the
    whole table (window pointer-up, touch-end and touch-cancel, the page
    being hidden, the page being left) empty it, and every voice that was
    in it is on its way out. *)
Theorem perfected_release_all_pedal_up s ev :
  sustain s = false →
  ev ∈ [WindowPointerUp; WindowTouchEnd; WindowTouchCancel;
        VisibilityChange true; BeforeUnload] →
  let s' := Perfected.handle Math_pow ev s in
  active s' = ∅ ∧
  (∀ k v, active s !! k = Some v → fading (engine s') v = true).
Proof.
  intros Hs Hev s'.
  assert (active s' = active (release_all s) ∧
          engine s' = engine (release_all s)) as [-> ->].
  { unfold s'. repeat (apply elem_of_cons in Hev as [->|Hev]); try done.
    by apply elem_of_nil in Hev. }
  unfold release_all. split.
  - apply map_eq. intros k. rewrite lookup_empty.
    destruct (active s !! k) as [v|] eqn:Hk.
    + eapply perfected_release_each_released; [done| |done].
      rewrite list_elem_of_fmap. exists (k, v). split; [done|].
      by apply elem_of_map_to_list.
    + by apply perfected_release_each_absent.
  - intros k v Hk.
    eapply (perfected_release_each_released _ s k v); [done| |done].
    rewrite list_elem_of_fmap. exists (k, v). split; [done|].
    by apply elem_of_map_to_list.
Qed.


Lemma perfected_strike k f vel s :
  kept s →
  let v := length (voices (engine s)) in
  let s1 := noteOn k f vel s in
  active s1 = <[k := v]> (active s) ∧ live (engine s1) v ∧
  sustain s1 = sustain s ∧ sustainPool s1 = sustainPool s ∧
  state s1 = state s ∧ pressed s1 = pressed s ∧ page s1 = page s.
Proof.
  intros Hs v s1. pose proof (kept_noteOn k f vel s Hs) as ((Hlive & _) & _).
  fold s1 in Hlive. split; [done|]. split; [|done].
  apply (Hlive k). apply lookup_insert_eq.
Qed.

Lemma perfected_let_go k v s :
  active s !! k = Some v → sounding (engine s) v = true →
  (sustain s = false →
     active (noteOff k s) = delete k (active s) ∧
     sounding (engine (noteOff k s)) v = true ∧
     fading (engine (noteOff k s)) v = true) ∧
  (sustain s = true →
     active (noteOff k s) = active s ∧
     sustainPool (noteOff k s) = {[k]} ∪ sustainPool s ∧
     engine (noteOff k s) = engine s).
Proof.
  intros Hk Hv. split; intros Hsus.
  - rewrite (perfected_noteOff_released k v) by done. simpl.
    rewrite sounding_fade_out. split; [done|]. split; [done|].
    apply fading_fade_out_true. by right.
  - by rewrite (perfected_noteOff_sustained k v).
Qed.

(** X19.  A pointer gesture on a key element of piano.js, in any state of
    its page: a press (pointer down, or entering with a button down)
    followed by its release (pointer up, cancel, or leaving with the main
    button down).  The press marks the element as pressed and gives its key
    a new, live voice.  With the pedal up the release takes the key out of
    the table and starts the fade of that voice; with the pedal down the
    voice stays as it is and the key is pooled. *)
Theorem perfected_pointer_press_release inps note rect e down up :
  down = KeyPointerDown note rect e ∨
  (down = KeyPointerEnter note rect e ∧ buttons e ≠ 0) →
  up = KeyPointerUp note ∨ up = KeyPointerCancel note ∨
  (∃ e', up = KeyPointerLeave note e' ∧ buttons e' = 1) →
  let s := PerfectedPage.run Math_pow inps init in
  let k := Pitch.key_of (Pitch.noteToMidi note) in
  let v := length (voices (engine s)) in
  let s1 := Perfected.handle Math_pow down s in
  let s2 := Perfected.handle Math_pow up s1 in
  (active s1 = <[k := v]> (active s) ∧ note ∈ pressed s1 ∧
   live (engine s1) v) ∧
  (note ∉ pressed s2) ∧
  (sustain s = false →
     active s2 = delete k (active s) ∧
     sounding (engine s2) v = true ∧ fading (engine s2) v = true) ∧
  (sustain s = true →
     active s2 = <[k := v]> (active s) ∧
     sustainPool s2 = {[k]} ∪ sustainPool s ∧ engine s2 = engine s1).
Proof.
  intros Hdown Hup s k v s1 s2.
  pose proof (kept_run inps) as Hkept. fold s in Hkept.
  pose (s0 := set_pressed ({[note]} ∪ pressed s) s).
  pose (s0' := if started s0 then s0 else set_started true s0).
  assert (kept s0') as Hkept0.
  { unfold s0', s0. simpl. destruct (started s); exact Hkept. }
  assert (s1 = noteOn k (Pitch.midiToFreq Math_pow (Pitch.noteToMidi note))
                 (getVelocity (state s0') rect (Some e)) s0') as Hs1.
  { unfold s1. destruct Hdown as [->|[-> Hb]]; simpl.
    - done.
    - by rewrite bool_decide_eq_true_2. }
  destruct (perfected_strike k
              (Pitch.midiToFreq Math_pow (Pitch.noteToMidi note))
              (getVelocity (state s0') rect (Some e)) s0' Hkept0)
    as (Ha & Hlive & Hsus & Hpool & _ & Hpr & _).
  rewrite <- Hs1 in Ha, Hlive, Hsus, Hpool, Hpr.
  assert (engine s0' = engine s ∧ active s0' = active s ∧
          sustain s0' = sustain s ∧ sustainPool s0' = sustainPool s ∧
          pressed s0' = {[note]} ∪ pressed s) as (He0 & Ha0 & Hs0 & Hp0 & Hpr0).
  { unfold s0', s0. simpl. by destruct (started s). }
  rewrite He0 in Ha, Hlive. rewrite Ha0 in Ha. rewrite Hs0 in Hsus.
  rewrite Hp0 in Hpool. rewrite Hpr0 in Hpr. fold v in Ha, Hlive.
  assert (note ∈ pressed s1) as Hin by (rewrite Hpr; set_solver).
  assert (s2 = noteOff k (set_pressed (pressed s1 ∖ {[note]}) s1)) as Hs2.
  { unfold s2. destruct Hup as [->|[->|(e' & -> & Hb)]]; simpl;
      rewrite ?bool_decide_eq_true_2 by done;
      unfold pointer_end; by rewrite decide_True. }
  clearbody s1. split; [done|].
  destruct (perfected_let_go k v (set_pressed (pressed s1 ∖ {[note]}) s1))
    as [Hup' Hdown'].
  { simpl. rewrite Ha. apply lookup_insert_eq. }
  { apply Hlive. }
  rewrite <- Hs2 in Hup', Hdown'. simpl in Hup', Hdown'.
  rewrite Hsus, Ha, Hpool in *. rewrite delete_insert_eq in Hup'.
  split; [|split; [exact Hup'|exact Hdown']].
  rewrite Hs2. unfold noteOff. simpl. rewrite Ha, lookup_insert_eq, Hsus.
  destruct (sustain s); simpl; set_solver.
Qed.

(** X20.  The same gesture on the computer keyboard, in piano.js: a mapped
    key goes down (not a repeat, not in a form field, its note on the page)
    and comes up with Shift and the base octave as they were.  The key-down
    gives the key ['m'+midi] a new, live voice; the key-up releases that
    same key: with the pedal up the voice fades and the key leaves the
    table, with the pedal down the voice stays and the key is pooled. *)
Theorem perfected_key_press_release inps e e' semis :
  let s := PerfectedPage.run Math_pow inps init in
  targetTag e ∉ ["INPUT"; "SELECT"; "TEXTAREA"]%string →
  repeat e = false → KEY_MAP !! key e = Some semis →
  let midi := (baseOct (state s) + (if shiftKey e then 1 else 0) + 1) * 12
              + semis in
  template (Pitch.midiToNote midi) ∈ page s →
  key e' = key e → shiftKey e' = shiftKey e →
  let k := Pitch.key_of (Some midi) in
  let v := length (voices (engine s)) in
  let s1 := PerfectedPage.handle Math_pow (KeyDown e) s in
  let s2 := PerfectedPage.handle Math_pow (KeyUp e') s1 in
  (active s1 = <[k := v]> (active s) ∧ live (engine s1) v ∧
   started s1 = started s) ∧
  (sustain s = false →
     active s2 = delete k (active s) ∧
     sounding (engine s2) v = true ∧ fading (engine s2) v = true) ∧
  (sustain s = true →
     active s2 = <[k := v]> (active s) ∧
     sustainPool s2 = {[k]} ∪ sustainPool s ∧ engine s2 = engine s1).
Proof.
  intros s Htag Hrep Hkey midi Hpage Hk' Hshift k v s1 s2.
  pose proof (kept_run inps) as Hkept. fold s in Hkept.
  assert (s1 = noteOn k (Pitch.midiToFreq Math_pow (Some midi)) 0.95 s)
    as Hs1.
  { unfold s1. simpl. unfold keydown.
    rewrite bool_decide_eq_false_2 by done. rewrite Hrep.
    destruct (String.eqb_spec (key e) "Z") as [HZ|_].
    { rewrite HZ in Hkey. by vm_compute in Hkey. }
    destruct (String.eqb_spec (key e) "X") as [HX|_].
    { rewrite HX in Hkey. by vm_compute in Hkey. }
    rewrite Hkey. fold midi. by rewrite bool_decide_eq_true_2. }
  destruct (perfected_strike k (Pitch.midiToFreq Math_pow (Some midi)) 0.95
              s Hkept) as (Ha & Hlive & Hsus & Hpool & Hst & _).
  assert (started s1 = started s) as Hstarted by by rewrite Hs1.
  rewrite <- Hs1 in Ha, Hlive, Hsus, Hpool, Hst. fold v in Ha, Hlive.
  assert (s2 = noteOff k s1) as Hs2.
  { unfold s2. simpl. unfold keyup. by rewrite Hk', Hkey, Hshift, Hst. }
  clearbody s1. split; [done|].
  destruct (perfected_let_go k v s1) as [Hup' Hdown'].
  { rewrite Ha. apply lookup_insert_eq. }
  { apply Hlive. }
  rewrite <- Hs2 in Hup', Hdown'.
  rewrite Hsus, Ha, Hpool in *. rewrite delete_insert_eq in Hup'.
  done.
Qed.
End PerfectedInvariant.

(** ** Further instances *)

Section MoreInstances.
Import Audio Page Examples Inputs.

Lemma voices_follow_keys_witness :
  let s := SustainSafe.run Pitch.pow_example repressed SustainSafe.init in
  is_Some (SustainSafe.active s !! "m62") ↔
  "m62" ∈ SustainSafe.heldKeys s ∨ "m62" ∈ SustainSafe.sustainPool s.
Proof.
  intros s. destruct (voices_follow_keys Pitch.pow_example s) as [Hdom _].
  - by exists repressed.
  - apply Hdom.
Defined.

Lemma no_stray_voice_witness :
  let s := SustainSafe.run Pitch.pow_example repressed SustainSafe.init in
  sounding (SustainSafe.engine s) 0 = false ∧
  ((∃ k, SustainSafe.active s !! k = Some 1%nat) ∨
   fading (SustainSafe.engine s) 1 = true).
Proof.
  intros s. split; [vm_compute; reflexivity|].
  destruct (no_stray_voice Pitch.pow_example s) as [Hstray _].
  - by exists repressed.
  - apply Hstray. vm_compute. reflexivity.
Defined.

Lemma stop_timer_fires_witness :
  let s := SustainSafe.run Pitch.pow_example struck_and_lifted
             SustainSafe.init in
  sounding (SustainSafe.engine s) 0 = true ∧
  sounding (SustainSafe.engine
              (SustainSafe.handle Pitch.pow_example
                 (SustainSafe.TimerFires 0) s)) 0 = false.
Proof.
  intros s. split; [vm_compute; reflexivity|].
  eapply (stop_timer_fires Pitch.pow_example s 0).
  - by exists struck_and_lifted.
  - vm_compute. reflexivity.
  - reflexivity.
Defined.

Lemma silence_on_leaving_witness :
  let s := SustainSafe.run Pitch.pow_example repressed SustainSafe.init in
  SustainSafe.sustain s = true ∧
  SustainSafe.active
    (SustainSafe.handle Pitch.pow_example SustainSafe.BeforeUnload s) = ∅.
Proof.
  intros s. split; [vm_compute; reflexivity|].
  destruct (silence_on_leaving Pitch.pow_example s) as [Hnow _].
  - by exists repressed.
  - apply (Hnow SustainSafe.BeforeUnload). right. left.
Defined.

Lemma pointer_press_release_witness :
  let s := SustainSafe.handle Pitch.pow_example
             (SustainSafe.SustainChange true) SustainSafe.init in
  let s1 := SustainSafe.handle Pitch.pow_example
              (SustainSafe.KeyPointerDown "C4" rect press) s in
  let cancelled := SustainSafe.handle Pitch.pow_example
                     (SustainSafe.KeyPointerCancel "C4") s1 in
  let lifted := SustainSafe.run Pitch.pow_example
                  [SustainSafe.KeyPointerUp "C4";
                   SustainSafe.WindowPointerUp] s1 in
  (SustainSafe.active cancelled = <["m60" := 0%nat]> ∅ ∧
   SustainSafe.sustainPool cancelled = {["m60"]} ∪ ∅) ∧
  SustainSafe.active lifted = ∅ ∧ SustainSafe.sustainPool lifted = ∅ ∧
  fading (SustainSafe.engine lifted) 0 = true.
Proof.
  intros s s1 cancelled lifted.
  destruct (pointer_press_release Pitch.pow_example s "C4" rect press
              (SustainSafe.KeyPointerDown "C4" rect press))
    as (_ & Hcancel & Ha & _ & Hp & _ & Hf & _).
  - by exists [SustainSafe.SustainChange true].
  - by left.
  - split; [|split; [exact Ha|split; [exact Hp|exact Hf]]].
    destruct (Hcancel (SustainSafe.KeyPointerCancel "C4")) as (_ & Hdown);
      [by left|].
    destruct (Hdown eq_refl) as (Ha2 & _ & Hp2 & _).
    split; [exact Ha2|exact Hp2].
Defined.

Lemma key_press_release_witness :
  let s1 := SustainSafe.handle Pitch.pow_example (SustainSafe.KeyDown key_A)
              SustainSafe.init in
  let s2 := SustainSafe.handle Pitch.pow_example (SustainSafe.KeyUp key_A)
              s1 in
  SustainSafe.active s1 = <["m60" := 0%nat]> ∅ ∧
  SustainSafe.active s2 = delete "m60" ∅.
Proof.
  intros s1 s2.
  destruct (key_press_release Pitch.pow_example SustainSafe.init
              key_A key_A 0) as ((Ha & _) & Hup & _).
  - by exists [].
  - apply (bool_decide_unpack _). vm_compute. exact I.
  - reflexivity.
  - vm_compute. reflexivity.
  - apply (bool_decide_unpack _). vm_compute. exact I.
  - reflexivity.
  - reflexivity.
  - split; [exact Ha|]. by destruct (Hup eq_refl) as (? & _).
Defined.

Lemma keyup_after_octave_down_witness :
  let s2 := SustainSafe.run Pitch.pow_example
              [SustainSafe.KeyDown key_A; SustainSafe.KeyDown key_Z]
              SustainSafe.init in
  SustainSafe.handle Pitch.pow_example (SustainSafe.KeyUp key_A) s2 = s2.
Proof.
  intros s2.
  apply (keyup_after_octave_down Pitch.pow_example SustainSafe.init
           key_A key_Z 0).
  - by exists [].
  - apply (bool_decide_unpack _). vm_compute. exact I.
  - reflexivity.
  - vm_compute. reflexivity.
  - apply (bool_decide_unpack _). vm_compute. exact I.
  - apply (bool_decide_unpack _). vm_compute. exact I.
  - reflexivity.
  - reflexivity.
  - vm_compute. reflexivity.
  - vm_compute. reflexivity.
Defined.

Lemma page_keys_chromatic_witness :
  Pitch.noteToMidi <$> buildPiano defaults = Some <$> seqZ 60 24.
Proof. apply (page_keys_chromatic defaults); vm_compute; discriminate. Defined.

Lemma noteToMidi_values_witness :
  Pitch.noteToMidi "C#4" = Some 61 ∧ Pitch.noteToMidi "Cb4" = Some 59.
Proof.
  destruct noteToMidi_values as [_ Hacc].
  destruct (Hacc "C"%char "4"%char 60) as (_ & Hsharp & Hflat).
  - vm_compute. reflexivity.
  - split; [exact Hsharp|exact Hflat].
Defined.

Lemma octave_keys_witness :
  baseOct (SustainSafe.state
             (SustainSafe.keydown Pitch.pow_example key_Z SustainSafe.init))
  = 3.
Proof.
  destruct (octave_keys Pitch.pow_example key_Z SustainSafe.init)
    as (HZ & _).
  - apply (bool_decide_unpack _). vm_compute. exact I.
  - reflexivity.
  - by left.
  - vm_compute. split; discriminate.
  - vm_compute. discriminate.
  - by apply HZ.
Defined.

Lemma perfected_release_all_pedal_up_witness :
  let s := Perfected.run Pitch.pow_example chord Perfected.init in
  Perfected.active s = {["m60" := 0%nat; "m64" := 1%nat]} ∧
  Perfected.active
    (Perfected.handle Pitch.pow_example Perfected.WindowPointerUp s) = ∅.
Proof.
  intros s. split; [vm_compute; reflexivity|].
  apply (perfected_release_all_pedal_up Pitch.pow_example s
           Perfected.WindowPointerUp).
  - vm_compute. reflexivity.
  - left.
Defined.

Lemma levels_clamped_witness :
  let velocity :=
    getVelocity (with_velocityMode "pressure" defaults) rect (Some press) in
  velocity = 0.5%float ∧
  (0.05 <=? velocity)%float = true ∧ (velocity <=? 1)%float = true.
Proof.
  intros velocity. split; [vm_compute; reflexivity|].
  destruct levels_clamped as (_ & Hvel & _).
  apply (Hvel (with_velocityMode "pressure" defaults) rect press 0.5%float);
    reflexivity.
Defined.

Lemma forceAllOff_any_order_witness :
  let s := SustainSafe.run Pitch.pow_example repressed SustainSafe.init in
  SustainSafe.alike
    (SustainSafe.set_sustainPool ∅
       (SustainSafe.force_each ["m60"; "m62"]%string s))
    (SustainSafe.forceAllOff s).
Proof.
  intros s.
  destruct (forceAllOff_any_order ["m60"; "m62"]%string s) as [Hall _].
  - apply (bool_decide_unpack _). vm_compute. exact I.
  - intros k. rewrite <- elem_of_keys_snapshot.
    assert (SustainSafe.keys_snapshot s ≡ₚ ["m60"; "m62"]%string) as ->.
    { assert (SustainSafe.keys_snapshot s = ["m62"; "m60"]%string) as ->
        by (vm_compute; reflexivity).
      apply perm_swap. }
    done.
  - exact Hall.
Defined.

Lemma other_keys_undisturbed_witness :
  let s := SustainSafe.run Pitch.pow_example repressed SustainSafe.init in
  SustainSafe.active (SustainSafe.forceOff "m60" s) !! "m62" = Some 2%nat ∧
  live (SustainSafe.engine (SustainSafe.forceOff "m60" s)) 2.
Proof.
  intros s.
  pose proof (other_keys_undisturbed Pitch.pow_example s "m60" "m62" 2
                261.63 1) as Hall.
  rewrite !Forall_cons in Hall.
  destruct Hall as (_ & _ & (Ha & _ & Hl & _) & _).
  - by exists repressed.
  - discriminate.
  - vm_compute. reflexivity.
  - split; [exact Ha|exact Hl].
Defined.

Lemma perfected_pointer_press_release_witness :
  let s1 := Perfected.handle Pitch.pow_example
              (Perfected.KeyPointerDown "C4" rect press) Perfected.init in
  let s2 := Perfected.handle Pitch.pow_example
              (Perfected.KeyPointerUp "C4") s1 in
  Perfected.active s2 = delete "m60" ∅ ∧
  fading (Perfected.engine s2) 0 = true.
Proof.
  intros s1 s2.
  destruct (perfected_pointer_press_release Pitch.pow_example [] "C4" rect
              press (Perfected.KeyPointerDown "C4" rect press)
              (Perfected.KeyPointerUp "C4"))
    as (_ & _ & Hup & _).
  - by left.
  - by left.
  - destruct (Hup eq_refl) as (Ha & _ & Hf). split; [exact Ha|exact Hf].
Defined.

Lemma perfected_key_press_release_witness :
  let s1 := PerfectedPage.handle Pitch.pow_example
              (PerfectedPage.KeyDown key_A) Perfected.init in
  let s2 := PerfectedPage.handle Pitch.pow_example
              (PerfectedPage.KeyUp key_A) s1 in
  Perfected.active s1 = <["m60" := 0%nat]> ∅ ∧
  Perfected.started s1 = false ∧
  Perfected.active s2 = delete "m60" ∅.
Proof.
  intros s1 s2.
  destruct (perfected_key_press_release Pitch.pow_example [] key_A key_A 0)
    as ((Ha & _ & Hst) & Hup & _).
  - apply (bool_decide_unpack _). vm_compute. exact I.
  - reflexivity.
  - vm_compute. reflexivity.
  - apply (bool_decide_unpack _). vm_compute. exact I.
  - reflexivity.
  - reflexivity.
  - split; [exact Ha|]. split; [exact Hst|].
    by destruct (Hup eq_refl) as (? & _).
Defined.
End MoreInstances.
